(** * danogips: RU -> UZ static-site translator (scripts/translate_ru_to_uz.py)

    A shallow embedding of the translation pipeline and the properties
    of it that the specification states.

    Conventions of the embedding.
    - A Python [str] is a Rocq [string]; one [ascii] stands for one
      character of the Python string, [String.length] for [len].
    - A Python [int] is a [Z]; [len(...)] is [Z.of_nat (length ...)].
    - A Python [dict] with string keys is a [gmap string _]; a value
      that may be [None] is an [option].
    - The remote service is an oracle: the reply to the [n]-th POST of
      the run may depend on [n] and on the texts posted.
    - [time.sleep] and the clock only delay the run; they are left out. *)

From stdpp Require Import gmap strings list sorting.
From Stdlib Require Import ZArith Lia Ascii.

Local Open Scope Z_scope.

(** ** Outcomes of a call *)

(** The exceptions of the pipeline: the two classes the retry loop of
    [translate] tells apart, and the [ValueError] of bs4. *)
Inductive exn : Type :=
| RateLimitError
| RequestException
| ValueError.

(** What a call does: it returns, it raises, or the model ran out of
    loop fuel before the call was over. *)
Inductive outcome (A : Type) : Type :=
| Returns (a : A)
| Raises (e : exn)
| OutOfFuel.
Arguments Returns {A} a.
Arguments Raises {A} e.
Arguments OutOfFuel {A}.

(** ** class YandexTranslator *)

Record YandexTranslator : Type := {
  api_key : string;
  folder_id : string;
  batch_size : Z;
  max_chars : Z;
  rpm : Z
}.

(** [requests.post]: either an HTTP response (status code, and the
    [text] fields of the [translations] array of its JSON body, empty
    when the key is absent), or no response at all (connection error,
    timeout: a [requests.RequestException]). *)
Inductive reply : Type :=
| Response (status_code : Z) (translations : list string)
| NoResponse.

(** The service: reply to the [n]-th request of the run. *)
Definition service : Type := nat -> list string -> reply.

(** [translate_batch]: 429 raises [RateLimitError], [raise_for_status]
    raises for every other 4xx/5xx status.  The body of any other
    response is taken to have the expected shape: a body for which
    [resp.json()] or [item['text']] raises is not modelled. *)
Definition translate_batch (svc : service) (n : nat) (texts : list string)
  : exn + list string :=
  match svc n texts with
  | NoResponse => inl RequestException
  | Response status_code translations =>
      if status_code =? 429 then inl RateLimitError
      else if (400 <=? status_code) && (status_code <? 600) then inl RequestException
      else inr translations
  end.

Definition len (s : string) : Z := Z.of_nat (String.length s).

(** Cumulative character count of a batch. *)
Definition total_chars (batch : list string) : Z :=
  foldr (fun s acc => len s + acc) 0 batch.

(** The inner [while] of [translate].  The pair ([texts], [i]) of the
    source is carried as the unread suffix [texts[i:]]; the result is
    the batch built and the suffix left. *)
Fixpoint build_batch (tr : YandexTranslator) (rest : list string)
    (batch : list string) (batch_chars : Z) : list string * list string :=
  match rest with
  | [] => (batch, rest)
  | next_text :: rest' =>
      if Z.of_nat (length batch) <? batch_size tr then
        if (max_chars tr <? batch_chars + len next_text)
           && negb (bool_decide (batch = []))
        then (batch, rest)
        else build_batch tr rest' (batch ++ [next_text]) (batch_chars + len next_text)
      else (batch, rest)
  end.

(** How the [for attempt in range(6)] loop over one batch ends. *)
Inductive attempt_result : Type :=
| Done (translated : list string)   (* break after a successful call *)
| Skipped                            (* the range ran out, nothing raised *)
| Failed (e : exn).                  (* re-raised *)

(** The retry loop; [attempts] is what is left of [range(6)], [calls]
    counts the requests made so far in the run. *)
Fixpoint call_with_retries (svc : service) (batch : list string)
    (attempts : list nat) (calls : nat) : attempt_result * nat :=
  match attempts with
  | [] => (Skipped, calls)
  | attempt :: attempts' =>
      match translate_batch svc calls batch with
      | inr translated => (Done translated, S calls)
      | inl RateLimitError => call_with_retries svc batch attempts' (S calls)
      | inl RequestException =>
          if bool_decide (5 <= attempt)%nat then (Failed RequestException, S calls)
          else call_with_retries svc batch attempts' (S calls)
      | inl e => (Failed e, S calls)   (* not caught *)
      end
  end.

Definition range (n : nat) : list nat := seq 0 n.

(** The outer [while i < len(texts)] of [translate].  One unit of fuel
    is one iteration. *)
Fixpoint translate_loop (tr : YandexTranslator) (svc : service) (fuel : nat)
    (rest : list string) (results : list string) (calls : nat)
  : outcome (list string) * nat :=
  match rest with
  | [] => (Returns results, calls)
  | _ :: _ =>
      match fuel with
      | O => (OutOfFuel, calls)
      | S fuel' =>
          let '(batch, rest') := build_batch tr rest [] 0 in
          match call_with_retries svc batch (range 6) calls with
          | (Done translated, calls') =>
              translate_loop tr svc fuel' rest' (results ++ translated) calls'
          | (Skipped, calls') =>
              translate_loop tr svc fuel' rest' results calls'
          | (Failed e, calls') => (Raises e, calls')
          end
      end
  end.

Definition translate (tr : YandexTranslator) (svc : service) (fuel : nat)
    (texts : list string) (calls : nat) : outcome (list string) * nat :=
  translate_loop tr svc fuel texts [] calls.

(** The batches [translate] builds, in the order it builds them: the
    partition alone, without the requests. *)
Fixpoint batches (tr : YandexTranslator) (fuel : nat) (rest : list string)
  : option (list (list string)) :=
  match rest with
  | [] => Some []
  | _ :: _ =>
      match fuel with
      | O => None
      | S fuel' =>
          let '(batch, rest') := build_batch tr rest [] 0 in
          match batches tr fuel' rest' with
          | Some bs => Some (batch :: bs)
          | None => None
          end
      end
  end.

(** Sending a given list of batches, one retry loop each. *)
Fixpoint send_all (svc : service) (bs : list (list string))
    (results : list string) (calls : nat) : outcome (list string) * nat :=
  match bs with
  | [] => (Returns results, calls)
  | batch :: bs' =>
      match call_with_retries svc batch (range 6) calls with
      | (Done translated, calls') => send_all svc bs' (results ++ translated) calls'
      | (Skipped, calls') => send_all svc bs' results calls'
      | (Failed e, calls') => (Raises e, calls')
      end
  end.

(** A service that, from any point of the run on, answers a batch
    with the element-wise translation [f] after fewer than [k] failed
    attempts. *)
Definition answers_within (f : string -> string) (svc : service) (k : nat) : Prop :=
  forall (n : nat) (batch : list string),
    exists j : nat,
      (j < k)%nat /\
      (forall i : nat, (i < j)%nat -> exists e, translate_batch svc (n + i) batch = inl e) /\
      translate_batch svc (n + j) batch = inr (map f batch).

(** What the partition of [translate] has to satisfy. *)
Definition good_batch (tr : YandexTranslator) (batch : list string) : Prop :=
  batch <> [] /\
  Z.of_nat (length batch) <= batch_size tr /\
  (max_chars tr < total_chars batch -> length batch = 1%nat).

(** Loop invariant of the inner [while]: the counter is the batch's
    character count, the item limit holds, and the character limit
    holds unless the batch is a single text. *)
Definition batch_inv (tr : YandexTranslator) (batch : list string) (chars : Z) : Prop :=
  chars = total_chars batch /\
  (batch <> [] ->
   Z.of_nat (length batch) <= batch_size tr /\
   (max_chars tr < total_chars batch -> length batch = 1%nat)).

(** The constructor defaults: [batch_size=80, max_chars=9000, rpm=300]. *)
Definition default_translator : YandexTranslator :=
  {| api_key := "key"; folder_id := "folder";
     batch_size := 80; max_chars := 9000; rpm := 300 |}.

(** A service that answers 429 to every request. *)
Definition always_rate_limited : service := fun _ _ => Response 429 [].

(** A service that cannot be reached. *)
Definition unreachable : service := fun _ _ => NoResponse.

(** A service that answers every request with status 200 and the
    element-wise image of the texts under [f]. *)
Definition reliable (f : string -> string) : service :=
  fun _ texts => Response 200 (map f texts).

(** A service that is rate limited on every even request of the run
    and answers like [reliable f] on the odd ones. *)
Definition flaky (f : string -> string) : service :=
  fun n texts => if Nat.even n then Response 429 [] else Response 200 (map f texts).

(** ** Strings: [str.replace], [str.count], [str.strip], [str.lower] *)

(** Scan of [str.replace(old, new)] for a non-empty [old]: [skip] is
    the number of characters of a matched occurrence still to be
    passed over. *)
Fixpoint replace_from (old new : string) (skip : nat) (s : string) : string :=
  match s with
  | EmptyString => EmptyString
  | String c s' =>
      match skip with
      | S k => replace_from old new k s'
      | O =>
          if String.prefix old s
          then new +:+ replace_from old new (String.length old - 1) s'
          else String c (replace_from old new 0 s')
      end
  end.

(** [new] after every character: the empty pattern matches between
    any two characters. *)
Fixpoint insert_after_each (new s : string) : string :=
  match s with
  | EmptyString => EmptyString
  | String c s' => String c (new +:+ insert_after_each new s')
  end.

(** [s.replace(old, new)]: every non-overlapping occurrence, leftmost
    first. *)
Definition replace (old new s : string) : string :=
  match old with
  | EmptyString => new +:+ insert_after_each new s
  | String _ _ => replace_from old new 0 s
  end.

(** ** The glossary *)

(** A glossary row: (source, target, mode). *)
Definition rule : Type := string * string * string.

(** [re.sub(pattern, repl, text)]; [None] stands for [re.error]. *)
Definition regex_engine : Type := string -> string -> string -> option string.

Definition apply_pre_glossary (re_sub : regex_engine) (text : string)
    (glossary : list rule) : string :=
  foldl (fun text '(source, target, mode) =>
           if bool_decide (mode = "dt") || bool_decide (mode = "exact")
           then replace source target text
           else if bool_decide (mode = "regex")
           then match re_sub source target text with
                | Some text' => text'
                | None => text
                end
           else text)
        text glossary.

Definition apply_post_glossary (text : string) (glossary : list rule) : string :=
  foldl (fun text '(source, target, mode) =>
           if bool_decide (mode = "dt") || bool_decide (mode = "exact")
           then replace target target text
           else text)
        text glossary.

(** ** class CacheStore and the orchestrator *)

(** The dictionary of a [CacheStore]: [get] is the lookup [cache !! text],
    [set] the update [<[text := translated]> cache]. *)
Notation CacheStore := (gmap string string) (only parsing).

(** [x or None] on an optional string: the empty string is falsy. *)
Definition or_None (x : option string) : option string :=
  match x with
  | Some v => if bool_decide (v = "") then None else Some v
  | None => None
  end.

(** One iteration of the first loop of [translate_unique]. *)
Definition scan_step (cache : CacheStore)
    (st : gmap string (option string) * list string) (t : string)
  : gmap string (option string) * list string :=
  let '(mapping, unique) := st in
  match mapping !! t with
  | Some _ => (mapping, unique)
  | None =>
      let mapping' := <[t := or_None (cache !! t)]> mapping in
      match mapping' !! t with
      | Some None => (mapping', unique ++ [t])
      | _ => (mapping', unique)
      end
  end.

(** The first loop of [translate_unique]: [mapping] and [unique] after
    the texts have been read. *)
Definition scan_texts (cache : CacheStore) (texts : list string)
  : gmap string (option string) * list string :=
  foldl (scan_step cache) (∅, []) texts.

(** The second loop of [translate_unique], over [zip(unique,
    translated)]. *)
Definition store_translations (glossary : list rule)
    (pairs : list (string * string))
    (cache : CacheStore) (mapping : gmap string (option string))
  : CacheStore * gmap string (option string) :=
  foldl (fun '(cache, mapping) '(src, tgt) =>
           let tgt := apply_post_glossary tgt glossary in
           (<[src := tgt]> cache, <[src := Some tgt]> mapping))
        (cache, mapping) pairs.

(** [translate_unique]; the cache is a shared object, so the cache
    after the call is part of the result, also when the call raises. *)
Definition translate_unique (tr : YandexTranslator) (svc : service) (fuel : nat)
    (texts : list string) (cache : CacheStore) (glossary : list rule)
    (calls : nat)
  : outcome (gmap string (option string)) * CacheStore * nat :=
  let '(mapping, unique) := scan_texts cache texts in
  match unique with
  | [] => (Returns mapping, cache, calls)
  | _ :: _ =>
      match translate tr svc fuel unique calls with
      | (Returns translated, calls') =>
          let '(cache', mapping') :=
            store_translations glossary (zip unique translated) cache mapping in
          (Returns mapping', cache', calls')
      | (Raises e, calls') => (Raises e, cache, calls')
      | (OutOfFuel, calls') => (OutOfFuel, cache, calls')
      end
  end.

(** [replace_texts]: [mapping.get(t, t)] for every text. *)
Definition replace_texts (node_texts : list string)
    (mapping : gmap string (option string)) : list (option string) :=
  map (fun t => default (Some t) (mapping !! t)) node_texts.

(** What the first loop keeps true: [mapping] holds exactly the texts
    read so far, each with its cached translation if that is not
    empty, and [unique] lists, once each, the texts mapped to [None]. *)
Definition scan_inv (cache : gmap string string) (seen : list string)
    (st : gmap string (option string) * list string) : Prop :=
  (forall t, is_Some (st.1 !! t) <-> t ∈ seen) /\
  (forall t v, st.1 !! t = Some v -> v = or_None (cache !! t)) /\
  NoDup st.2 /\
  (forall t, t ∈ st.2 <-> st.1 !! t = Some None).


(** [sub in s]. *)
Fixpoint contains (sub s : string) : bool :=
  String.prefix sub s ||
  match s with
  | EmptyString => false
  | String _ s' => contains sub s'
  end.

(** Scan of [str.count(sub)] for a non-empty [sub]. *)
Fixpoint count_from (sub : string) (skip : nat) (s : string) : nat :=
  match s with
  | EmptyString => 0
  | String _ s' =>
      match skip with
      | S k => count_from sub k s'
      | O =>
          if String.prefix sub s
          then S (count_from sub (String.length sub - 1) s')
          else count_from sub 0 s'
      end
  end.

(** [s.count(sub)]: number of non-overlapping occurrences. *)
Definition count (sub s : string) : nat :=
  match sub with
  | EmptyString => S (String.length s)
  | String _ _ => count_from sub 0 s
  end.

(** [s * n]. *)
Fixpoint str_mul (s : string) (n : nat) : string :=
  match n with
  | O => EmptyString
  | S n' => s +:+ str_mul s n'
  end.

(** [sep.join(l)]. *)
Fixpoint join (sep : string) (l : list string) : string :=
  match l with
  | [] => EmptyString
  | [s] => s
  | s :: l' => s +:+ sep +:+ join sep l'
  end.

(** [c.isspace()] for the characters a Rocq [ascii] can stand for. *)
Definition isspace (c : ascii) : bool :=
  let n := nat_of_ascii c in
  ((9 <=? n) && (n <=? 13) || (28 <=? n) && (n <=? 32) || (n =? 133) || (n =? 160))%nat.

Fixpoint lstrip (s : string) : string :=
  match s with
  | EmptyString => EmptyString
  | String c s' => if isspace c then lstrip s' else s
  end.

Definition rstrip (s : string) : string := String.rev (lstrip (String.rev s)).

Definition strip (s : string) : string := rstrip (lstrip s).

(** [c.lower()], same range. *)
Definition lower_char (c : ascii) : ascii :=
  let n := nat_of_ascii c in
  if ((65 <=? n) && (n <=? 90) || (192 <=? n) && (n <=? 222) && negb (n =? 215))%nat
  then ascii_of_nat (n + 32)
  else c.

Fixpoint lower (s : string) : string :=
  match s with
  | EmptyString => EmptyString
  | String c s' => String (lower_char c) (lower s')
  end.

(** ** The document tree (bs4) *)

(** The classes of string nodes: [NavigableString] itself and its
    subclasses. *)
Inductive string_kind : Type :=
| PlainText
| Comment
| Doctype
| CData
| ProcessingInstruction
| Declaration.

#[global] Instance string_kind_eq_dec : EqDecision string_kind.
Proof. solve_decision. Defined.

(** An attribute value: a string, or a list of strings for the
    multi-valued attributes ([class], [rel], ...). *)
Inductive attr_value : Type :=
| AttrStr (s : string)
| AttrList (l : list string).

#[global] Instance attr_value_eq_dec : EqDecision attr_value.
Proof. solve_decision. Defined.

(** A node of the parse tree.  The [BeautifulSoup] object itself is a
    [Tag] named ["[document]"]. *)
#[local] Unset Elimination Schemes.
Inductive node : Type :=
| NavigableString (kind : string_kind) (text : string)
| Tag (name : string) (attrs : list (string * attr_value)) (contents : list node).
#[local] Set Elimination Schemes.

(** Induction on a tree: a tag has the property when all its children
    have it. *)
Fixpoint node_ind (P : node -> Prop)
    (Hstring : forall kind text, P (NavigableString kind text))
    (Htag : forall name attrs contents, Forall P contents -> P (Tag name attrs contents))
    (n : node) : P n :=
  match n with
  | NavigableString kind text => Hstring kind text
  | Tag name attrs contents =>
      Htag name attrs contents
           ((fix children (l : list node) : Forall P l :=
               match l with
               | [] => @List.Forall_nil node P
               | c :: l' => @List.Forall_cons node P c l' (node_ind P Hstring Htag c) (children l')
               end) contents)
  end.

Definition BeautifulSoup (contents : list node) : node := Tag "[document]" [] contents.

(** A reference to a node of a soup: the child indices from the root
    down to it. *)
Definition path : Type := list nat.

(** The node a reference denotes. *)
Fixpoint get (n : node) (p : path) : option node :=
  match p with
  | [] => Some n
  | i :: p' =>
      match n with
      | Tag _ _ contents =>
          match contents !! i with
          | Some c => get c p'
          | None => None
          end
      | NavigableString _ _ => None
      end
  end.

(** In-place change of the node a reference denotes. *)
Fixpoint alter_at (f : node -> node) (p : path) (n : node) : node :=
  match p with
  | [] => f n
  | i :: p' =>
      match n with
      | Tag name attrs contents => Tag name attrs (alter (alter_at f p') i contents)
      | NavigableString _ _ => n
      end
  end.

(** The children of a tag from index [i] on, each followed by its own
    descendants, in document order. *)
Fixpoint children_descendants (desc : node -> list (path * node)) (i : nat)
    (l : list node) : list (path * node) :=
  match l with
  | [] => []
  | c :: l' =>
      ([i], c) :: map (fun pd => (i :: pd.1, pd.2)) (desc c)
      ++ children_descendants desc (S i) l'
  end.

(** [n.descendants]: every node below [n], in document order, with
    its reference relative to [n]. *)
Fixpoint descendants (n : node) : list (path * node) :=
  match n with
  | NavigableString _ _ => []
  | Tag _ _ contents => children_descendants descendants 0 contents
  end.

(** Document order on references: a node comes before its
    descendants, and before its later siblings and theirs. *)
Fixpoint path_lt (p q : path) : Prop :=
  match p, q with
  | [], [] => False
  | [], _ :: _ => True
  | _ :: _, [] => False
  | i :: p', j :: q' => (i < j)%nat \/ (i = j /\ path_lt p' q')
  end.

(** *** Attributes *)

(** [tag.get(key)]. *)
Fixpoint get_attr (key : string) (attrs : list (string * attr_value)) : option attr_value :=
  match attrs with
  | [] => None
  | (k, v) :: attrs' => if bool_decide (k = key) then Some v else get_attr key attrs'
  end.

(** [tag[key] = value] on the attribute dictionary: an existing key
    keeps its place, a new one goes last. *)
Fixpoint set_attr (key : string) (value : attr_value) (attrs : list (string * attr_value))
  : list (string * attr_value) :=
  match attrs with
  | [] => [(key, value)]
  | (k, v) :: attrs' =>
      if bool_decide (k = key) then (k, value) :: attrs'
      else (k, v) :: set_attr key value attrs'
  end.

Definition tag_get (key : string) (n : node) : option attr_value :=
  match n with
  | Tag _ attrs _ => get_attr key attrs
  | NavigableString _ _ => None
  end.

Definition set_item (key : string) (value : attr_value) (n : node) : node :=
  match n with
  | Tag name attrs contents => Tag name (set_attr key value attrs) contents
  | NavigableString _ _ => n
  end.

(** [tag.append(child)]. *)
Definition append (child : node) (n : node) : node :=
  match n with
  | Tag name attrs contents => Tag name attrs (contents ++ [child])
  | NavigableString _ _ => n
  end.

(** [tag.insert(0, child)]. *)
Definition insert_first (child : node) (n : node) : node :=
  match n with
  | Tag name attrs contents => Tag name attrs (child :: contents)
  | NavigableString _ _ => n
  end.

(** Removal of the [i]-th child ([child.decompose()], seen from the
    parent). *)
Definition remove_child (i : nat) (n : node) : node :=
  match n with
  | Tag name attrs contents => Tag name attrs (delete i contents)
  | NavigableString _ _ => n
  end.

(** [node.decompose()] for the node at a reference. *)
Definition decompose (p : path) (soup : node) : node :=
  match p with
  | [] => soup
  | _ :: _ => alter_at (remove_child (List.last p 0%nat)) (removelast p) soup
  end.

(** *** Searching *)

(** A filter on the name and the attributes of a tag, as the
    arguments of [find] and [find_all] give it. *)
Definition tag_filter : Type := string -> list (string * attr_value) -> bool.

Definition matches (q : tag_filter) (n : node) : bool :=
  match n with
  | Tag name attrs _ => q name attrs
  | NavigableString _ _ => false
  end.

(** [n.find_all(...)]: the references of the matching tags below [n],
    in document order. *)
Definition find_all (q : tag_filter) (n : node) : list path :=
  (filter (fun pd => matches q pd.2) (descendants n)).*1.

(** [n.find(...)]: the first of them. *)
Definition find (q : tag_filter) (n : node) : option path := head (find_all q n).

(** How bs4 matches an attribute value against a test on strings: a
    missing attribute never matches; of a multi-valued attribute any
    value may match, or the values joined by spaces. *)
Definition attr_satisfies (f : string -> bool) (v : option attr_value) : bool :=
  match v with
  | None => false
  | Some (AttrStr s) => f s
  | Some (AttrList l) => existsb f l || f (join " " l)
  end.

Definition attr_is (target : string) (v : option attr_value) : bool :=
  attr_satisfies (fun s => bool_decide (s = target)) v.

(** [find(name)]. *)
Definition by_name (name : string) : tag_filter :=
  fun n _ => bool_decide (n = name).

(** [find_all(True)]. *)
Definition any_tag : tag_filter := fun _ _ => true.

(** [find('div', style=lambda x: x and 'position:fixed' in x and
    'bottom:12px' in x)]. *)
Definition switcher_filter : tag_filter :=
  fun n attrs =>
    bool_decide (n = "div") &&
    attr_satisfies (fun x => negb (bool_decide (x = "")) &&
                             contains "position:fixed" x && contains "bottom:12px" x)
                   (get_attr "style" attrs).

(** [find('link', rel='alternate', hreflang=lang)]. *)
Definition alternate_filter (lang : string) : tag_filter :=
  fun n attrs =>
    bool_decide (n = "link") &&
    attr_is "alternate" (get_attr "rel" attrs) &&
    attr_is lang (get_attr "hreflang" attrs).

(** [find_all('meta', attrs={attr: value})]. *)
Definition meta_filter (attr value : string) : tag_filter :=
  fun n attrs => bool_decide (n = "meta") && attr_is value (get_attr attr attrs).

(** ** The Document Extractor *)

Definition EXCLUDED_TAGS : list string := ["script"; "style"; "code"; "pre"; "noscript"].

(** Python iterates this set in an order of its own; the list fixes
    one. *)
Definition TRANSLATE_ATTRS : list string := ["title"; "alt"; "aria-label"; "placeholder"].

Definition META_DESC_SELECTORS : list (string * string) :=
  [("name", "description"); ("property", "og:description")].

(** [element.parent] for a descendant of the soup. *)
Definition parent (soup : node) (p : path) : option node :=
  match p with
  | [] => None
  | _ :: _ => get soup (removelast p)
  end.

(** [parent and parent.name and parent.name.lower() in EXCLUDED_TAGS]. *)
Definition parent_excluded (soup : node) (p : path) : bool :=
  match parent soup p with
  | Some (Tag name _ _) =>
      negb (bool_decide (name = "")) && bool_decide (lower name ∈ EXCLUDED_TAGS)
  | _ => false
  end.

(** One iteration of the loop of [extract_text_nodes]. *)
Definition extract_text_step (soup : node) (nodes : list path) (pd : path * node)
  : list path :=
  match pd.2 with
  | NavigableString kind text =>
      if bool_decide (kind = Comment) then nodes
      else if parent_excluded soup pd.1 then nodes
      else if bool_decide (strip text <> "") then nodes ++ [pd.1]
      else nodes
  | Tag _ _ _ => nodes
  end.

(** [extract_text_nodes]: the string nodes kept, as references. *)
Definition extract_text_nodes (soup : node) : list path :=
  foldl (extract_text_step soup) [] (descendants soup).

(** [str(n)] for a string node given by its reference. *)
Definition node_text (soup : node) (p : path) : string :=
  match get soup p with
  | Some (NavigableString _ text) => text
  | _ => ""
  end.

(** [extract_meta_descriptions]: (content, tag) pairs.  bs4 never
    makes [content] a multi-valued attribute; a list value, which
    [content.strip()] would not accept, is skipped. *)
Definition extract_meta_descriptions (soup : node) : list (string * path) :=
  flat_map (fun '(attr, value) =>
    flat_map (fun tag =>
      match get soup tag with
      | Some n =>
          match tag_get "content" n with
          | Some (AttrStr content) =>
              if negb (bool_decide (content = "")) && bool_decide (strip content <> "")
              then [(content, tag)] else []
          | _ => []
          end
      | None => []
      end) (find_all (meta_filter attr value) soup))
    META_DESC_SELECTORS.

(** [extract_attr_texts]: (value, tag, attribute) triples. *)
Definition extract_attr_texts (soup : node) : list (string * path * string) :=
  flat_map (fun tag =>
    match get soup tag with
    | Some (Tag name attrs _) =>
        if bool_decide (lower name ∈ EXCLUDED_TAGS) then []
        else
          flat_map (fun attr =>
            match get_attr attr attrs with
            | Some (AttrStr val) =>
                if bool_decide (strip val <> "") then [(val, tag, attr)] else []
            | _ => []
            end) TRANSLATE_ATTRS
    | _ => []
    end) (find_all any_tag soup).

(** [collect_texts_for_translation]. *)
Definition collect_texts_for_translation (re_sub : regex_engine) (soup : node)
    (glossary : list rule)
  : list path * list string * list (string * path * string) * list string
    * list (string * path) * list string :=
  let nodes := extract_text_nodes soup in
  let node_texts := map (fun n => apply_pre_glossary re_sub (node_text soup n) glossary) nodes in
  let attr_items := extract_attr_texts soup in
  let attr_texts := map (fun '(t, _tag, _a) => apply_pre_glossary re_sub t glossary) attr_items in
  let meta_items := extract_meta_descriptions soup in
  let meta_texts := map (fun '(t, _tag) => apply_pre_glossary re_sub t glossary) meta_items in
  (nodes, node_texts, attr_items, attr_texts, meta_items, meta_texts).

(** ** The Reinsertion Engine *)

(** [x if x is not None else '']. *)
Definition or_empty (new_text : option string) : string := default "" new_text.

(** [node.replace_with(safe_text)]: bs4 raises [ValueError] for a node
    that is not part of a tree any more, which is the case of a
    reference that was replaced before ([detached]); a reference that
    denotes no string node of the soup is not a list of extracted
    nodes at all and is refused too. *)
Definition replace_with (soup : node) (detached : list path) (p : path)
    (safe_text : string) : option (node * list path) :=
  if bool_decide (p ∈ detached) then None
  else match get soup p with
       | Some (NavigableString _ _) =>
           Some (alter_at (fun _ => NavigableString PlainText safe_text) p soup,
                 p :: detached)
       | _ => None
       end.

(** The first loop of [replace_in_html]. *)
Fixpoint replace_nodes (soup : node) (detached : list path)
    (pairs : list (path * option string)) : option node :=
  match pairs with
  | [] => Some soup
  | (n, new_text) :: pairs' =>
      match replace_with soup detached n (or_empty new_text) with
      | Some (soup', detached') => replace_nodes soup' detached' pairs'
      | None => None
      end
  end.

(** The second and third loops: [tag[attr] = new_text or '']. *)
Definition replace_attrs (soup : node)
    (pairs : list (string * path * string * option string)) : node :=
  foldl (fun soup '(_old, tag, attr, new_text) =>
           alter_at (set_item attr (AttrStr (or_empty new_text))) tag soup)
        soup pairs.

Definition replace_metas (soup : node)
    (pairs : list (string * path * option string)) : node :=
  foldl (fun soup '(_old, tag, new_text) =>
           alter_at (set_item "content" (AttrStr (or_empty new_text))) tag soup)
        soup pairs.

(** [replace_in_html]; [None] is the [ValueError] of [replace_with]. *)
Definition replace_in_html (soup : node)
    (nodes : list path) (node_texts : list (option string))
    (attr_items : list (string * path * string)) (attr_texts : list (option string))
    (meta_items : list (string * path)) (meta_texts : list (option string))
  : option node :=
  match replace_nodes soup [] (zip nodes node_texts) with
  | Some soup1 =>
      let soup2 := replace_attrs soup1 (zip attr_items attr_texts) in
      Some (replace_metas soup2 (zip meta_items meta_texts))
  | None => None
  end.

(** ** The Locale Annotator *)

(** [x or 'ru'] on what [html_tag.get('lang')] returns. *)
Definition or_ru (v : option attr_value) : attr_value :=
  match v with
  | None => AttrStr "ru"
  | Some (AttrStr s) => if bool_decide (s = "") then AttrStr "ru" else AttrStr s
  | Some (AttrList l) => if bool_decide (l = []) then AttrStr "ru" else AttrList l
  end.

(** The href both injected elements use. *)
Definition alternate_href (rel_path : string) (is_uz_page : bool) : string :=
  let depth := count "/" rel_path in
  if is_uz_page then
    let up_levels := str_mul "../" (depth + 1) in
    up_levels +:+ rel_path
  else
    let up_levels := if bool_decide (0 < depth)%nat then str_mul "../" depth else "" in
    up_levels +:+ "uz/" +:+ rel_path.

(** [soup.new_tag('link', rel='alternate', hreflang=..., href=...)].
    bs4 keeps [rel] as the list of its one value; the filters and the
    serialised page see the same either way. *)
Definition alternate_link (rel_path : string) (is_uz_page : bool) : node :=
  Tag "link"
      [("rel", AttrStr "alternate");
       ("hreflang", AttrStr (if is_uz_page then "ru" else "uz"));
       ("href", AttrStr (alternate_href rel_path is_uz_page))]
      [].

Definition is_Doctype (n : node) : bool :=
  match n with
  | NavigableString Doctype _ => true
  | _ => false
  end.

(** The [if not html_tag] branch: every top-level node but the doctype
    moves into a new body, inside a new html appended to the soup.
    The result: the soup and the reference of the new html. *)
Definition create_html (soup : node) : node * path :=
  match soup with
  | Tag name attrs contents =>
      let kept := List.filter is_Doctype contents in
      let moved := List.filter (fun c => negb (is_Doctype c)) contents in
      let body := Tag "body" [] moved in
      let html_tag := Tag "html" [] [body] in
      (Tag name attrs (kept ++ [html_tag]), [length kept])
  | NavigableString _ _ => (soup, [])
  end.

Definition set_lang_and_hreflang (soup : node) (rel_path : string) (is_uz_page : bool)
  : node :=
  let '(soup, html_tag) :=
    match find (by_name "html") soup with
    | Some html_tag => (soup, html_tag)
    | None => create_html soup
    end in
  let lang :=
    if is_uz_page then AttrStr "uz"
    else or_ru (match get soup html_tag with
                | Some t => tag_get "lang" t
                | None => None
                end) in
  let soup := alter_at (set_item "lang" lang) html_tag soup in
  let '(soup, head) :=
    match find (by_name "head") soup with
    | Some head => (soup, head)
    | None => (alter_at (insert_first (Tag "head" [] [])) html_tag soup, html_tag ++ [0%nat])
    end in
  alter_at (append (alternate_link rel_path is_uz_page)) head soup.

Definition switcher_style : string :=
  "position:fixed;bottom:12px;right:12px;z-index:9999;font-family:inherit;font-size:13px;background:#fff;border:1px solid #ddd;border-radius:6px;padding:6px 10px;box-shadow:0 2px 8px rgba(0,0,0,0.08)".

(** The [div] that [inject_language_switcher] builds.  The label of
    the link to the Russian page is written as the bytes of its UTF-8
    encoding. *)
Definition language_switcher (rel_path : string) (is_uz_page : bool) : node :=
  let link :=
    Tag "a"
        [("href", AttrStr (alternate_href rel_path is_uz_page));
         ("hreflang", AttrStr (if is_uz_page then "ru" else "uz"))]
        [NavigableString PlainText (if is_uz_page then "Русский" else "O'zbekcha")] in
  Tag "div" [("style", AttrStr switcher_style)] [link].

Definition inject_language_switcher (soup : node) (rel_path : string) (is_uz_page : bool)
  : node :=
  match find (by_name "body") soup with
  | None => soup
  | Some body => alter_at (append (language_switcher rel_path is_uz_page)) body soup
  end.

(** [tag.find(...)] for a tag given by its reference: the reference
    found is made absolute. *)
Definition find_below (q : tag_filter) (soup : node) (tag : path) : option path :=
  match get soup tag with
  | Some t => (fun p => tag ++ p) <$> find q t
  | None => None
  end.

(** [process_russian_html_file] between parsing and serialising. *)
Definition process_russian_html_file (soup : node) (rel_path : string) : node :=
  let soup :=
    match find (by_name "body") soup with
    | Some body =>
        match find_below switcher_filter soup body with
        | Some existing_switcher => decompose existing_switcher soup
        | None => soup
        end
    | None => soup
    end in
  let soup :=
    match find (by_name "head") soup with
    | Some head =>
        match find_below (alternate_filter "uz") soup head with
        | Some existing_hreflang => decompose existing_hreflang soup
        | None => soup
        end
    | None => soup
    end in
  let soup := set_lang_and_hreflang soup rel_path false in
  inject_language_switcher soup rel_path false.

(** What a call leaves behind besides its result: the shared cache and
    the number of requests made. *)
Record world : Type := {
  cache_of : CacheStore;
  calls_of : nat
}.

(** [process_html_file] between parsing and serialising. *)
Definition process_html_file (re_sub : regex_engine) (tr : YandexTranslator)
    (svc : service) (fuel : nat) (soup : node) (rel_path : string)
    (glossary : list rule) (w : world) : outcome node * world :=
  let '(nodes, node_texts, attr_items, attr_texts, meta_items, meta_texts) :=
    collect_texts_for_translation re_sub soup glossary in
  let all_texts := node_texts ++ attr_texts ++ meta_texts in
  match translate_unique tr svc fuel all_texts (cache_of w) glossary (calls_of w) with
  | (Returns mapping, cache', calls') =>
      let new_node_texts := replace_texts node_texts mapping in
      let new_attr_texts := replace_texts attr_texts mapping in
      let new_meta_texts := replace_texts meta_texts mapping in
      let w' := {| cache_of := cache'; calls_of := calls' |} in
      match replace_in_html soup nodes new_node_texts attr_items new_attr_texts
                            meta_items new_meta_texts with
      | Some soup =>
          let soup := set_lang_and_hreflang soup rel_path true in
          let soup := inject_language_switcher soup rel_path true in
          (Returns soup, w')
      | None => (Raises ValueError, w')
      end
  | (Raises e, cache', calls') => (Raises e, {| cache_of := cache'; calls_of := calls' |})
  | (OutOfFuel, cache', calls') => (OutOfFuel, {| cache_of := cache'; calls_of := calls' |})
  end.
(** ** Loading the environment: [load_env] *)

(** [line.split('=', 1)] for a separator of one character: the parts
    before and after its first occurrence; [None] when the line does
    not hold it, the case [sep in line] is false. *)
Fixpoint split_first (sep : ascii) (s : string) : option (string * string) :=
  match s with
  | EmptyString => None
  | String c s' =>
      if Ascii.eqb c sep then Some (EmptyString, s')
      else match split_first sep s' with
           | Some (k, v) => Some (String c k, v)
           | None => None
           end
  end.

(** What [os.environ[key] = value] takes is the platform's business
    ([putenv] refuses an empty name, a NUL character, ...): the test
    is a parameter of the model. *)
Definition putenv_check : Type := string -> string -> bool.

(** The loop over the lines of one file.  [os.environ] is a
    dictionary whose names are taken as they are, as on POSIX; the
    result is the environment left and whether the
    loop came to its end ([false]: an assignment raised, the lines
    after it were not read). *)
Fixpoint load_env_lines (accepts : putenv_check) (lines : list string)
    (environ : gmap string string) : gmap string string * bool :=
  match lines with
  | [] => (environ, true)
  | line :: lines' =>
      if bool_decide (line = "") || String.prefix "#" (strip line)
      then load_env_lines accepts lines' environ
      else
        match split_first "=" line with
        | Some (k, v) =>
            (* os.environ.setdefault(k.strip(), v.strip()) *)
            match environ !! strip k with
            | Some _ => load_env_lines accepts lines' environ
            | None =>
                if accepts (strip k) (strip v)
                then load_env_lines accepts lines' (<[strip k := strip v]> environ)
                else (environ, false)
            end
        | None => load_env_lines accepts lines' environ
        end
  end.

(** [load_env]: a candidate is [None] when the path is not a file,
    else the lines of the file as decoded and split. *)
Fixpoint load_env (accepts : putenv_check) (env_path_candidates : list (option (list string)))
    (environ : gmap string string) : gmap string string * bool :=
  match env_path_candidates with
  | [] => (environ, true)
  | None :: candidates => load_env accepts candidates environ
  | Some lines :: _ => load_env_lines accepts lines environ   (* break *)
  end.

(** ** The doctype line and the serialised page *)

(** [s[n:]]. *)
Fixpoint skip (n : nat) (s : string) : string :=
  match n, s with
  | O, _ => s
  | S _, EmptyString => EmptyString
  | S n', String _ s' => skip n' s'
  end.

(** Scan of [s.replace(old, new, 1)] for a non-empty [old]: the first
    occurrence only. *)
Fixpoint replace_first_from (old new s : string) : string :=
  match s with
  | EmptyString => EmptyString
  | String c s' =>
      if String.prefix old s then new +:+ skip (String.length old) s
      else String c (replace_first_from old new s')
  end.

Definition replace_first (old new s : string) : string :=
  match old with
  | EmptyString => new +:+ s
  | String _ _ => replace_first_from old new s
  end.

(** The loop [for line in html.splitlines()[:3]] of
    [process_html_file] and [process_russian_html_file], over the
    lines left to read: the first line that starts a doctype,
    stripped. *)
Fixpoint first_doctype (lines : list string) : option string :=
  match lines with
  | [] => None
  | line :: lines' =>
      if String.prefix "<!doctype" (lower (lstrip line)) then Some (strip line)
      else first_doctype lines'
  end.

(** [orig_doctype]; [lines] is what [html.splitlines()] yields. *)
Definition orig_doctype (lines : list string) : option string :=
  first_doctype (take 3 lines).

Definition newline : string := String (ascii_of_nat 10) EmptyString.

(** What both functions do to [str(soup)] before they write it: the
    leading [html] that bs4 may leave before the html element is
    removed, and the doctype line of the source is put back when the
    page does not start with one. *)
Definition fix_out_html (orig_doctype : option string) (out_html : string) : string :=
  let stripped := lstrip out_html in
  let out_html :=
    if String.prefix "html<html" stripped then replace_first "html<" "<" out_html
    else out_html in
  match orig_doctype with
  | Some d =>
      if negb (bool_decide (d = ""))
         && negb (String.prefix "<!doctype" (lower (lstrip out_html)))
      then d +:+ newline +:+ out_html
      else out_html
  | None => out_html
  end.


(** ** Notions used in the statements *)

(** Name and attributes of a tag: all a [tag_filter] looks at. *)
Definition label (n : node) : option (string * list (string * attr_value)) :=
  match n with
  | Tag name attrs _ => Some (name, attrs)
  | NavigableString _ _ => None
  end.

(** Number of tags below [n] that match a filter. *)
Definition count_matches (q : tag_filter) (n : node) : nat := length (find_all q n).

(** The same, [n] itself included. *)
Definition count_incl (q : tag_filter) (n : node) : nat :=
  ((if matches q n then 1 else 0) + count_matches q n)%nat.

(** What the loop of [extract_text_nodes] keeps. *)
Definition kept_text (soup : node) (pd : path * node) : bool :=
  match pd.2 with
  | NavigableString kind text =>
      negb (bool_decide (kind = Comment)) && negb (parent_excluded soup pd.1)
      && bool_decide (strip text <> "")
  | Tag _ _ _ => false
  end.

(** Some proper ancestor of the node at [p], at any depth, is an
    excluded tag. *)
Definition under_excluded_tag (soup : node) (p : path) : Prop :=
  exists (q : path) (name : string) attrs contents,
    q `prefix_of` p /\ q <> p /\
    get soup q = Some (Tag name attrs contents) /\ lower name ∈ EXCLUDED_TAGS.

(** The value of an attribute of the tag at a reference. *)
Definition attr_at (soup : node) (tag : path) (key : string) : option attr_value :=
  get soup tag ≫= tag_get key.

(** The reference denotes a tag of the soup. *)
Definition tag_at (soup : node) (tag : path) : Prop :=
  exists name attrs contents, get soup tag = Some (Tag name attrs contents).

(** The reference denotes a string node of the soup. *)
Definition string_at (soup : node) (p : path) : Prop :=
  exists kind text, get soup p = Some (NavigableString kind text).

(** A sequence of assignments [tag[key] = new_text or '']. *)
Definition apply_writes (soup : node) (writes : list (path * string * option string))
  : node :=
  foldl (fun soup '(tag, key, new_text) =>
           alter_at (set_item key (AttrStr (or_empty new_text))) tag soup)
        soup writes.

(** The assignments the two attribute loops of [replace_in_html]
    make, in the order they make them. *)
Definition attr_writes (pairs : list (string * path * string * option string))
  : list (path * string * option string) :=
  map (fun '(_old, tag, attr, new_text) => (tag, attr, new_text)) pairs.

Definition meta_writes (pairs : list (string * path * option string))
  : list (path * string * option string) :=
  map (fun '(_old, tag, new_text) => (tag, "content", new_text)) pairs.

(** The matching tags among the children of a tag, from index [i] on,
    and below them. *)
Definition find_all_in (q : tag_filter) (i : nat) (l : list node) : list path :=
  (filter (fun pd => matches q pd.2) (children_descendants descendants i l)).*1.

(** A change of a node that keeps the verdict of a filter on it. *)
Definition keeps_match (q : tag_filter) (f : node -> node) : Prop :=
  forall m, matches q (f m) = matches q m.

(** Number of path separators of a relative path. *)
Definition separators (rel_path : string) : nat :=
  length (filter (fun c => c = "/"%char) (String.list_ascii_of_string rel_path)).

(** The first step of [set_lang_and_hreflang]: the html element,
    found or created. *)
Definition html_stage (soup : node) : node * path :=
  match find (by_name "html") soup with
  | Some html_tag => (soup, html_tag)
  | None => create_html soup
  end.

(** [set_lang_and_hreflang] up to the point where the link is
    appended: the soup with its html element, language and head
    element in place, and the reference of the head. *)
Definition ensure_head (soup : node) (is_uz_page : bool) : node * path :=
  let '(soup, html_tag) := html_stage soup in
  let lang :=
    if is_uz_page then AttrStr "uz"
    else or_ru (match get soup html_tag with
                | Some t => tag_get "lang" t
                | None => None
                end) in
  let soup := alter_at (set_item "lang" lang) html_tag soup in
  match find (by_name "head") soup with
  | Some head => (soup, head)
  | None => (alter_at (insert_first (Tag "head" [] [])) html_tag soup, html_tag ++ [0%nat])
  end.

(** A filter that looks at no attribute [set_lang_and_hreflang]
    assigns and matches none of the elements it creates. *)
Definition unaffected_by_structure (q : tag_filter) : Prop :=
  (forall value, keeps_match q (set_item "lang" value)) /\
  q "html" [] = false /\ q "body" [] = false /\ q "head" [] = false.

(** The removal steps of [process_russian_html_file]: inside the
    first [container] element, the first element matching [q] is
    decomposed, if there is one. *)
Definition remove_existing (q container : tag_filter) (soup : node) : node :=
  match find container soup with
  | Some c =>
      match find_below q soup c with
      | Some existing => decompose existing soup
      | None => soup
      end
  | None => soup
  end.

(** ** Sample documents *)

(** [<html><head></head><body><p>Salom</p></body></html>]. *)
Definition sample_page : node :=
  BeautifulSoup
    [Tag "html" []
       [Tag "head" [] [];
        Tag "body" [] [Tag "p" [] [NavigableString PlainText "Salom"]]]].

(** A frameset page: an html element without a body. *)
Definition frameset_page : node :=
  BeautifulSoup
    [Tag "html" []
       [Tag "head" [] [];
        Tag "frameset" [] [Tag "frame" [("src", AttrStr "a.html")] []]]].

(** [<p title="tip">one<b>two</b></p>]. *)
Definition two_texts : node :=
  BeautifulSoup
    [Tag "p" [("title", AttrStr "tip")]
       [NavigableString PlainText "one";
        Tag "b" [] [NavigableString PlainText "two"]]].

(** A regular-expression engine that rejects every pattern. *)
Definition no_regex : regex_engine := fun _ _ _ => None.

(** The empty cache at the start of a run. *)
Definition fresh_world : world := {| cache_of := ∅; calls_of := 0 |}.

(** The document part of what [process_html_file] returns. *)
Definition translated_page (soup : node) (rel_path : string) : outcome node :=
  (process_html_file no_regex default_translator (reliable (fun s => s)) 100
                     soup rel_path [] fresh_world).1.

(** The texts of all units of a document as extracted, before the
    glossary: text runs, then attribute values, then meta contents. *)
Definition raw_texts (soup : node) : list string :=
  map (node_text soup) (extract_text_nodes soup)
  ++ map (fun '(t, _tag, _a) => t) (extract_attr_texts soup)
  ++ map (fun '(t, _tag) => t) (extract_meta_descriptions soup).

(** [all_texts] of [process_html_file]. *)
Definition all_texts (re_sub : regex_engine) (soup : node) (glossary : list rule)
  : list string :=
  let '(_, node_texts, _, attr_texts, _, meta_texts) :=
    collect_texts_for_translation re_sub soup glossary in
  node_texts ++ attr_texts ++ meta_texts.
(** The translation [translate_unique] gives a text against a cache:
    the cached one unless it is missing or empty, else what the
    service answers, after the post-glossary. *)
Definition translation_of (f : string -> string) (cache : CacheStore)
    (glossary : list rule) (t : string) : string :=
  match or_None (cache !! t) with
  | Some v => v
  | None => apply_post_glossary (f t) glossary
  end.

(** The inner loop of [extract_meta_descriptions], for one selector. *)
Definition meta_descriptions_by (soup : node) (attr value : string)
  : list (string * path) :=
  flat_map (fun tag =>
    match get soup tag with
    | Some n =>
        match tag_get "content" n with
        | Some (AttrStr content) =>
            if negb (bool_decide (content = "")) && bool_decide (strip content <> "")
            then [(content, tag)] else []
        | _ => []
        end
    | None => []
    end) (find_all (meta_filter attr value) soup).

(** The attribute a replacement of [replace_in_html] is written to. *)
Definition attr_slot (item : string * path * string) : path * string :=
  (item.1.2, item.2).

(** What a line of an environment file defines: nothing for an empty
    line, a comment, or a line without ['=']; else the name and the
    value, both stripped. *)
Definition env_definition (line : string) : option (string * string) :=
  if bool_decide (line = "") || String.prefix "#" (strip line) then None
  else match split_first "=" line with
       | Some (k, v) => Some (strip k, strip v)
       | None => None
       end.


(* ===================================================================== *)
(** * Properties *)
(* ===================================================================== *)

(** ** The Translation Client: batching *)

Section Batching.
Variable tr : YandexTranslator.

Lemma total_chars_app (b1 b2 : list string) :
  total_chars (b1 ++ b2) = total_chars b1 + total_chars b2.
Proof.
  induction b1 as [|s b1 IH]; simpl; [lia|]. rewrite IH. lia.
Qed.

Lemma total_chars_nonneg (b : list string) : 0 <= total_chars b.
Proof. induction b; simpl; unfold len in *; lia. Qed.

(** The inner loop only moves a prefix of the unread texts to the end
    of the batch. *)
Lemma build_batch_app (rest batch b r : list string) (chars : Z) :
  build_batch tr rest batch chars = (b, r) -> batch ++ rest = b ++ r.
Proof.
  revert batch chars. induction rest as [|t rest IH]; intros batch chars; simpl.
  - intros [= <- <-]. done.
  - destruct (_ <? batch_size tr); [|by intros [= <- <-]].
    destruct (_ && _); [by intros [= <- <-]|].
    intros H. apply IH in H. rewrite <- H, <- app_assoc. done.
Qed.

(** The batch only grows. *)
Lemma build_batch_length (rest batch b r : list string) (chars : Z) :
  build_batch tr rest batch chars = (b, r) -> (length batch <= length b)%nat.
Proof.
  revert batch chars. induction rest as [|t rest IH]; intros batch chars; simpl.
  - intros [= <- <-]. done.
  - destruct (_ <? batch_size tr); [|by intros [= <- <-]].
    destruct (_ && _); [by intros [= <- <-]|].
    intros H. apply IH in H. rewrite length_app in H. simpl in H. lia.
Qed.

Lemma build_batch_inv (rest batch b r : list string) (chars : Z) :
  batch_inv tr batch chars ->
  build_batch tr rest batch chars = (b, r) ->
  batch_inv tr b (total_chars b).
Proof.
  revert batch chars. induction rest as [|t rest IH]; intros batch chars Hinv; simpl.
  - intros [= <- <-]. by destruct Hinv as (-> & ?).
  - destruct (Z.ltb_spec (Z.of_nat (length batch)) (batch_size tr)) as [Hlt|Hge];
      [|intros [= <- <-]; by destruct Hinv as (-> & ?)].
    destruct (_ && _) eqn:Hbrk;
      [intros [= <- <-]; by destruct Hinv as (-> & ?)|].
    apply IH. destruct Hinv as (-> & Hinv).
    split; [rewrite total_chars_app; simpl; lia|].
    intros _. split; [rewrite length_app; simpl; lia|].
    rewrite total_chars_app. simpl. intros Hover.
    apply andb_false_iff in Hbrk as [Hbrk|Hbrk].
    + apply Z.ltb_ge in Hbrk. lia.
    + apply negb_false_iff, bool_decide_eq_true in Hbrk. by subst batch.
Qed.

(** First iteration of the inner loop on an empty batch. *)
Lemma build_batch_first (t : string) (rest : list string) :
  0 < batch_size tr ->
  build_batch tr (t :: rest) [] 0 = build_batch tr rest [t] (0 + len t).
Proof.
  intros Hpos. cbn [build_batch length].
  destruct (Z.ltb_spec (Z.of_nat 0) (batch_size tr)) as [_|?]; [|lia].
  by rewrite andb_false_r.
Qed.

(** With a positive item limit a batch started on a non-empty suffix
    takes at least its first text. *)
Lemma build_batch_progress (t : string) (rest b r : list string) :
  0 < batch_size tr ->
  build_batch tr (t :: rest) [] 0 = (b, r) ->
  b <> [] /\ (length r <= length rest)%nat.
Proof.
  intros Hpos H. rewrite build_batch_first in H by done.
  pose proof (build_batch_length _ _ _ _ _ H) as Hlen.
  pose proof (build_batch_app _ _ _ _ _ H) as Happ.
  simpl in Hlen. split; [intros ->; simpl in Hlen; lia|].
  apply (f_equal length) in Happ. simpl in Happ. rewrite length_app in Happ. lia.
Qed.

Lemma build_batch_good (t : string) (rest b r : list string) :
  0 < batch_size tr ->
  build_batch tr (t :: rest) [] 0 = (b, r) ->
  good_batch tr b.
Proof.
  intros Hpos H.
  destruct (build_batch_progress _ _ _ _ Hpos H) as [Hne _].
  assert (Hinv : batch_inv tr [] 0) by (split; [done|by intros []]).
  destruct (build_batch_inv _ _ _ _ _ Hinv H) as (_ & Hgood).
  destruct (Hgood Hne). by split_and!.
Qed.

(** The partition is total for a positive item limit: one unit of fuel
    per text is enough. *)
Lemma batches_total (fuel : nat) (texts : list string) :
  0 < batch_size tr ->
  (length texts <= fuel)%nat ->
  exists bs, batches tr fuel texts = Some bs /\
             concat bs = texts /\ Forall (good_batch tr) bs.
Proof.
  intros Hpos. revert texts.
  induction fuel as [|fuel IH]; intros [|t texts] Hlen; simpl in Hlen;
    try lia; try (exists []; by simpl).
  cbn [batches].
  destruct (build_batch tr (t :: texts) [] 0) as [b r] eqn:Hb.
  destruct (build_batch_progress _ _ _ _ Hpos Hb) as [Hne Hr].
  destruct (IH r ltac:(lia)) as (bs & -> & Hcat & Hall).
  exists (b :: bs). split_and!; [done| |].
  - simpl. rewrite Hcat. symmetry. by apply (build_batch_app _ _ _ _ _ Hb).
  - constructor; [|done]. by eapply build_batch_good.
Qed.

(** [translate] is the partition followed by one retry loop per
    batch. *)
Lemma translate_loop_send_all (svc : service) (fuel : nat) (texts : list string)
    (bs : list (list string)) (results : list string) (calls : nat) :
  batches tr fuel texts = Some bs ->
  translate_loop tr svc fuel texts results calls = send_all svc bs results calls.
Proof.
  revert texts bs results calls.
  induction fuel as [|fuel IH]; intros [|t texts] bs results calls;
    cbn [batches translate_loop]; try done.
  - by intros [= <-].
  - by intros [= <-].
  - destruct (build_batch tr (t :: texts) [] 0) as [b r] eqn:Hb.
    destruct (batches tr fuel r) as [bs'|] eqn:Hbs; [|done].
    intros [= <-]. cbn [send_all].
    destruct (call_with_retries svc b (range 6) calls) as [[tl| |e] calls']; auto.
Qed.
End Batching.

(** ** The Translation Client: retries *)

Section Retries.
Variable svc : service.

(** [translate_batch] raises nothing but the two exceptions of the
    retry loop. *)
Lemma translate_batch_exn (n : nat) (batch : list string) (e : exn) :
  translate_batch svc n batch = inl e -> e = RateLimitError \/ e = RequestException.
Proof.
  unfold translate_batch. destruct (svc n batch) as [c l|]; [|intros [= <-]; by right].
  destruct (c =? 429); [intros [= <-]; by left|].
  destruct (_ && _); [intros [= <-]; by right|done].
Qed.

(** A batch that is answered at the [j]-th attempt, after [j] failed
    ones, is not given up as long as attempt number 5 is not a failed
    one. *)
Lemma call_with_retries_answered (batch l : list string) (j a m calls : nat) :
  (j < m)%nat -> (a + j <= 5)%nat ->
  (forall i, (i < j)%nat -> exists e, translate_batch svc (calls + i) batch = inl e) ->
  translate_batch svc (calls + j) batch = inr l ->
  call_with_retries svc batch (seq a m) calls = (Done l, S (calls + j)).
Proof.
  revert a m calls. induction j as [|j IH]; intros a m calls Hm Ha Hfail Hok.
  - destruct m as [|m]; [lia|]. cbn [seq call_with_retries].
    rewrite Nat.add_0_r in Hok. by rewrite Hok, Nat.add_0_r.
  - destruct m as [|m]; [lia|]. cbn [seq call_with_retries].
    destruct (Hfail 0%nat ltac:(lia)) as [e He]. rewrite Nat.add_0_r in He. rewrite He.
    assert (call_with_retries svc batch (seq (S a) m) (S calls) = (Done l, S (calls + S j))) as Hrec.
    { replace (calls + S j)%nat with (S calls + j)%nat by lia.
      apply IH; [lia|lia| |].
      - intros i Hi. destruct (Hfail (S i) ltac:(lia)) as [e' He'].
        exists e'. by replace (S calls + i)%nat with (calls + S i)%nat by lia.
      - by replace (S calls + j)%nat with (calls + S j)%nat by lia. }
    destruct (translate_batch_exn _ _ _ He) as [-> | ->]; [done|].
    rewrite bool_decide_eq_false_2 by lia. done.
Qed.

(** Rate-limit answers alone never raise: when the range is used up
    the loop just ends. *)
Lemma call_with_retries_rate_limited (batch : list string) (attempts : list nat) (calls : nat) :
  (forall n, translate_batch svc n batch = inl RateLimitError) ->
  call_with_retries svc batch attempts calls = (Skipped, (calls + length attempts)%nat).
Proof.
  intros Hrl. revert calls. induction attempts as [|a attempts IH]; intros calls; simpl.
  - by rewrite Nat.add_0_r.
  - rewrite Hrl, IH. f_equal. lia.
Qed.

(** Transport failures raise at attempt number 5. *)
Lemma call_with_retries_unreachable (batch : list string) (calls : nat) :
  (forall n, translate_batch svc n batch = inl RequestException) ->
  call_with_retries svc batch (range 6) calls = (Failed RequestException, (calls + 6)%nat).
Proof.
  intros Hre. unfold range. cbn [seq call_with_retries]. rewrite !Hre.
  repeat (rewrite bool_decide_eq_false_2 by lia).
  rewrite bool_decide_eq_true_2 by lia. do 2 f_equal. lia.
Qed.

Lemma send_all_answered (f : string -> string) (bs : list (list string))
    (results : list string) (calls : nat) :
  answers_within f svc 6 ->
  exists calls', send_all svc bs results calls = (Returns (results ++ map f (concat bs)), calls').
Proof.
  intros Hsvc. revert results calls. induction bs as [|b bs IH]; intros results calls.
  - exists calls. simpl. by rewrite app_nil_r.
  - destruct (Hsvc calls b) as (j & Hj & Hfail & Hok).
    cbn [send_all]. unfold range.
    rewrite (call_with_retries_answered b (map f b) j 0 6 calls) by (done || lia).
    destruct (IH (results ++ map f b) (S (calls + j))) as [calls' ->].
    exists calls'. simpl. by rewrite map_app, app_assoc.
Qed.

Lemma send_all_rate_limited (bs : list (list string)) (results : list string) (calls : nat) :
  (forall n b, translate_batch svc n b = inl RateLimitError) ->
  exists calls', send_all svc bs results calls = (Returns results, calls').
Proof.
  intros Hrl. revert calls. induction bs as [|b bs IH]; intros calls.
  - by exists calls.
  - cbn [send_all]. rewrite call_with_retries_rate_limited by done. apply IH.
Qed.
End Retries.

Lemma reliable_answers (f : string -> string) : answers_within f (reliable f) 6.
Proof.
  intros n batch. exists 0%nat. split_and!; [lia|intros; lia|done].
Qed.

(** With an item limit that is not positive the inner loop adds
    nothing, the outer loop does not advance, and [translate] never
    returns on a non-empty input. *)
Lemma build_batch_no_room (tr : YandexTranslator) (rest : list string) :
  batch_size tr <= 0 -> build_batch tr rest [] 0 = ([], rest).
Proof.
  intros Hle. destruct rest as [|t rest]; [done|]. cbn [build_batch length].
  destruct (Z.ltb_spec (Z.of_nat 0) (batch_size tr)); [lia|done].
Qed.

Lemma translate_no_room_never_returns (tr : YandexTranslator) (svc : service)
    (fuel : nat) (t : string) (texts results : list string) (calls : nat) :
  batch_size tr <= 0 ->
  forall r calls', translate_loop tr svc fuel (t :: texts) results calls <> (Returns r, calls').
Proof.
  intros Hle. revert results calls. induction fuel as [|fuel IH]; intros results calls r calls'.
  - done.
  - cbn [translate_loop]. rewrite build_batch_no_room by done.
    destruct (call_with_retries svc [] (range 6) calls) as [[l| |e] c]; [apply IH|apply IH|done].
Qed.

(** C5: for a positive item-count limit, the batches [translate]
    builds from any input are all non-empty, none holds more texts
    than the item-count limit, a batch whose character count is above
    the character limit is a single text, and the batches concatenated
    in order are the input; these batches are exactly what [translate]
    sends, whatever the service answers. *)
Theorem translate_partition (tr : YandexTranslator) (texts : list string) :
  0 < batch_size tr ->
  exists bs : list (list string),
    batches tr (length texts) texts = Some bs /\
    (forall svc calls, translate tr svc (length texts) texts calls = send_all svc bs [] calls) /\
    concat bs = texts /\
    forall b, In b bs ->
      b <> [] /\
      Z.of_nat (length b) <= batch_size tr /\
      (max_chars tr < total_chars b -> exists t, b = [t]).
Proof.
  intros Hpos.
  destruct (batches_total tr (length texts) texts Hpos (le_n _)) as (bs & Hbs & Hcat & Hall).
  exists bs. split_and!; [done| |done|].
  - intros svc calls. by apply translate_loop_send_all.
  - intros b Hb. rewrite Forall_forall in Hall.
    destruct (Hall b ltac:(by apply list_elem_of_In)) as (Hne & Hcnt & Hch).
    split_and!; [done|done|].
    intros Hover. specialize (Hch Hover).
    destruct b as [|t [|? ?]]; simpl in Hch; try lia. by exists t.
Qed.

Lemma translate_partition_witness :
  exists bs : list (list string),
    batches default_translator 3 ["ab"; "cd"; "ef"] = Some bs /\
    (forall svc calls,
       translate default_translator svc 3 ["ab"; "cd"; "ef"] calls = send_all svc bs [] calls) /\
    concat bs = ["ab"; "cd"; "ef"] /\
    forall b, In b bs ->
      b <> [] /\
      Z.of_nat (length b) <= 80 /\
      (9000 < total_chars b -> exists t, b = [t]).
Proof.
  apply (translate_partition default_translator ["ab"; "cd"; "ef"]). simpl. lia.
Defined.

(** C1: for a positive item-count limit and a service that answers
    every batch, within the six attempts, with the element-wise
    translation of the texts posted, [translate] returns, for any
    input (duplicates and oversized texts included), a list as long as
    the input whose i-th element is the translation of the i-th
    input. *)
Theorem translate_maps_each_text (tr : YandexTranslator) (svc : service)
    (f : string -> string) (texts : list string) (fuel calls : nat) :
  0 < batch_size tr ->
  answers_within f svc 6 ->
  (length texts <= fuel)%nat ->
  exists (result : list string) (calls' : nat),
    translate tr svc fuel texts calls = (Returns result, calls') /\
    length result = length texts /\
    forall (i : nat) (t : string), texts !! i = Some t -> result !! i = Some (f t).
Proof.
  intros Hpos Hsvc Hfuel.
  destruct (batches_total tr fuel texts Hpos Hfuel) as (bs & Hbs & Hcat & _).
  destruct (send_all_answered svc f bs [] calls Hsvc) as [calls' Hsend].
  exists (map f texts), calls'. split_and!.
  - unfold translate. rewrite (translate_loop_send_all tr svc fuel texts bs) by done.
    by rewrite Hsend, Hcat.
  - by rewrite length_map.
  - intros i t Hi. by rewrite list_lookup_fmap, Hi.
Qed.

Lemma translate_maps_each_text_witness :
  exists (result : list string) (calls' : nat),
    translate default_translator (flaky (fun s => s +:+ "!")) 4 ["a"; "b"; "a"] 0
      = (Returns result, calls') /\
    length result = length ["a"; "b"; "a"] /\
    forall (i : nat) (t : string),
      ["a"; "b"; "a"] !! i = Some t -> result !! i = Some ((fun s => s +:+ "!") t).
Proof.
  apply (translate_maps_each_text default_translator (flaky (fun s => s +:+ "!"))
           (fun s => s +:+ "!") ["a"; "b"; "a"] 4 0).
  - simpl. lia.
  - intros n batch. unfold translate_batch, flaky.
    destruct (Nat.even n) eqn:Hn.
    + exists 1%nat. split_and!; [lia| |].
      * intros i Hi. assert (i = 0)%nat as -> by lia. rewrite Nat.add_0_r, Hn. by eexists.
      * replace (n + 1)%nat with (S n) by lia.
        rewrite Nat.even_succ, <- Nat.negb_even, Hn. done.
    + exists 0%nat. split_and!; [lia|intros; lia|]. by rewrite Nat.add_0_r, Hn.
  - simpl. lia.
Defined.

(** C2, the rate-limit path: a batch that is answered 429 at all six
    attempts raises nothing; [translate] returns normally, and the
    texts of that batch are missing from the result. *)
Theorem translate_rate_limited_drops_batch :
  translate default_translator always_rate_limited 1 ["a"] 0 = (Returns [], 6%nat).
Proof. reflexivity. Qed.

(** The same for any input: under a lasting rate limit [translate]
    returns the empty list. *)
Lemma translate_rate_limited_returns_nothing (tr : YandexTranslator) (svc : service)
    (texts : list string) (calls : nat) :
  0 < batch_size tr ->
  (forall n b, translate_batch svc n b = inl RateLimitError) ->
  exists calls', translate tr svc (length texts) texts calls = (Returns [], calls').
Proof.
  intros Hpos Hrl.
  destruct (batches_total tr (length texts) texts Hpos (le_n _)) as (bs & Hbs & _).
  unfold translate. rewrite (translate_loop_send_all tr svc _ texts bs) by done.
  by apply send_all_rate_limited.
Qed.

(** The transport-failure path, for comparison: the sixth failure is
    re-raised. *)
Lemma translate_unreachable_raises :
  translate default_translator unreachable 1 ["a"] 0 = (Raises RequestException, 6%nat).
Proof. reflexivity. Qed.

(** ** The orchestrator *)

Section Orchestrator.
Variable cache : gmap string string.

Lemma scan_step_inv (seen : list string) st (t : string) :
  scan_inv cache seen st -> scan_inv cache (seen ++ [t]) (scan_step cache st t).
Proof.
  destruct st as [mapping unique]. intros (Hdom & Hval & Hnd & Hun). unfold scan_step.
  simpl in *.
  assert (Hseen : forall t', t' ∈ seen ++ [t] <-> t' ∈ seen \/ t' = t).
  { intros t'. by rewrite elem_of_app, list_elem_of_singleton. }
  destruct (mapping !! t) as [v|] eqn:Ht.
  - split_and!; simpl; [|done..].
    intros t'. rewrite Hseen, Hdom. split; [tauto|].
    intros [?| ->]; [done|]. apply Hdom. by eexists.
  - rewrite lookup_insert_eq.
    assert (Hnew : t ∉ unique) by (intros Hin%Hun; congruence).
    assert (Hdom' : forall t', is_Some (<[t:=or_None (cache !! t)]> mapping !! t')
                               <-> t' ∈ seen ++ [t]).
    { intros t'. rewrite Hseen, lookup_insert. case_decide; subst.
      - split; [by right|by eexists].
      - rewrite Hdom. split; [tauto|]. intros [?|?]; [done|congruence]. }
    assert (Hval' : forall t' v, <[t:=or_None (cache !! t)]> mapping !! t' = Some v ->
                                 v = or_None (cache !! t')).
    { intros t' v'. rewrite lookup_insert. case_decide; subst; [congruence|apply Hval]. }
    destruct (or_None (cache !! t)) as [v|] eqn:Hc; split_and!; simpl; try done.
    + intros t'. rewrite lookup_insert. case_decide; subst; [|apply Hun].
      split; [done|congruence].
    + apply NoDup_app. split_and!; [done| |apply NoDup_singleton].
      intros t' Hin ->%list_elem_of_singleton. done.
    + intros t'. rewrite lookup_insert, elem_of_app, list_elem_of_singleton.
      case_decide; subst; [tauto|]. rewrite Hun. split; [|tauto]. intros [?|?]; congruence.
Qed.

Lemma scan_fold_inv (seen texts : list string) st :
  scan_inv cache seen st -> scan_inv cache (seen ++ texts) (foldl (scan_step cache) st texts).
Proof.
  revert seen st. induction texts as [|t texts IH]; intros seen st Hinv; simpl.
  - by rewrite app_nil_r.
  - replace (seen ++ t :: texts) with ((seen ++ [t]) ++ texts) by by rewrite <- app_assoc.
    by apply IH, scan_step_inv.
Qed.

Lemma scan_texts_inv (texts : list string) : scan_inv cache texts (scan_texts cache texts).
Proof.
  apply (scan_fold_inv [] texts (∅, [])).
  split_and!; simpl; [|done|constructor|].
  - intros t. rewrite lookup_empty. split; [by intros []|by intros ?%elem_of_nil].
  - intros t. rewrite lookup_empty. split; [by intros ?%elem_of_nil|done].
Qed.
End Orchestrator.

Lemma or_None_None (x : option string) : or_None x = None <-> x = None \/ x = Some "".
Proof.
  destruct x as [v|]; simpl; [|tauto]. case_bool_decide; subst; split; try done; try tauto.
  intros [|[=]]; done.
Qed.

(** C10: [replace_texts] keeps the length; a text in the domain of
    the mapping is replaced by its image, a text outside it is
    returned as it is. *)
Theorem replace_texts_lookup (node_texts : list string)
    (mapping : gmap string (option string)) :
  length (replace_texts node_texts mapping) = length node_texts /\
  forall (i : nat) (t : string),
    node_texts !! i = Some t ->
    (forall image, mapping !! t = Some image ->
                   replace_texts node_texts mapping !! i = Some image) /\
    (mapping !! t = None ->
     replace_texts node_texts mapping !! i = Some (Some t)).
Proof.
  unfold replace_texts. split; [by rewrite length_map|].
  intros i t Hi. rewrite list_lookup_fmap, Hi. simpl.
  split; [intros image ->|intros ->]; done.
Qed.

(** C4, as the code has it: within one call the texts handed to the
    Translation Client are pairwise distinct, each is one of the input
    texts, each has no cached translation or an empty one, and a text
    whose cached translation is not empty is never among them; the
    client is called once with these texts, and not at all when there
    are none. *)
Theorem translate_unique_sends_misses_once (tr : YandexTranslator) (svc : service)
    (fuel : nat) (texts : list string) (cache : gmap string string)
    (glossary : list rule) (calls : nat) :
  let unique := (scan_texts cache texts).2 in
  NoDup unique /\
  (forall t, t ∈ unique <-> t ∈ texts /\ (cache !! t = None \/ cache !! t = Some "")) /\
  (forall t v, cache !! t = Some v -> v <> "" -> t ∉ unique) /\
  (unique = [] ->
   translate_unique tr svc fuel texts cache glossary calls
   = (Returns (scan_texts cache texts).1, cache, calls)) /\
  (unique <> [] ->
   (translate_unique tr svc fuel texts cache glossary calls).2
   = (translate tr svc fuel unique calls).2).
Proof.
  intros unique. subst unique.
  destruct (scan_texts_inv cache texts) as (Hdom & Hval & Hnd & Hun).
  assert (Hchar : forall t, t ∈ (scan_texts cache texts).2 <->
                            t ∈ texts /\ (cache !! t = None \/ cache !! t = Some "")).
  { intros t. rewrite Hun. split.
    - intros Ht. split; [apply Hdom; by eexists|].
      apply or_None_None. symmetry. by apply Hval.
    - intros [Hin Hc]. apply Hdom in Hin as [v Hv].
      rewrite Hv. f_equal. rewrite (Hval _ _ Hv). by apply or_None_None. }
  split_and!; [done|done| | |].
  - intros t v Hc Hv [_ [?|?]]%Hchar; congruence.
  - unfold translate_unique. destruct (scan_texts cache texts) as [m u]. simpl.
    by intros ->.
  - unfold translate_unique. destruct (scan_texts cache texts) as [m u]. simpl.
    destruct u as [|t u]; [done|intros _].
    destruct (translate tr svc fuel (t :: u) calls) as [[translated|e|] calls']; [|done..].
    by destruct (store_translations _ _ _ _).
Qed.

(** C4, the counterexample: the cache holds a translation of ["a"]
    (the empty string), yet ["a"] is handed to the client, and a
    request is made. *)
Lemma cached_empty_translation_is_sent :
  ({["a" := ""]} : gmap string string) !! "a" = Some "" /\
  "a" ∈ (scan_texts {["a" := ""]} ["a"]).2 /\
  (translate_unique default_translator (reliable (fun s => s)) 1 ["a"]
                    {["a" := ""]} [] 0).2 = 1%nat.
Proof.
  split_and!; [done| |by vm_compute].
  vm_compute. apply list_elem_of_here.
Qed.

(** ** The document tree: references and document order *)

Lemma get_app (n : node) (p q : path) :
  get n (p ++ q) = get n p ≫= fun m => get m q.
Proof.
  revert n. induction p as [|i p IH]; intros n; [done|].
  destruct n as [k t|name attrs contents]; [done|]. simpl.
  destruct (contents !! i); [apply IH|done].
Qed.

Lemma get_snoc_Some (n : node) (p : path) (i : nat) (c : node) :
  get n (p ++ [i]) = Some c ->
  exists name attrs contents,
    get n p = Some (Tag name attrs contents) /\ contents !! i = Some c.
Proof.
  rewrite get_app. destruct (get n p) as [[k t|name attrs contents]|]; simpl; try done.
  destruct (contents !! i) as [c'|] eqn:Hi; [|done]. intros [= <-]. eauto.
Qed.

Lemma children_descendants_app (desc : node -> list (path * node)) (i : nat)
    (l1 l2 : list node) :
  children_descendants desc i (l1 ++ l2)
  = children_descendants desc i l1 ++ children_descendants desc (i + length l1) l2.
Proof.
  revert i. induction l1 as [|c l1 IH]; intros i; simpl.
  - by rewrite Nat.add_0_r.
  - rewrite IH, <- !app_assoc. do 3 f_equal. f_equal. lia.
Qed.

(** The references [descendants] lists are those of the nodes below
    the root. *)
Lemma children_descendants_get (i : nat) (l : list node) (p : path) (d : node) :
  Forall (fun c => forall p d, (p, d) ∈ descendants c <-> p <> [] /\ get c p = Some d) l ->
  (p, d) ∈ children_descendants descendants i l <->
  exists j c p', p = (i + j)%nat :: p' /\ l !! j = Some c /\ get c p' = Some d.
Proof.
  intros Hall. revert i. induction Hall as [|c l Hc Hall IH]; intros i; simpl.
  - split; [by intros ?%elem_of_nil|]. by intros (j & c & p' & _ & ? & _).
  - rewrite elem_of_cons, elem_of_app, list_elem_of_fmap, IH. split.
    + intros [[= -> ->]|[((p' & d') & [= -> ->] & Hin)|(j & c' & p' & -> & Hj & Hget)]].
      * exists 0%nat, c, []. by rewrite Nat.add_0_r.
      * apply Hc in Hin as [_ Hget]. exists 0%nat, c, p'. by rewrite Nat.add_0_r.
      * exists (S j), c', p'. split_and!; [f_equal; lia|done|done].
    + intros (j & c' & p' & -> & Hj & Hget). destruct j as [|j].
      * simpl in Hj. injection Hj as <-. rewrite Nat.add_0_r.
        destruct p' as [|k p'].
        -- left. simpl in Hget. by injection Hget as <-.
        -- right; left. exists (k :: p', d). split; [done|]. by apply Hc.
      * right; right. exists j, c', p'. split_and!; [f_equal; lia|done|done].
Qed.

Lemma descendants_get (n : node) (p : path) (d : node) :
  (p, d) ∈ descendants n <-> p <> [] /\ get n p = Some d.
Proof.
  revert p d. induction n as [kind text|name attrs contents IH] using node_ind; intros p d.
  - simpl. split; [by intros ?%elem_of_nil|]. intros [Hp Hget]. by destruct p.
  - cbn [descendants]. rewrite (children_descendants_get 0 contents p d IH). split.
    + intros (j & c & p' & -> & Hj & Hget). split; [done|]. simpl. by rewrite Hj.
    + intros [Hp Hget]. destruct p as [|j p']; [done|]. simpl in Hget.
      destruct (contents !! j) as [c|] eqn:Hj; [|done]. by exists j, c, p'.
Qed.

(** Document order is a strict order. *)
Lemma path_lt_irrefl (p : path) : ~ path_lt p p.
Proof. induction p as [|i p IH]; simpl; [tauto|]. intros [?|[_ ?]]; [lia|tauto]. Qed.

Lemma path_lt_trans (p q r : path) : path_lt p q -> path_lt q r -> path_lt p r.
Proof.
  revert q r. induction p as [|i p IH]; intros [|j q] [|k r]; simpl; try tauto.
  intros [?|[-> Hpq]] [?|[-> Hqr]]; [left; lia..|].
  right. split; [done|]. by eapply IH.
Qed.

Lemma path_lt_cons (i : nat) (p q : path) : path_lt (i :: p) (i :: q) <-> path_lt p q.
Proof. simpl. split; [intros [?|[_ ?]]; [lia|done]|by right]. Qed.

(** [descendants] lists the nodes in document order. *)
Lemma children_descendants_sorted (i : nat) (l : list node) :
  Forall (fun c => StronglySorted path_lt (descendants c).*1) l ->
  StronglySorted path_lt (children_descendants descendants i l).*1 /\
  Forall (fun p => exists j p', p = j :: p' /\ (i <= j)%nat)
         (children_descendants descendants i l).*1.
Proof.
  intros Hall. revert i. induction Hall as [|c l Hc Hall IH]; intros i; simpl.
  - split; constructor.
  - destruct (IH (S i)) as [Hsorted Hheads].
    rewrite fmap_app, <- list_fmap_compose.
    assert (Hblock : Forall (fun p => exists p', p = i :: p' /\ p' <> [])
                       ((fun pd : path * node => (i :: pd.1, pd.2)) <$> descendants c).*1).
    { rewrite Forall_forall. intros p ((p' & d) & -> & ((p'' & d') & [= -> ->] & Hin)%list_elem_of_fmap)%list_elem_of_fmap.
      exists p''. split; [done|]. by apply descendants_get in Hin as [? _]. }
    rewrite <- list_fmap_compose in Hblock.
    split.
    + apply StronglySorted_cons. split.
      * apply Forall_app. split.
        -- eapply Forall_impl; [exact Hblock|]. intros p (p' & -> & Hne). simpl.
           right. split; [done|]. by destruct p'.
        -- eapply Forall_impl; [exact Hheads|]. intros p (j & p' & -> & Hj). simpl. left. lia.
      * apply StronglySorted_app. split_and!; [|by apply (StronglySorted_fmap (cons i) path_lt path_lt _ (fun p q H => proj2 (path_lt_cons i p q) H)) in Hc; rewrite <- list_fmap_compose in Hc|done].
        intros p q Hp Hq. rewrite Forall_forall in Hblock, Hheads.
        destruct (Hblock p Hp) as (p' & -> & _). destruct (Hheads q Hq) as (j & q' & -> & Hj).
        simpl. left. lia.
    + constructor; [by exists i, []|]. apply Forall_app. split.
      * eapply Forall_impl; [exact Hblock|]. intros p (p' & -> & _). by exists i, p'.
      * eapply Forall_impl; [exact Hheads|]. intros p (j & p' & -> & Hj). exists j, p'.
        split; [done|lia].
Qed.

Lemma descendants_sorted (n : node) : StronglySorted path_lt (descendants n).*1.
Proof.
  induction n as [kind text|name attrs contents IH] using node_ind; [constructor|].
  by apply (children_descendants_sorted 0 contents).
Qed.

(** ** The Document Extractor *)

(** The loop of [extract_text_nodes] is a filter over the
    descendants. *)
Lemma extract_text_fold (soup : node) (l : list (path * node)) (nodes : list path) :
  foldl (extract_text_step soup) nodes l
  = nodes ++ (filter (fun pd => kept_text soup pd) l).*1.
Proof.
  revert nodes. induction l as [|[p d] l IH]; intros nodes; simpl.
  - by rewrite app_nil_r.
  - rewrite IH, filter_cons. unfold extract_text_step, kept_text. simpl.
    destruct d as [kind text|name attrs contents]; simpl.
    + destruct (bool_decide (kind = Comment)); simpl; [done|].
      destruct (parent_excluded soup p); simpl; [done|].
      destruct (bool_decide (strip text <> "")); simpl; [|done].
      by rewrite <- app_assoc.
    + done.
Qed.

Lemma extract_text_nodes_filter (soup : node) :
  extract_text_nodes soup = (filter (fun pd => kept_text soup pd) (descendants soup)).*1.
Proof. unfold extract_text_nodes. by rewrite extract_text_fold. Qed.

(** A descendant has a parent, and the parent is a tag. *)
Lemma parent_is_tag (soup : node) (p : path) (d : node) :
  p <> [] -> get soup p = Some d ->
  exists name attrs contents, parent soup p = Some (Tag name attrs contents).
Proof.
  intros Hp Hget. destruct (exists_last Hp) as (p' & i & ->).
  destruct (get_snoc_Some _ _ _ _ Hget) as (name & attrs & contents & Hpar & _).
  exists name, attrs, contents. unfold parent.
  destruct (p' ++ [i]) eqn:E; [by destruct p'|]. rewrite <- E.
  by rewrite removelast_last.
Qed.

Lemma parent_excluded_false (soup : node) (p : path) (name : string) attrs contents :
  parent soup p = Some (Tag name attrs contents) ->
  parent_excluded soup p = false <-> lower name ∉ EXCLUDED_TAGS.
Proof.
  intros Hpar. unfold parent_excluded. rewrite Hpar.
  rewrite andb_false_iff, negb_false_iff, bool_decide_eq_true, bool_decide_eq_false.
  split; [|tauto]. intros [->|?]; [|done]. simpl. unfold EXCLUDED_TAGS.
  rewrite !not_elem_of_cons. split_and!; try done. apply not_elem_of_nil.
Qed.

(** The units are listed in document order. *)
Lemma extract_text_nodes_sorted (soup : node) :
  StronglySorted path_lt (extract_text_nodes soup).
Proof.
  rewrite extract_text_nodes_filter.
  pose proof (descendants_sorted soup) as Hsorted.
  induction (descendants soup) as [|[p d] l IH]; [constructor|].
  simpl in Hsorted. apply StronglySorted_cons in Hsorted as [Hall Hsorted].
  rewrite filter_cons. destruct (decide _); [|by apply IH].
  simpl. apply StronglySorted_cons. split; [|by apply IH].
  rewrite Forall_forall in Hall |- *.
  intros q ((q' & d') & -> & [_ Hin]%list_elem_of_filter)%list_elem_of_fmap.
  apply Hall, list_elem_of_fmap. by exists (q', d').
Qed.

(** Which references are listed. *)
Lemma extract_text_nodes_elem (soup : node) (p : path) :
  p ∈ extract_text_nodes soup <->
  exists kind text name attrs contents,
    get soup p = Some (NavigableString kind text) /\
    parent soup p = Some (Tag name attrs contents) /\
    kind <> Comment /\
    (lower name ∉ EXCLUDED_TAGS) /\
    strip text <> "".
Proof.
  rewrite extract_text_nodes_filter, list_elem_of_fmap. split.
  - intros ((p' & d) & -> & [Hkept Hin]%list_elem_of_filter). simpl.
    apply descendants_get in Hin as [Hp Hget].
    destruct (parent_is_tag _ _ _ Hp Hget) as (name & attrs & contents & Hpar).
    unfold kept_text in Hkept. simpl in Hkept.
    destruct d as [kind text|]; [|done].
    apply andb_prop_elim in Hkept as [[Hk He]%andb_prop_elim Hs].
    exists kind, text, name, attrs, contents. split_and!; [done|done| | |].
    + apply negb_prop_elim in Hk. intros ->. apply Hk. by apply bool_decide_pack.
    + apply (parent_excluded_false _ _ _ _ _ Hpar). apply negb_prop_elim in He.
      by destruct (parent_excluded soup p').
    + by apply bool_decide_unpack in Hs.
  - intros (kind & text & name & attrs & contents & Hget & Hpar & Hk & He & Hs).
    exists (p, NavigableString kind text). split; [done|].
    apply list_elem_of_filter. split.
    + unfold kept_text. simpl.
      rewrite (proj2 (parent_excluded_false _ _ _ _ _ Hpar) He).
      rewrite bool_decide_eq_false_2 by done. rewrite bool_decide_eq_true_2 by done. done.
    + apply descendants_get. split; [|done]. intros ->. done.
Qed.

Lemma StronglySorted_path_lt_NoDup (l : list path) : StronglySorted path_lt l -> NoDup l.
Proof.
  induction 1 as [|p l Hsorted IH Hall]; [constructor|].
  apply NoDup_cons. split; [|done]. intros Hin.
  rewrite Forall_forall in Hall. by apply (path_lt_irrefl p), Hall.
Qed.

(** The extracted text runs are pairwise distinct string nodes of the
    document. *)
Lemma extract_text_nodes_refs (soup : node) :
  NoDup (extract_text_nodes soup) /\
  forall p, p ∈ extract_text_nodes soup -> string_at soup p.
Proof.
  split; [apply StronglySorted_path_lt_NoDup, extract_text_nodes_sorted|].
  intros p (kind & text & _ & _ & _ & Hget & _)%extract_text_nodes_elem.
  by exists kind, text.
Qed.

(** The extracted attribute and meta units refer to tags of the
    document. *)
Lemma extract_attr_texts_refs (soup : node) (old : string) (tag : path) (attr : string) :
  (old, tag, attr) ∈ extract_attr_texts soup -> tag_at soup tag.
Proof.
  unfold extract_attr_texts. rewrite list_elem_of_In, in_flat_map.
  intros (tag' & _ & Hin). destruct (get soup tag') as [[|name attrs contents]|] eqn:Hget;
    try done.
  destruct (bool_decide _); [done|]. apply in_flat_map in Hin as (a & _ & Hin).
  destruct (get_attr a attrs) as [[val|]|]; try done.
  destruct (bool_decide _); [|done]. destruct Hin as [[= <- <- <-]|[]].
  by exists name, attrs, contents.
Qed.

Lemma extract_meta_descriptions_refs (soup : node) (old : string) (tag : path) :
  (old, tag) ∈ extract_meta_descriptions soup -> tag_at soup tag.
Proof.
  unfold extract_meta_descriptions. rewrite list_elem_of_In, in_flat_map.
  intros ([attr value] & _ & Hin). apply in_flat_map in Hin as (tag' & _ & Hin).
  destruct (get soup tag') as [[|name attrs contents]|] eqn:Hget; try done.
  simpl in Hin. destruct (get_attr "content" attrs) as [[content|]|]; try done.
  destruct (_ && _); [|done]. destruct Hin as [[= <- <-]|[]].
  by exists name, attrs, contents.
Qed.

(** C3, as the code is designed: a plain text run is one of the
    text-run units exactly when it is not empty after trimming and
    its parent (the immediate one only) is not a script, style, code,
    pre or noscript element; a comment never is one; the list holds
    string nodes only, in document order. *)
Theorem extract_text_nodes_spec (soup : node) :
  (forall (p : path) (text : string),
     get soup p = Some (NavigableString PlainText text) ->
     (p ∈ extract_text_nodes soup <->
      exists name attrs contents,
        parent soup p = Some (Tag name attrs contents) /\
        (lower name ∉ EXCLUDED_TAGS) /\
        strip text <> "")) /\
  (forall (p : path) (text : string),
     get soup p = Some (NavigableString Comment text) ->
     p ∉ extract_text_nodes soup) /\
  (forall p : path, p ∈ extract_text_nodes soup -> string_at soup p) /\
  StronglySorted path_lt (extract_text_nodes soup).
Proof.
  split_and!.
  - intros p text Hget. rewrite extract_text_nodes_elem. split.
    + intros (kind & text' & name & attrs & contents & Hget' & Hpar & _ & Hex & Hstrip).
      rewrite Hget in Hget'. injection Hget' as <- <-. by exists name, attrs, contents.
    + intros (name & attrs & contents & Hpar & Hex & Hstrip).
      by exists PlainText, text, name, attrs, contents.
  - intros p text Hget Hin.
    apply extract_text_nodes_elem in Hin
      as (kind & text' & name & attrs & contents & Hget' & _ & Hkind & _).
    rewrite Hget in Hget'. by injection Hget' as <- <-.
  - apply extract_text_nodes_refs.
  - apply extract_text_nodes_sorted.
Qed.

(** C3, the counterexample: in [<pre><b>x</b></pre>] the text [x] lies
    under a pre element, yet it is extracted, its parent being [b]. *)
Lemma text_nested_in_pre_is_extracted :
  [0; 0; 0]%nat ∈ extract_text_nodes
      (BeautifulSoup [Tag "pre" [] [Tag "b" [] [NavigableString PlainText "x"]]]) /\
  under_excluded_tag
      (BeautifulSoup [Tag "pre" [] [Tag "b" [] [NavigableString PlainText "x"]]])
      [0; 0; 0]%nat.
Proof.
  split.
  - vm_compute. apply list_elem_of_here.
  - exists [0%nat], "pre", [], [Tag "b" [] [NavigableString PlainText "x"]].
    split_and!; [by exists [0; 0]%nat|done|done|].
    vm_compute. do 3 apply list_elem_of_further. apply list_elem_of_here.
Qed.

(** A doctype is a string node that is no comment: it is extracted
    like a text run. *)
Lemma doctype_is_extracted :
  extract_text_nodes
    (BeautifulSoup [NavigableString Doctype "html";
                    Tag "html" [] [Tag "body" [] [NavigableString PlainText "Salom"]]])
  = [[0]; [1; 0; 0]]%nat.
Proof. by vm_compute. Qed.

(** ** The document tree: in-place changes *)

Section AlterAt.
Variable f : node -> node.

(** At and below the changed reference one sees the changed node. *)
Lemma get_alter_at_below (p q : path) (n : node) :
  get (alter_at f p n) (p ++ q) = get n p ≫= fun m => get (f m) q.
Proof.
  revert n. induction p as [|i p IH]; intros n; [done|].
  destruct n as [kind text|name attrs contents]; [done|]. simpl.
  rewrite list_lookup_alter_eq. destruct (contents !! i) as [c|]; simpl; [apply IH|done].
Qed.

Lemma get_alter_at (p : path) (n m : node) :
  get n p = Some m -> get (alter_at f p n) p = Some (f m).
Proof.
  intros Hget. rewrite <- (app_nil_r p) at 2. by rewrite get_alter_at_below, Hget.
Qed.

(** A change below a node leaves its name and attributes alone. *)
Lemma label_alter_at_cons (i : nat) (p : path) (n : node) :
  label (alter_at f (i :: p) n) = label n.
Proof. by destruct n. Qed.

(** Elsewhere one sees the old node, up to a change further down that
    keeps the node's name and attributes. *)
Lemma get_alter_at_elsewhere (p q : path) (n : node) :
  ~ p `prefix_of` q ->
  exists g : node -> node,
    get (alter_at f p n) q = g <$> get n q /\
    (forall m, label (g m) = label m) /\
    (forall kind text, g (NavigableString kind text) = NavigableString kind text).
Proof.
  revert n q. induction p as [|i p IH]; intros n q Hpre.
  - destruct Hpre. apply prefix_nil.
  - destruct q as [|j q].
    + exists (alter_at f (i :: p)). split_and!; [done| |done].
      intros m. apply label_alter_at_cons.
    + destruct n as [kind text|name attrs contents].
      { exists id. by split_and!. }
      simpl. destruct (decide (i = j)) as [->|Hij].
      * rewrite list_lookup_alter_eq. destruct (contents !! j) as [c|]; simpl.
        -- apply IH. intros Hp. apply Hpre. by apply prefix_cons.
        -- exists id. by split_and!.
      * rewrite list_lookup_alter_ne by done. exists id. split_and!; [|done..].
        by destruct (contents !! j) as [c|]; simpl; [destruct (get c q)|].
Qed.

Lemma get_alter_at_string (p q : path) (n : node) kind text :
  ~ p `prefix_of` q ->
  get n q = Some (NavigableString kind text) ->
  get (alter_at f p n) q = Some (NavigableString kind text).
Proof.
  intros Hpre Hget. destruct (get_alter_at_elsewhere p q n Hpre) as (g & -> & _ & Hg).
  by rewrite Hget; simpl; rewrite Hg.
Qed.

Lemma label_alter_at_elsewhere (p q : path) (n : node) :
  ~ p `prefix_of` q ->
  get (alter_at f p n) q ≫= label = get n q ≫= label.
Proof.
  intros Hpre. destruct (get_alter_at_elsewhere p q n Hpre) as (g & -> & Hg & _).
  destruct (get n q) as [m|]; simpl; [apply Hg|done].
Qed.

(** A change that does nothing to the node it is applied to does
    nothing to the tree. *)
Lemma alter_at_id (p : path) (n : node) :
  (forall m, get n p = Some m -> f m = m) -> alter_at f p n = n.
Proof.
  revert n. induction p as [|i p IH]; intros n Hf; [by apply Hf|].
  destruct n as [kind text|name attrs contents]; [done|]. simpl. f_equal.
  apply list_eq. intros j. destruct (decide (i = j)) as [->|Hij].
  - rewrite list_lookup_alter_eq. destruct (contents !! j) as [c|] eqn:Hj; [|done].
    simpl. f_equal. apply IH. intros m Hm. apply Hf. simpl. by rewrite Hj.
  - by rewrite list_lookup_alter_ne.
Qed.
End AlterAt.

Lemma alter_at_compose (f g : node -> node) (p : path) (n : node) :
  alter_at g p (alter_at f p n) = alter_at (fun m => g (f m)) p n.
Proof.
  revert n. induction p as [|i p IH]; intros n; [done|].
  destruct n as [kind text|name attrs contents]; [done|]. simpl. f_equal.
  apply list_eq. intros j. destruct (decide (i = j)) as [->|Hij].
  - rewrite !list_lookup_alter_eq. destruct (contents !! j) as [c|]; [|done].
    simpl. f_equal. apply IH.
  - by rewrite !list_lookup_alter_ne.
Qed.

Lemma alter_at_ext (f g : node -> node) (p : path) (n : node) :
  (forall m, get n p = Some m -> f m = g m) -> alter_at f p n = alter_at g p n.
Proof.
  revert n. induction p as [|i p IH]; intros n Hfg; [by apply Hfg|].
  destruct n as [kind text|name attrs contents]; [done|]. simpl. f_equal.
  apply list_eq. intros j. destruct (decide (i = j)) as [->|Hij].
  - rewrite !list_lookup_alter_eq. destruct (contents !! j) as [c|] eqn:Hj; [|done].
    simpl. f_equal. apply IH. intros m Hm. apply Hfg. simpl. by rewrite Hj.
  - by rewrite !list_lookup_alter_ne.
Qed.

(** *** Attribute dictionaries *)

Lemma get_set_attr (key : string) (value : attr_value) attrs :
  get_attr key (set_attr key value attrs) = Some value.
Proof.
  induction attrs as [|[k v] attrs IH]; simpl.
  - by rewrite bool_decide_eq_true_2.
  - case_bool_decide as Hk; simpl; [by rewrite bool_decide_eq_true_2|].
    by rewrite bool_decide_eq_false_2.
Qed.

Lemma get_set_attr_ne (key key' : string) (value : attr_value) attrs :
  key <> key' -> get_attr key' (set_attr key value attrs) = get_attr key' attrs.
Proof.
  intros Hne. induction attrs as [|[k v] attrs IH]; simpl.
  - by rewrite bool_decide_eq_false_2.
  - case_bool_decide as Hk; simpl.
    + subst k. by rewrite !bool_decide_eq_false_2.
    + by rewrite IH.
Qed.

Lemma set_attr_same (key : string) (value : attr_value) attrs :
  get_attr key attrs = Some value -> set_attr key value attrs = attrs.
Proof.
  induction attrs as [|[k v] attrs IH]; simpl; [done|].
  case_bool_decide as Hk; [by intros [= ->]|]. intros H. by rewrite IH.
Qed.

(** [tag[key] = value] keeps the children. *)
Lemma get_set_item (key : string) (value : attr_value) (m : node) (q : path) :
  q <> [] -> get (set_item key value m) q = get m q.
Proof. intros Hq. destruct q; [done|]. by destruct m. Qed.

(** ** The Reinsertion Engine *)

Lemma get_alter_at_self (f : node -> node) (p : path) (n : node) :
  get (alter_at f p n) p = f <$> get n p.
Proof.
  rewrite <- (app_nil_r p) at 2. rewrite get_alter_at_below.
  by destruct (get n p).
Qed.

(** Nothing lies below a string node. *)
Lemma get_below_string (n : node) (p q : path) kind text :
  get n p = Some (NavigableString kind text) -> is_Some (get n (p ++ q)) -> q = [].
Proof.
  intros Hp. rewrite get_app, Hp. simpl. destruct q; [done|]. by intros [? ?].
Qed.

Section Writes.
Variables (key : string) (value : attr_value) (tag : path).

(** An assignment to an attribute leaves the string nodes alone. *)
Lemma set_item_keeps_strings (soup : node) (p : path) kind text :
  get soup p = Some (NavigableString kind text) ->
  get (alter_at (set_item key value) tag soup) p = Some (NavigableString kind text).
Proof.
  intros Hget. destruct (decide (tag `prefix_of` p)) as [[q ->]|Hpre].
  - rewrite get_alter_at_below. rewrite get_app in Hget.
    destruct (get soup tag) as [m|]; [simpl in *|done].
    destruct q as [|i q]; [|by rewrite get_set_item].
    simpl in *. by injection Hget as ->.
  - by apply get_alter_at_string.
Qed.

(** It keeps the tags. *)
Lemma set_item_keeps_tags (soup : node) (q : path) :
  tag_at soup q -> tag_at (alter_at (set_item key value) tag soup) q.
Proof.
  intros (name & attrs & contents & Hget).
  destruct (decide (tag `prefix_of` q)) as [[r ->]|Hpre].
  - unfold tag_at. rewrite get_alter_at_below. rewrite get_app in Hget.
    destruct (get soup tag) as [m|]; [simpl in *|done].
    destruct r as [|i r]; [|rewrite get_set_item by done; eauto].
    simpl in *. injection Hget as ->. simpl. eauto.
  - destruct (get_alter_at_elsewhere (set_item key value) tag q soup Hpre)
      as (g & Hg & Hlabel & _).
    unfold tag_at. rewrite Hg, Hget. simpl.
    specialize (Hlabel (Tag name attrs contents)). destruct (g _); [done|].
    simpl in Hlabel. injection Hlabel as -> ->. eauto.
Qed.

(** It sets the attribute it names. *)
Lemma attr_at_set_item (soup : node) :
  tag_at soup tag -> attr_at (alter_at (set_item key value) tag soup) tag key = Some value.
Proof.
  intros (name & attrs & contents & Hget). unfold attr_at.
  rewrite get_alter_at_self, Hget. simpl. apply get_set_attr.
Qed.

(** It changes no other attribute of any tag. *)
Lemma attr_at_set_item_other (soup : node) (q : path) (key' : string) :
  (q, key') <> (tag, key) ->
  attr_at (alter_at (set_item key value) tag soup) q key' = attr_at soup q key'.
Proof.
  intros Hne. unfold attr_at.
  destruct (decide (tag `prefix_of` q)) as [[r ->]|Hpre].
  - rewrite get_alter_at_below, get_app. destruct (get soup tag) as [m|]; [simpl|done].
    destruct r as [|i r]; [|by rewrite get_set_item].
    simpl. destruct m as [|name attrs contents]; [done|]. simpl.
    apply get_set_attr_ne. intros ->. apply Hne. by rewrite app_nil_r.
  - destruct (get_alter_at_elsewhere (set_item key value) tag q soup Hpre)
      as (g & -> & Hlabel & _).
    destruct (get soup q) as [m|]; [simpl|done].
    specialize (Hlabel m). destruct m, (g _); simpl in *; congruence.
Qed.
End Writes.

(** Replacing a string node by a string leaves every other string
    node, every tag and every attribute as they are. *)
Section ReplaceWith.
Variables (soup : node) (p : path) (new : node).
Hypothesis Hold : string_at soup p.
Hypothesis Hnew : label new = None.

Lemma replace_keeps_strings (q : path) kind text :
  q <> p ->
  get soup q = Some (NavigableString kind text) ->
  get (alter_at (fun _ => new) p soup) q = Some (NavigableString kind text).
Proof.
  intros Hne Hget. apply get_alter_at_string; [|done].
  intros [r ->]. destruct Hold as (k & t & Hp).
  apply Hne. rewrite (get_below_string soup p r k t); [by rewrite app_nil_r|done|by eexists].
Qed.

Lemma replace_keeps_labels (q : path) :
  label <$> get (alter_at (fun _ => new) p soup) q = label <$> get soup q.
Proof.
  destruct Hold as (k & t & Hp).
  destruct (decide (p `prefix_of` q)) as [[r ->]|Hpre].
  - rewrite get_alter_at_below, get_app, Hp. simpl.
    destruct r as [|i r]; simpl; [by rewrite Hnew|].
    by destruct new.
  - destruct (get_alter_at_elsewhere (fun _ => new) p q soup Hpre) as (g & -> & Hlabel & _).
    destruct (get soup q) as [m|]; simpl; [by rewrite Hlabel|done].
Qed.

Lemma replace_keeps_tags (q : path) :
  tag_at soup q -> tag_at (alter_at (fun _ => new) p soup) q.
Proof.
  intros (name & attrs & contents & Hget). pose proof (replace_keeps_labels q) as H.
  rewrite Hget in H. unfold tag_at.
  destruct (get (alter_at _ p soup) q) as [[|name' attrs' contents']|]; simpl in H; try done.
  eauto.
Qed.

Lemma replace_keeps_attrs (q : path) (key : string) :
  attr_at (alter_at (fun _ => new) p soup) q key = attr_at soup q key.
Proof.
  pose proof (replace_keeps_labels q) as H. unfold attr_at.
  destruct (get (alter_at _ p soup) q) as [m'|], (get soup q) as [m|]; simpl in *; try done.
  injection H as H. destruct m', m; simpl in *; congruence.
Qed.
End ReplaceWith.

(** The first loop: every listed string node gets its text; no error
    when the references are distinct string nodes. *)
Lemma replace_nodes_spec (pairs : list (path * option string)) (soup : node)
    (detached : list path) :
  NoDup pairs.*1 ->
  (forall p, p ∈ pairs.*1 -> (p ∉ detached) /\ string_at soup p) ->
  exists soup',
    replace_nodes soup detached pairs = Some soup' /\
    (forall p r, (p, r) ∈ pairs ->
                 get soup' p = Some (NavigableString PlainText (or_empty r))) /\
    (forall q, tag_at soup q -> tag_at soup' q) /\
    (forall q key, attr_at soup' q key = attr_at soup q key) /\
    (forall q kind text, q ∉ pairs.*1 ->
       get soup q = Some (NavigableString kind text) ->
       get soup' q = Some (NavigableString kind text)).
Proof.
  revert soup detached. induction pairs as [|[p r] pairs IH]; intros soup detached Hnd Hrefs.
  - exists soup. split_and!; try done. by intros p r ?%elem_of_nil.
  - simpl in Hnd. apply NoDup_cons in Hnd as [Hp Hnd].
    destruct (Hrefs p) as [Hdet Hstr]; [by left|].
    cbn [replace_nodes]. unfold replace_with.
    rewrite bool_decide_eq_false_2 by done.
    destruct Hstr as (kind & text & Hget). rewrite Hget.
    set (new := NavigableString PlainText (or_empty r)).
    set (soup1 := alter_at (fun _ => new) p soup).
    assert (Hold : string_at soup p) by (by exists kind, text).
    destruct (IH soup1 (p :: detached) Hnd) as (soup' & Hrun & Htexts & Htags & Hattrs & Hframe).
    { intros p' Hp'. destruct (Hrefs p') as [Hdet' (k' & t' & Hget')]; [by right|].
      assert (p' <> p) by (by intros ->).
      split; [by apply not_elem_of_cons|].
      exists k', t'. by apply replace_keeps_strings. }
    exists soup'. split_and!; [done| | | |].
    + intros p' r' [[= -> ->]|Hin]%elem_of_cons; [|by apply Htexts].
      apply Hframe; [done|]. exact (get_alter_at (fun _ => new) p soup _ Hget).
    + intros q Hq. apply Htags. by apply replace_keeps_tags.
    + intros q key. rewrite Hattrs. by apply replace_keeps_attrs.
    + intros q k t Hq Hgetq. simpl in Hq. apply not_elem_of_cons in Hq as [Hqp Hq].
      apply Hframe; [done|]. by apply replace_keeps_strings.
Qed.

Lemma replace_attrs_writes (soup : node) pairs :
  replace_attrs soup pairs = apply_writes soup (attr_writes pairs).
Proof.
  revert soup. induction pairs as [|[[[old tag] attr] r] pairs IH]; intros soup; [done|].
  simpl. apply IH.
Qed.

Lemma replace_metas_writes (soup : node) pairs :
  replace_metas soup pairs = apply_writes soup (meta_writes pairs).
Proof.
  revert soup. induction pairs as [|[[old tag] r] pairs IH]; intros soup; [done|].
  simpl. apply IH.
Qed.

Lemma apply_writes_app (soup : node) (w1 w2 : list (path * string * option string)) :
  apply_writes soup (w1 ++ w2) = apply_writes (apply_writes soup w1) w2.
Proof. apply foldl_app. Qed.

Lemma apply_writes_keeps_tags (soup : node) writes (q : path) :
  tag_at soup q -> tag_at (apply_writes soup writes) q.
Proof.
  revert soup. induction writes as [|[[tag key] r] writes IH]; intros soup Hq; [done|].
  simpl. by apply IH, set_item_keeps_tags.
Qed.

Lemma apply_writes_keeps_strings (soup : node) writes (p : path) kind text :
  get soup p = Some (NavigableString kind text) ->
  get (apply_writes soup writes) p = Some (NavigableString kind text).
Proof.
  revert soup. induction writes as [|[[tag key] r] writes IH]; intros soup Hp; [done|].
  simpl. by apply IH, set_item_keeps_strings.
Qed.

Lemma apply_writes_other (soup : node) writes (q : path) (key : string) :
  (forall r, (q, key, r) ∉ writes) ->
  attr_at (apply_writes soup writes) q key = attr_at soup q key.
Proof.
  revert soup. induction writes as [|[[tag key'] r] writes IH]; intros soup Hq; [done|].
  simpl. rewrite IH.
  - apply attr_at_set_item_other. intros [= -> ->]. apply (Hq r). by left.
  - intros r' Hin. apply (Hq r'). by right.
Qed.

(** The last assignment to an attribute of a tag decides its value. *)
Lemma apply_writes_last (soup : node) writes (i : nat) (tag : path) (key : string) r :
  writes !! i = Some (tag, key, r) ->
  tag_at soup tag ->
  (forall j r', (i < j)%nat -> writes !! j <> Some (tag, key, r')) ->
  attr_at (apply_writes soup writes) tag key = Some (AttrStr (or_empty r)).
Proof.
  revert soup i. induction writes as [|[[tag' key'] r'] writes IH]; intros soup i Hi Htag Hlast;
    [done|].
  destruct i as [|i]; simpl in *.
  - injection Hi as -> -> ->. rewrite apply_writes_other.
    + by apply attr_at_set_item.
    + intros r' [j Hj]%list_elem_of_lookup. by apply (Hlast (S j) r' ltac:(lia)).
  - apply (IH _ i); [done|by apply set_item_keeps_tags|].
    intros j r'' Hj. apply (Hlast (S j) r''). lia.
Qed.

(** C9, as the code has it: for references to distinct string nodes
    and to tags of the document, and replacement sequences as long as
    the lists of units, [replace_in_html] raises nothing; afterwards
    every text node holds its replacement, and every attribute and
    meta content that is not assigned again later holds its
    replacement; a replacement that is [None] counts as the empty
    string. *)
Theorem replace_in_html_overwrites (soup : node)
    (nodes : list path) (node_texts : list (option string))
    (attr_items : list (string * path * string)) (attr_texts : list (option string))
    (meta_items : list (string * path)) (meta_texts : list (option string)) :
  NoDup nodes ->
  (forall p, p ∈ nodes -> string_at soup p) ->
  (forall old tag attr, (old, tag, attr) ∈ attr_items -> tag_at soup tag) ->
  (forall old tag, (old, tag) ∈ meta_items -> tag_at soup tag) ->
  length node_texts = length nodes ->
  length attr_texts = length attr_items ->
  length meta_texts = length meta_items ->
  exists soup',
    replace_in_html soup nodes node_texts attr_items attr_texts meta_items meta_texts
    = Some soup' /\
    (forall i p, nodes !! i = Some p ->
       exists r, node_texts !! i = Some r /\
                 get soup' p = Some (NavigableString PlainText (default "" r))) /\
    (forall i old tag attr, attr_items !! i = Some (old, tag, attr) ->
       (forall j old', (i < j)%nat -> attr_items !! j <> Some (old', tag, attr)) ->
       (attr = "content" -> forall old', (old', tag) ∉ meta_items) ->
       exists r, attr_texts !! i = Some r /\
                 attr_at soup' tag attr = Some (AttrStr (default "" r))) /\
    (forall i old tag, meta_items !! i = Some (old, tag) ->
       (forall j old', (i < j)%nat -> meta_items !! j <> Some (old', tag)) ->
       exists r, meta_texts !! i = Some r /\
                 attr_at soup' tag "content" = Some (AttrStr (default "" r))).
Proof.
  intros Hnd Hstr Hattr Hmeta Hln Hla Hlm. unfold replace_in_html.
  destruct (replace_nodes_spec (zip nodes node_texts) soup []) as
    (soup1 & -> & Htexts & Htags & Hattrs & _).
  { by rewrite fst_zip by lia. }
  { rewrite fst_zip by lia. intros p Hp. split; [apply not_elem_of_nil|by apply Hstr]. }
  rewrite replace_attrs_writes, replace_metas_writes, <- apply_writes_app.
  set (writes := attr_writes (zip attr_items attr_texts) ++ meta_writes (zip meta_items meta_texts)).
  assert (Hlen : length (attr_writes (zip attr_items attr_texts)) = length attr_items).
  { unfold attr_writes. rewrite length_map, length_zip. lia. }
  exists (apply_writes soup1 writes). split_and!; [done| | |].
  - intros i p Hi.
    destruct (lookup_lt_is_Some_2 node_texts i) as [r Hr].
    { rewrite Hln. by eapply lookup_lt_Some. }
    exists r. split; [done|].
    apply apply_writes_keeps_strings, Htexts.
    apply list_elem_of_lookup. exists i. by apply lookup_zip_Some.
  - intros i old tag attr Hi Hlater Hcontent.
    destruct (lookup_lt_is_Some_2 attr_texts i) as [r Hr].
    { rewrite Hla. by eapply lookup_lt_Some. }
    exists r. split; [done|].
    apply (apply_writes_last soup1 writes i).
    + unfold writes. rewrite lookup_app_l by (rewrite Hlen; by eapply lookup_lt_Some).
      unfold attr_writes. rewrite list_lookup_fmap.
      by rewrite (proj2 (lookup_zip_Some attr_items attr_texts i _ _) (conj Hi Hr)).
    + apply Htags. eapply Hattr. by eapply list_elem_of_lookup_2.
    + intros j r' Hj. unfold writes.
      destruct (decide (j < length attr_items)%nat) as [Hlt|Hge].
      * rewrite lookup_app_l by (by rewrite Hlen).
        unfold attr_writes. rewrite list_lookup_fmap.
        destruct (zip attr_items attr_texts !! j) as [[[[old' tag'] attr'] r'']|] eqn:Hz; [|done].
        apply lookup_zip_Some in Hz as [Hz _]. simpl. intros [= -> -> ->].
        by apply (Hlater j old').
      * rewrite lookup_app_r by (rewrite Hlen; lia).
        unfold meta_writes. rewrite list_lookup_fmap.
        destruct (zip meta_items meta_texts !! _) as [[[old' tag'] r'']|] eqn:Hz; [|done].
        apply lookup_zip_Some in Hz as [Hz _]. simpl. intros [= -> <- ->].
        apply (Hcontent eq_refl old'). by eapply list_elem_of_lookup_2.
  - intros i old tag Hi Hlater.
    destruct (lookup_lt_is_Some_2 meta_texts i) as [r Hr].
    { rewrite Hlm. by eapply lookup_lt_Some. }
    exists r. split; [done|].
    apply (apply_writes_last soup1 writes (length attr_items + i)).
    + unfold writes. rewrite lookup_app_r by (rewrite Hlen; lia).
      rewrite Hlen. replace (length attr_items + i - length attr_items)%nat with i by lia.
      unfold meta_writes. rewrite list_lookup_fmap.
      by rewrite (proj2 (lookup_zip_Some meta_items meta_texts i _ _) (conj Hi Hr)).
    + apply Htags. eapply Hmeta. by eapply list_elem_of_lookup_2.
    + intros j r' Hj. unfold writes.
      rewrite lookup_app_r by (rewrite Hlen; lia).
      unfold meta_writes. rewrite list_lookup_fmap.
      destruct (zip meta_items meta_texts !! _) as [[[old' tag'] r'']|] eqn:Hz; [|done].
      apply lookup_zip_Some in Hz as [Hz _]. simpl. intros [= -> ->].
      apply (Hlater (j - length (attr_writes (zip attr_items attr_texts)))%nat old'); [|done].
      rewrite Hlen. lia.
Qed.

(** ** The document tree: searching *)

Section Find.
Variable q : tag_filter.

Lemma find_all_Tag name attrs contents :
  find_all q (Tag name attrs contents) = find_all_in q 0 contents.
Proof. done. Qed.

Lemma filter_matches_prefix (i : nat) (l : list (path * node)) :
  (filter (fun pd => matches q pd.2) ((fun pd : path * node => (i :: pd.1, pd.2)) <$> l)).*1
  = cons i <$> (filter (fun pd => matches q pd.2) l).*1.
Proof.
  induction l as [|[p d] l IH]; [done|]. csimpl. rewrite !filter_cons. simpl.
  destruct (decide (matches q d)); csimpl; by rewrite IH.
Qed.

Lemma find_all_in_cons (i : nat) (c : node) (l : list node) :
  find_all_in q i (c :: l)
  = (if matches q c then [[i]] else []) ++ (cons i <$> find_all q c) ++ find_all_in q (S i) l.
Proof.
  unfold find_all_in, find_all. cbn [children_descendants].
  rewrite filter_cons, filter_app. simpl.
  destruct (decide (matches q c)) as [Hc|Hc].
  - rewrite (Is_true_true_1 _ Hc). csimpl. by rewrite fmap_app, filter_matches_prefix.
  - rewrite (Is_true_false_1 _ Hc). csimpl. by rewrite fmap_app, filter_matches_prefix.
Qed.

Lemma find_all_in_app (i : nat) (l1 l2 : list node) :
  find_all_in q i (l1 ++ l2) = find_all_in q i l1 ++ find_all_in q (i + length l1) l2.
Proof.
  unfold find_all_in. by rewrite children_descendants_app, filter_app, fmap_app.
Qed.

(** [find] on the children of a tag, child by child. *)
Lemma find_in_cons (i : nat) (c : node) (l : list node) :
  head (find_all_in q i (c :: l))
  = if matches q c then Some [i]
    else match find q c with
         | Some p => Some (i :: p)
         | None => head (find_all_in q (S i) l)
         end.
Proof.
  rewrite find_all_in_cons. destruct (matches q c); [done|]. simpl.
  unfold find. destruct (find_all q c); done.
Qed.

(** [find] returns a reference below the node it searches. *)
Lemma find_in_Some (i : nat) (l : list node) (p : path) :
  head (find_all_in q i l) = Some p -> exists j p', p = (i + j)%nat :: p'.
Proof.
  revert i. induction l as [|c l IH]; intros i; [done|].
  rewrite find_in_cons. destruct (matches q c).
  - intros [= <-]. exists 0%nat, []. by rewrite Nat.add_0_r.
  - destruct (find q c) as [p'|].
    + intros [= <-]. exists 0%nat, p'. by rewrite Nat.add_0_r.
    + intros (j & p' & ->)%IH. exists (S j), p'. f_equal. lia.
Qed.

Lemma find_nonempty (n : node) (p : path) : find q n = Some p -> p <> [].
Proof.
  destruct n as [|name attrs contents]; [done|].
  unfold find. rewrite find_all_Tag. by intros (j & p' & ->)%find_in_Some.
Qed.

(** The node found is a tag that matches. *)
Lemma find_in_matches (i : nat) (l : list node) (j : nat) (p : path) :
  Forall (fun c => forall p, find q c = Some p ->
                   exists m, get c p = Some m /\ matches q m = true) l ->
  head (find_all_in q i l) = Some (j :: p) ->
  exists c m, l !! (j - i)%nat = Some c /\ (i <= j)%nat /\ get c p = Some m /\ matches q m = true.
Proof.
  intros Hall. revert i. induction Hall as [|c l Hc Hall IH]; intros i; [done|].
  rewrite find_in_cons. destruct (matches q c) eqn:Hm.
  - intros [= <- <-]. exists c, c. rewrite Nat.sub_diag. by split_and!.
  - destruct (find q c) as [p'|] eqn:Hf.
    + intros [= <- <-]. destruct (Hc _ eq_refl) as (m & Hget & Hmm).
      exists c, m. rewrite Nat.sub_diag. by split_and!.
    + intros (c' & m & Hl & Hle & Hget & Hmm)%IH. exists c', m.
      replace (j - i)%nat with (S (j - S i)) by lia. split_and!; [done|lia|done|done].
Qed.

Lemma find_matches (n : node) (p : path) :
  find q n = Some p -> exists m, get n p = Some m /\ matches q m = true.
Proof.
  revert p. induction n as [kind text|name attrs contents IH] using node_ind; intros p; [done|].
  unfold find. rewrite find_all_Tag. intros Hf.
  destruct (find_in_Some _ _ _ Hf) as (j & p' & ->).
  destruct (find_in_matches 0 contents _ p' IH Hf) as (c & m & Hl & _ & Hget & Hm).
  exists m. split; [|done]. simpl in *. rewrite Nat.sub_0_r in Hl. by rewrite Hl.
Qed.

(** A change below a node does not change the verdict on the node. *)
Lemma matches_alter_at_cons (f : node -> node) (i : nat) (p : path) (n : node) :
  matches q (alter_at f (i :: p) n) = matches q n.
Proof. by destruct n. Qed.

Lemma matches_alter_at (f : node -> node) (p : path) (n : node) :
  keeps_match q f -> matches q (alter_at f p n) = matches q n.
Proof. intros Hf. destruct p; [apply Hf|apply matches_alter_at_cons]. Qed.

(** Changing the node that [find] returns, or anything below it,
    does not change what [find] returns. *)
Lemma find_in_alter_found (f : node -> node) (i : nat) (l : list node) (p : path) :
  keeps_match q f ->
  Forall (fun c => forall p, find q c = Some p -> find q (alter_at f p c) = Some p) l ->
  head (find_all_in q i l) = Some p ->
  exists j p', p = (i + j)%nat :: p' /\
               head (find_all_in q i (alter (alter_at f p') j l)) = Some p.
Proof.
  intros Hf Hall. revert i. induction Hall as [|c l Hc Hall IH]; intros i; [done|].
  rewrite find_in_cons. destruct (matches q c) eqn:Hm.
  - intros [= <-]. exists 0%nat, []. rewrite Nat.add_0_r. split; [done|].
    cbn [alter list_alter alter_at]. by rewrite find_in_cons, Hf, Hm.
  - destruct (find q c) as [p'|] eqn:Hfind.
    + intros [= <-]. exists 0%nat, p'. rewrite Nat.add_0_r. split; [done|].
      cbn [alter list_alter]. rewrite find_in_cons.
      rewrite matches_alter_at by done. by rewrite Hm, (Hc _ eq_refl).
    + intros (j & p' & -> & Hrec)%IH. exists (S j), p'.
      split; [f_equal; lia|]. cbn [alter list_alter]. rewrite find_in_cons, Hm, Hfind.
      rewrite Hrec. repeat f_equal; lia.
Qed.

Lemma find_alter_at_found (f : node -> node) (n : node) (p : path) :
  keeps_match q f ->
  find q n = Some p -> find q (alter_at f p n) = Some p.
Proof.
  intros Hf. revert p.
  induction n as [kind text|name attrs contents IH] using node_ind; intros p; [done|].
  unfold find at 1. rewrite find_all_Tag. intros Hfind.
  destruct (find_in_alter_found f 0 contents p Hf IH Hfind) as (j & p' & -> & Hrec).
  by simpl.
Qed.

(** Nothing matches among the children and below. *)
Lemma find_in_None (i : nat) (l : list node) :
  head (find_all_in q i l) = None <->
  Forall (fun c => matches q c = false /\ find q c = None) l.
Proof.
  revert i. induction l as [|c l IH]; intros i; [by split; [constructor|]|].
  rewrite find_in_cons, Forall_cons. destruct (matches q c).
  - split; [done|]. by intros [[? _] _].
  - destruct (find q c); [split; [done|by intros [[_ ?] _]]|].
    rewrite IH. tauto.
Qed.

(** Where nothing matched, a change that makes a match appear at or
    below the changed node makes [find] return that match. *)
Lemma find_alter_at_new (f : node -> node) (p r : path) (n : node) :
  keeps_match q f ->
  find q n = None ->
  (forall m, get n p = Some m -> find q (f m) = Some r) ->
  is_Some (get n p) ->
  find q (alter_at f p n) = Some (p ++ r).
Proof.
  intros Hf. revert n. induction p as [|i p IH]; intros n Hnone Hr [m Hm].
  - simpl in *. by apply Hr.
  - destruct n as [kind text|name attrs contents]; [done|].
    simpl in Hm. destruct (contents !! i) as [c|] eqn:Hi; [|done].
    unfold find in Hnone |- *. cbn [alter_at]. rewrite find_all_Tag in *.
    apply find_in_None in Hnone.
    apply list_elem_of_split_length in Hi as (l1 & l2 & -> & ->).
    apply Forall_app in Hnone as [Hl1 [[Hcm Hc] Hl2]%Forall_cons_1].
    rewrite alter_app_r_alt by lia. rewrite Nat.sub_diag. cbn [alter list_alter].
    rewrite find_all_in_app. apply find_in_None with (i := 0%nat) in Hl1.
    apply head_None in Hl1. rewrite Hl1. cbn [app].
    rewrite find_in_cons, matches_alter_at, Hcm by done.
    fold (find q (alter_at f p c)). rewrite (IH c Hc); [done| |by eexists].
    intros m' Hm'. apply Hr. simpl. by rewrite list_lookup_middle.
Qed.
End Find.

(** ** The Locale Annotator: the alternate link *)

Lemma keeps_match_append (q : tag_filter) (c : node) : keeps_match q (append c).
Proof. by intros [|n a cs]. Qed.

Lemma keeps_match_insert_first (q : tag_filter) (c : node) : keeps_match q (insert_first c).
Proof. by intros [|n a cs]. Qed.

Lemma keeps_match_by_name_set_item (name key : string) (value : attr_value) :
  keeps_match (by_name name) (set_item key value).
Proof. by intros [|n a cs]. Qed.

(** What [find] by name returns is a tag of that name. *)
Lemma find_by_name (name : string) (soup : node) (p : path) :
  find (by_name name) soup = Some p ->
  exists attrs contents, get soup p = Some (Tag name attrs contents).
Proof.
  intros (m & Hget & Hm)%find_matches. destruct m as [|n attrs contents]; [done|].
  simpl in Hm. unfold by_name in Hm. apply bool_decide_eq_true in Hm as ->. eauto.
Qed.

Lemma is_Doctype_no_match (q : tag_filter) (l : list node) :
  Forall (fun c => matches q c = false /\ find q c = None) (List.filter is_Doctype l).
Proof.
  induction l as [|c l IH]; [constructor|]. simpl.
  destruct (is_Doctype c) eqn:Hc; [|done]. constructor; [|done].
  by destruct c as [[]|].
Qed.

(** The html element that is created is the one [find] returns
    afterwards. *)
Lemma create_html_find (contents : list node) :
  let soup := BeautifulSoup contents in
  find (by_name "html") (create_html soup).1 = Some (create_html soup).2 /\
  exists cs, get (create_html soup).1 (create_html soup).2 = Some (Tag "html" [] cs).
Proof.
  simpl. split.
  - unfold find. rewrite find_all_Tag, find_all_in_app.
    pose proof (is_Doctype_no_match (by_name "html") contents) as Hkept.
    apply (find_in_None _ 0) in Hkept. apply head_None in Hkept. rewrite Hkept.
    cbn [app]. by rewrite find_in_cons.
  - rewrite lookup_app_r by done. rewrite Nat.sub_diag. simpl. eauto.
Qed.

Lemma or_ru_idem (v : option attr_value) : or_ru (Some (or_ru v)) = or_ru v.
Proof.
  destruct v as [[s|l]|]; simpl; [| |done].
  - case_bool_decide as Hs; simpl; [done|]. by rewrite bool_decide_eq_false_2.
  - case_bool_decide as Hl; simpl; [done|]. by rewrite bool_decide_eq_false_2.
Qed.

Lemma html_stage_state (contents : list node) :
  let soup := BeautifulSoup contents in
  exists attrs cs,
    find (by_name "html") (html_stage soup).1 = Some (html_stage soup).2 /\
    get (html_stage soup).1 (html_stage soup).2 = Some (Tag "html" attrs cs).
Proof.
  intros soup. unfold html_stage.
  destruct (find (by_name "html") soup) as [h|] eqn:Hfind.
  - destruct (find_by_name _ _ _ Hfind) as (attrs & cs & Hget). by exists attrs, cs.
  - destruct (create_html_find contents) as (Hf & cs & Hget). by exists [], cs.
Qed.

(** The state [ensure_head] leaves: the html element is found, it has
    the language that was assigned, and the head element returned is
    the one [find] returns. *)
Lemma ensure_head_state (contents : list node) (is_uz_page : bool) :
  let soup := BeautifulSoup contents in
  (exists html_tag hattrs hcs lang,
     find (by_name "html") (ensure_head soup is_uz_page).1 = Some html_tag /\
     get (ensure_head soup is_uz_page).1 html_tag = Some (Tag "html" hattrs hcs) /\
     get_attr "lang" hattrs = Some lang /\
     (is_uz_page = false -> or_ru (Some lang) = lang)) /\
  (exists attrs cs,
     find (by_name "head") (ensure_head soup is_uz_page).1 = Some (ensure_head soup is_uz_page).2 /\
     get (ensure_head soup is_uz_page).1 (ensure_head soup is_uz_page).2
     = Some (Tag "head" attrs cs)).
Proof.
  intros soup. unfold ensure_head.
  destruct (html_stage_state contents) as (hattrs & hcs & Hfind0 & Hhtml).
  fold soup in Hfind0, Hhtml.
  destruct (html_stage soup) as [soup0 html_tag]. cbn [fst snd] in Hfind0, Hhtml.
  rewrite Hhtml. cbn [tag_get].
  set (lang := if is_uz_page then _ else _).
  assert (Hlang : is_uz_page = false -> or_ru (Some lang) = lang).
  { intros ->. apply or_ru_idem. }
  set (soup1 := alter_at (set_item "lang" lang) html_tag soup0).
  assert (Hhtml1 : get soup1 html_tag = Some (Tag "html" (set_attr "lang" lang hattrs) hcs)).
  { unfold soup1. by rewrite get_alter_at_self, Hhtml. }
  assert (Hfind1 : find (by_name "html") soup1 = Some html_tag).
  { apply find_alter_at_found; [apply keeps_match_by_name_set_item|done]. }
  destruct (find (by_name "head") soup1) as [head|] eqn:Hhead; cbn [fst snd].
  - split.
    + exists html_tag, (set_attr "lang" lang hattrs), hcs, lang.
      split_and!; [done|done|apply get_set_attr|done].
    + destruct (find_by_name _ _ _ Hhead) as (attrs & cs & Hget). by exists attrs, cs.
  - set (soup2 := alter_at (insert_first (Tag "head" [] [])) html_tag soup1).
    split.
    + exists html_tag, (set_attr "lang" lang hattrs), (Tag "head" [] [] :: hcs), lang.
      split_and!; [|  |apply get_set_attr|done].
      * apply find_alter_at_found; [apply keeps_match_insert_first|done].
      * unfold soup2. by rewrite get_alter_at_self, Hhtml1.
    + exists [], []. split.
      * apply find_alter_at_new; [apply keeps_match_insert_first|done| |by eexists].
        intros m Hm. rewrite Hhtml1 in Hm. by injection Hm as <-.
      * unfold soup2. by rewrite get_alter_at_below, Hhtml1.
Qed.

Lemma set_lang_and_hreflang_ensure (soup : node) (rel_path : string) (is_uz_page : bool) :
  set_lang_and_hreflang soup rel_path is_uz_page
  = alter_at (append (alternate_link rel_path is_uz_page))
             (ensure_head soup is_uz_page).2 (ensure_head soup is_uz_page).1.
Proof.
  unfold set_lang_and_hreflang, ensure_head, html_stage.
  destruct (match find (by_name "html") soup with
            | Some html_tag => (soup, html_tag)
            | None => create_html soup
            end) as [soup0 html_tag].
  by destruct (find (by_name "head") _).
Qed.

(** [set_lang_and_hreflang] leaves the new link as the last child of
    the element that [soup.find('head')] returns. *)
Lemma set_lang_and_hreflang_link (contents : list node) (rel_path : string)
    (is_uz_page : bool) :
  exists (head : path) attrs cs,
    find (by_name "head") (set_lang_and_hreflang (BeautifulSoup contents) rel_path is_uz_page)
    = Some head /\
    get (set_lang_and_hreflang (BeautifulSoup contents) rel_path is_uz_page) head
    = Some (Tag "head" attrs (cs ++ [alternate_link rel_path is_uz_page])).
Proof.
  rewrite set_lang_and_hreflang_ensure.
  destruct (ensure_head_state contents is_uz_page) as (_ & attrs & cs & Hfind & Hget).
  exists (ensure_head (BeautifulSoup contents) is_uz_page).2, attrs, cs. split.
  - apply find_alter_at_found; [apply keeps_match_append|done].
  - by rewrite get_alter_at_self, Hget.
Qed.

(** *** The href *)

(** [count] of a one-character pattern counts the occurrences of the
    character. *)
Lemma count_from_char (c : ascii) (s : string) :
  count_from (String c EmptyString) 0 s
  = length (filter (fun x => x = c) (String.list_ascii_of_string s)).
Proof.
  induction s as [|x s IH]; [done|]. cbn [count_from String.list_ascii_of_string].
  rewrite filter_cons. cbn [String.prefix String.length Nat.sub].
  destruct (Ascii.ascii_dec c x) as [->|Hne].
  - destruct (decide (x = x)); [|done]. simpl. rewrite IH.
    by destruct s.
  - destruct (decide (x = c)); [by subst|]. done.
Qed.

Lemma count_separators (rel_path : string) : count "/" rel_path = separators rel_path.
Proof. apply count_from_char. Qed.

Lemma alternate_href_output (rel_path : string) :
  alternate_href rel_path true = str_mul "../" (separators rel_path + 1) +:+ rel_path.
Proof. unfold alternate_href. by rewrite count_separators. Qed.

Lemma alternate_href_source (rel_path : string) :
  alternate_href rel_path false = str_mul "../" (separators rel_path) +:+ "uz/" +:+ rel_path.
Proof.
  unfold alternate_href. rewrite count_separators.
  case_bool_decide as Hd; [done|]. by replace (separators rel_path) with 0%nat by lia.
Qed.

(** C7: the link that the annotator leaves as the last child of the
    head element has, in the translated-output role, an href of d+1
    segments ["../"] followed by the relative path, d being the number
    of separators of the path, and in the source-annotation role an
    href of d segments ["../"], then ["uz/"], then the path. *)
Theorem alternate_link_href (contents : list node) (rel_path : string) :
  (exists (head : path) attrs cs,
     find (by_name "head") (set_lang_and_hreflang (BeautifulSoup contents) rel_path true)
     = Some head /\
     get (set_lang_and_hreflang (BeautifulSoup contents) rel_path true) head
     = Some (Tag "head" attrs
               (cs ++ [Tag "link"
                         [("rel", AttrStr "alternate"); ("hreflang", AttrStr "ru");
                          ("href", AttrStr (str_mul "../" (separators rel_path + 1)
                                            +:+ rel_path))]
                         []]))) /\
  (exists (head : path) attrs cs,
     find (by_name "head") (set_lang_and_hreflang (BeautifulSoup contents) rel_path false)
     = Some head /\
     get (set_lang_and_hreflang (BeautifulSoup contents) rel_path false) head
     = Some (Tag "head" attrs
               (cs ++ [Tag "link"
                         [("rel", AttrStr "alternate"); ("hreflang", AttrStr "uz");
                          ("href", AttrStr (str_mul "../" (separators rel_path)
                                            +:+ "uz/" +:+ rel_path))]
                         []]))).
Proof.
  split.
  - destruct (set_lang_and_hreflang_link contents rel_path true) as (head & attrs & cs & Hf & Hg).
    exists head, attrs, cs. split; [done|]. rewrite Hg. unfold alternate_link.
    by rewrite alternate_href_output.
  - destruct (set_lang_and_hreflang_link contents rel_path false) as (head & attrs & cs & Hf & Hg).
    exists head, attrs, cs. split; [done|]. rewrite Hg. unfold alternate_link.
    by rewrite alternate_href_source.
Qed.

(** The two instances the specification names: depth 2 gives
    ["../../../"], depth 0 gives ["../"]. *)
Lemma alternate_href_examples :
  alternate_href "a/b/c.html" true = "../../../a/b/c.html" /\
  alternate_href "index.html" true = "../index.html" /\
  alternate_href "a/b/c.html" false = "../../uz/a/b/c.html" /\
  alternate_href "index.html" false = "uz/index.html".
Proof. by vm_compute. Qed.

(** ** The document tree: counting matches *)

Section Count.
Variable q : tag_filter.

Lemma length_find_all_in (i : nat) (l : list node) :
  length (find_all_in q i l) = sum_list_with (count_incl q) l.
Proof.
  revert i. induction l as [|c l IH]; intros i; [done|].
  rewrite find_all_in_cons, !length_app, length_fmap, IH. cbn [sum_list_with].
  change (count_incl q c) with ((if matches q c then 1 else 0) + length (find_all q c))%nat.
  by destruct (matches q c).
Qed.

Lemma count_matches_Tag name attrs contents :
  count_matches q (Tag name attrs contents) = sum_list_with (count_incl q) contents.
Proof. unfold count_matches. by rewrite find_all_Tag, length_find_all_in. Qed.

Lemma count_matches_0 (n : node) : count_matches q n = 0%nat <-> find q n = None.
Proof.
  unfold count_matches, find. rewrite head_None. apply length_zero_iff_nil.
Qed.

(** A change that adds [k] matches below the changed node adds [k]
    matches to the tree. *)
Lemma count_alter_at (f : node -> node) (k : nat) (p : path) (n : node) :
  keeps_match q f ->
  is_Some (get n p) ->
  (forall m, get n p = Some m -> count_matches q (f m) = (count_matches q m + k)%nat) ->
  count_matches q (alter_at f p n) = (count_matches q n + k)%nat.
Proof.
  intros Hf. revert n. induction p as [|i p IH]; intros n [m Hm] Hk.
  - simpl in *. by apply Hk.
  - destruct n as [kind text|name attrs contents]; [done|].
    simpl in Hm. destruct (contents !! i) as [c|] eqn:Hi; [|done].
    cbn [alter_at]. rewrite !count_matches_Tag.
    apply list_elem_of_split_length in Hi as (l1 & l2 & -> & ->).
    rewrite alter_app_r_alt by lia. rewrite Nat.sub_diag. cbn [alter list_alter].
    rewrite !sum_list_with_app. cbn [sum_list_with].
    assert (count_incl q (alter_at f p c) = (count_incl q c + k)%nat) as ->; [|lia].
    unfold count_incl. rewrite matches_alter_at by done.
    rewrite (IH c); [lia|by eexists|].
    intros m' Hm'. apply Hk. simpl. by rewrite list_lookup_middle.
Qed.

(** Where nothing matches in a tree, nothing matches in a subtree. *)
Lemma find_None_below (n : node) (p : path) (m : node) :
  find q n = None -> p <> [] -> get n p = Some m ->
  matches q m = false /\ find q m = None.
Proof.
  revert n. induction p as [|i p IH]; intros n Hnone Hp Hget; [done|].
  destruct n as [kind text|name attrs contents]; [done|].
  simpl in Hget. destruct (contents !! i) as [c|] eqn:Hi; [|done].
  unfold find in Hnone. rewrite find_all_Tag in Hnone. apply find_in_None in Hnone.
  rewrite Forall_lookup in Hnone. destruct (Hnone i c Hi) as [Hcm Hc].
  destruct p as [|j p]; [simpl in Hget; by injection Hget as <-|].
  by apply (IH c).
Qed.

(** A matching child appended to a tag without matches is what
    [find] returns. *)
Lemma find_append_new name attrs contents (c : node) :
  find q (Tag name attrs contents) = None ->
  matches q c = true ->
  find q (Tag name attrs (contents ++ [c])) = Some [length contents].
Proof.
  unfold find. rewrite !find_all_Tag, find_all_in_app.
  intros Hnone%head_None Hc. rewrite Hnone. cbn [app]. by rewrite find_in_cons, Hc.
Qed.
End Count.

(** Decomposing the child that was just appended undoes the
    [append]. *)
Lemma decompose_append (soup : node) (p : path) (c : node) name attrs contents :
  get soup p = Some (Tag name attrs contents) ->
  decompose (p ++ [length contents]) (alter_at (append c) p soup) = soup.
Proof.
  intros Hget. unfold decompose.
  destruct (p ++ [length contents]) as [|i r] eqn:E; [by destruct p|]. rewrite <- E.
  rewrite removelast_last, last_last, alter_at_compose.
  apply alter_at_id. intros m Hm. rewrite Hget in Hm. injection Hm as <-.
  simpl. f_equal. rewrite (delete_middle contents [] c). apply app_nil_r.
Qed.

Lemma sum_filter_Doctype (g : node -> nat) (l : list node) :
  (sum_list_with g (List.filter is_Doctype l)
   + sum_list_with g (List.filter (fun c => negb (is_Doctype c)) l))%nat
  = sum_list_with g l.
Proof.
  induction l as [|c l IH]; [done|]. simpl. destruct (is_Doctype c); simpl; lia.
Qed.

(** Creating the html and body elements adds them and nothing else. *)
Lemma create_html_count (q : tag_filter) (contents : list node) :
  count_matches q (create_html (BeautifulSoup contents)).1
  = (count_matches q (BeautifulSoup contents)
     + (if q "html" [] then 1 else 0) + (if q "body" [] then 1 else 0))%nat.
Proof.
  unfold BeautifulSoup. cbn [create_html fst]. rewrite !count_matches_Tag.
  rewrite sum_list_with_app. cbn [sum_list_with].
  set (moved := List.filter (fun c => negb (is_Doctype c)) contents).
  assert (count_incl q (Tag "html" [] [Tag "body" [] moved])
          = ((if q "html" [] then 1 else 0) + (if q "body" [] then 1 else 0)
             + sum_list_with (count_incl q) moved)%nat) as ->.
  { unfold count_incl at 1. rewrite count_matches_Tag. cbn [sum_list_with matches].
    unfold count_incl at 1. rewrite count_matches_Tag. cbn [matches]. lia. }
  rewrite <- (sum_filter_Doctype (count_incl q) contents). fold moved. lia.
Qed.

Lemma html_stage_count (q : tag_filter) (contents : list node) :
  exists k,
    count_matches q (html_stage (BeautifulSoup contents)).1
    = (count_matches q (BeautifulSoup contents) + k)%nat /\
    (q "html" [] = false -> q "body" [] = false -> k = 0%nat) /\
    (find (by_name "html") (BeautifulSoup contents) = None -> q "body" [] = true ->
     (1 <= k)%nat).
Proof.
  unfold html_stage. destruct (find (by_name "html") (BeautifulSoup contents)).
  - exists 0%nat. split_and!; [simpl; lia|done|done].
  - exists ((if q "html" [] then 1 else 0) + (if q "body" [] then 1 else 0))%nat.
    split_and!.
    + rewrite create_html_count. lia.
    + by intros -> ->.
    + intros _ ->. lia.
Qed.

(** The rest of [ensure_head] adds at most the head element. *)
Lemma ensure_head_count (q : tag_filter) (contents : list node) (is_uz_page : bool) :
  (forall value, keeps_match q (set_item "lang" value)) ->
  exists k,
    count_matches q (ensure_head (BeautifulSoup contents) is_uz_page).1
    = (count_matches q (html_stage (BeautifulSoup contents)).1 + k)%nat /\
    (q "head" [] = false -> k = 0%nat).
Proof.
  intros Hq. unfold ensure_head.
  destruct (html_stage_state contents) as (hattrs & hcs & _ & Hhtml).
  destruct (html_stage (BeautifulSoup contents)) as [soup0 html_tag].
  cbn [fst snd] in Hhtml |- *. rewrite Hhtml. cbn [tag_get].
  set (lang := if is_uz_page then _ else _).
  set (soup1 := alter_at (set_item "lang" lang) html_tag soup0).
  assert (Hc1 : count_matches q soup1 = count_matches q soup0).
  { unfold soup1. rewrite (count_alter_at q _ 0); [lia|done|by eexists|].
    intros m Hm. rewrite Hhtml in Hm. injection Hm as <-. simpl.
    rewrite !count_matches_Tag. lia. }
  destruct (find (by_name "head") soup1) as [head|]; cbn [fst].
  - exists 0%nat. split; [lia|done].
  - exists (count_incl q (Tag "head" [] [])). split.
    + rewrite <- Hc1. apply count_alter_at; [apply keeps_match_insert_first| |].
      * unfold soup1. rewrite get_alter_at_self, Hhtml. by eexists.
      * intros [kind text|name attrs cs] Hm.
        { unfold soup1 in Hm. rewrite get_alter_at_self, Hhtml in Hm. done. }
        simpl. rewrite !count_matches_Tag. simpl. lia.
    + intros Hhead. unfold count_incl. simpl. rewrite Hhead.
      by rewrite count_matches_Tag.
Qed.

(** ** The Locale Annotator: running it again *)

Lemma process_russian_html_file_steps (soup : node) (rel_path : string) :
  process_russian_html_file soup rel_path
  = inject_language_switcher
      (set_lang_and_hreflang
         (remove_existing (alternate_filter "uz") (by_name "head")
            (remove_existing switcher_filter (by_name "body") soup))
         rel_path false)
      rel_path false.
Proof. done. Qed.

(** On a document without a match nothing is removed. *)
Lemma remove_existing_clean (q container : tag_filter) (soup : node) :
  find q soup = None -> remove_existing q container soup = soup.
Proof.
  intros Hnone. unfold remove_existing, find_below.
  destruct (find container soup) as [c|] eqn:Hc; [|done].
  destruct (find_matches _ _ _ Hc) as (m & Hm & _). rewrite Hm.
  destruct (find_None_below q soup c m Hnone) as [_ ->]; [|done|done].
  by eapply find_nonempty.
Qed.

(** A matching element that was appended to the container, itself
    without matches, is what gets removed. *)
Lemma remove_existing_appended (q container : tag_filter) (soup : node) (p : path)
    (c : node) name attrs contents :
  find container soup = Some p ->
  get soup p = Some (Tag name attrs contents) ->
  find q (Tag name attrs contents) = None ->
  matches q c = true ->
  remove_existing q container (alter_at (append c) p soup) = soup.
Proof.
  intros Hfind Hget Hnone Hc. unfold remove_existing, find_below.
  rewrite (find_alter_at_found container (append c) soup p (keeps_match_append _ _) Hfind).
  rewrite get_alter_at_self, Hget. cbn [fmap option_fmap option_map append].
  rewrite (find_append_new q name attrs contents c Hnone Hc). cbn [fmap option_fmap option_map].
  exact (decompose_append soup p c name attrs contents Hget).
Qed.

Lemma count_append (q : tag_filter) (c : node) (p : path) (soup : node) :
  tag_at soup p ->
  count_matches q (alter_at (append c) p soup)
  = (count_matches q soup + count_incl q c)%nat.
Proof.
  intros (name & attrs & contents & Hget).
  apply count_alter_at; [apply keeps_match_append|by eexists|].
  intros m Hm. rewrite Hget in Hm. injection Hm as <-. simpl.
  rewrite !count_matches_Tag, sum_list_with_app. simpl. lia.
Qed.

Lemma switcher_unaffected : unaffected_by_structure switcher_filter.
Proof.
  split_and!; try done. intros value [|name attrs contents]; [done|]. simpl.
  unfold switcher_filter. by rewrite get_set_attr_ne.
Qed.

Lemma alternate_unaffected (lang : string) : unaffected_by_structure (alternate_filter lang).
Proof.
  split_and!; try done. intros value [|name attrs contents]; [done|]. simpl.
  unfold alternate_filter. by rewrite !get_set_attr_ne.
Qed.

Lemma by_name_keeps_lang (name : string) (value : attr_value) :
  keeps_match (by_name name) (set_item "lang" value).
Proof. apply keeps_match_by_name_set_item. Qed.

(** [ensure_head] adds no match of a filter that its steps do not
    affect. *)
Lemma ensure_head_unaffected (q : tag_filter) (contents : list node) (is_uz_page : bool) :
  unaffected_by_structure q ->
  count_matches q (ensure_head (BeautifulSoup contents) is_uz_page).1
  = count_matches q (BeautifulSoup contents).
Proof.
  intros (Hlang & Hhtml & Hbody & Hhead).
  destruct (ensure_head_count q contents is_uz_page Hlang) as (k & -> & Hk).
  destruct (html_stage_count q contents) as (k' & -> & Hk' & _).
  rewrite (Hk Hhead), (Hk' Hhtml Hbody). lia.
Qed.

(** After [ensure_head] there is a body element if there was one, or
    if there was no html element. *)
Lemma ensure_head_body (contents : list node) (is_uz_page : bool) :
  is_Some (find (by_name "body") (BeautifulSoup contents)) \/
  find (by_name "html") (BeautifulSoup contents) = None ->
  (1 <= count_matches (by_name "body") (ensure_head (BeautifulSoup contents) is_uz_page).1)%nat.
Proof.
  intros Hbody.
  destruct (ensure_head_count (by_name "body") contents is_uz_page
              (by_name_keeps_lang "body")) as (k & -> & _).
  destruct (html_stage_count (by_name "body") contents) as (k' & -> & _ & Hk').
  destruct Hbody as [[b Hb]|Hhtml].
  - assert (count_matches (by_name "body") (BeautifulSoup contents) <> 0%nat); [|lia].
    rewrite count_matches_0. congruence.
  - specialize (Hk' Hhtml eq_refl). lia.
Qed.

(** Running [ensure_head] on its own result changes nothing. *)
Lemma ensure_head_idem (contents : list node) :
  ensure_head (ensure_head (BeautifulSoup contents) false).1 false
  = ensure_head (BeautifulSoup contents) false.
Proof.
  destruct (ensure_head_state contents false)
    as ((h & hattrs & hcs & lang & Hhtml & Hget & Hlang & Hru) & (attrs & cs & Hhead & _)).
  destruct (ensure_head (BeautifulSoup contents) false) as [d0 head].
  cbn [fst snd] in *. unfold ensure_head, html_stage. rewrite Hhtml, Hget. cbn [tag_get].
  rewrite Hlang, (Hru eq_refl).
  rewrite (alter_at_id (set_item "lang" lang) h d0).
  - by rewrite Hhead.
  - intros m Hm. rewrite Hget in Hm. injection Hm as <-. simpl.
    by rewrite set_attr_same.
Qed.

Lemma injected_counts (rel_path : string) :
  count_incl (alternate_filter "uz") (alternate_link rel_path false) = 1%nat /\
  count_incl switcher_filter (alternate_link rel_path false) = 0%nat /\
  count_incl (alternate_filter "uz") (language_switcher rel_path false) = 0%nat /\
  count_incl switcher_filter (language_switcher rel_path false) = 1%nat.
Proof. by vm_compute. Qed.

(** C8, as the code has it, in the source-annotation role: on a
    document that has a body element (or no html element, so that
    both are created) and holds no alternate link to the Uzbek page
    and no fixed-position bottom block of its own, a second run of
    the annotator removes the link and the control the first run
    injected and injects them again: the document after two runs is
    the document after one, with exactly one such link and exactly
    one such control. *)
Theorem source_annotation_idempotent (contents : list node) (rel_path : string) :
  find switcher_filter (BeautifulSoup contents) = None ->
  find (alternate_filter "uz") (BeautifulSoup contents) = None ->
  is_Some (find (by_name "body") (BeautifulSoup contents)) \/
  find (by_name "html") (BeautifulSoup contents) = None ->
  process_russian_html_file
    (process_russian_html_file (BeautifulSoup contents) rel_path) rel_path
  = process_russian_html_file (BeautifulSoup contents) rel_path /\
  count_matches (alternate_filter "uz")
    (process_russian_html_file (BeautifulSoup contents) rel_path) = 1%nat /\
  count_matches switcher_filter
    (process_russian_html_file (BeautifulSoup contents) rel_path) = 1%nat.
Proof.
  intros Hsw Halt Hbody. set (soup := BeautifulSoup contents) in *.
  destruct (injected_counts rel_path) as (Hc1 & Hc2 & Hc3 & Hc4).
  destruct (ensure_head_state contents false) as (_ & attrs & cs & Hhead & Hgethead).
  pose proof (ensure_head_idem contents) as Hidem.
  pose proof (ensure_head_unaffected _ contents false switcher_unaffected) as Hsw0.
  pose proof (ensure_head_unaffected _ contents false (alternate_unaffected "uz")) as Halt0.
  pose proof (ensure_head_body contents false Hbody) as Hbody0.
  fold soup in Hhead, Hgethead, Hidem, Hsw0, Halt0, Hbody0.
  set (d0 := (ensure_head soup false).1) in *.
  set (head := (ensure_head soup false).2) in *.
  rewrite (proj2 (count_matches_0 _ _) Hsw) in Hsw0.
  rewrite (proj2 (count_matches_0 _ _) Halt) in Halt0.
  set (link := alternate_link rel_path false) in *.
  set (switcher := language_switcher rel_path false) in *.
  set (A := alter_at (append link) head d0).
  assert (Htag : tag_at d0 head) by (by exists "head", attrs, cs).
  assert (HAalt : count_matches (alternate_filter "uz") A = 1%nat).
  { unfold A. rewrite count_append by done. lia. }
  assert (HAsw : count_matches switcher_filter A = 0%nat).
  { unfold A. rewrite count_append by done. lia. }
  assert (exists bp, find (by_name "body") A = Some bp) as [bp Hbp].
  { destruct (find (by_name "body") A) as [bp|] eqn:E; [by exists bp|].
    apply count_matches_0 in E. unfold A in E. rewrite count_append in E by done. lia. }
  destruct (find_by_name _ _ _ Hbp) as (battrs & bcs & Hgetbody).
  set (once := alter_at (append switcher) bp A).
  assert (Hbtag : tag_at A bp) by (by exists "body", battrs, bcs).
  (* the first run *)
  assert (Hfirst : process_russian_html_file soup rel_path = once).
  { rewrite (process_russian_html_file_steps soup).
    rewrite (remove_existing_clean switcher_filter _ soup Hsw).
    rewrite (remove_existing_clean (alternate_filter "uz") _ soup Halt).
    rewrite set_lang_and_hreflang_ensure. fold d0 head link A.
    unfold inject_language_switcher. by rewrite Hbp. }
  rewrite !Hfirst. split_and!.
  - (* the second run *)
    rewrite (process_russian_html_file_steps once).
    assert (remove_existing switcher_filter (by_name "body") once = A) as ->.
    { apply (remove_existing_appended _ _ A bp switcher "body" battrs bcs); [done|done| |].
      - apply (find_None_below switcher_filter A bp); [|by eapply find_nonempty|done].
        by apply count_matches_0.
      - unfold count_incl in Hc4.
        destruct (matches switcher_filter switcher); [done|].
        assert (count_matches switcher_filter switcher = 0%nat) by by vm_compute.
        lia. }
    assert (remove_existing (alternate_filter "uz") (by_name "head") A = d0) as ->.
    { apply (remove_existing_appended _ _ d0 head link "head" attrs cs); [done|done| |].
      - apply (find_None_below (alternate_filter "uz") d0 head); [|by eapply find_nonempty|done].
        by apply count_matches_0.
      - unfold count_incl in Hc1.
        destruct (matches (alternate_filter "uz") link); [done|].
        assert (count_matches (alternate_filter "uz") link = 0%nat) by by vm_compute.
        lia. }
    rewrite set_lang_and_hreflang_ensure. rewrite Hidem.
    fold d0 head link A. unfold inject_language_switcher. by rewrite Hbp.
  - unfold once. rewrite count_append by done. lia.
  - unfold once. rewrite count_append by done. lia.
Qed.

Lemma source_annotation_idempotent_witness :
  process_russian_html_file
    (process_russian_html_file sample_page "a/b.html") "a/b.html"
  = process_russian_html_file sample_page "a/b.html" /\
  count_matches (alternate_filter "uz")
    (process_russian_html_file sample_page "a/b.html") = 1%nat /\
  count_matches switcher_filter
    (process_russian_html_file sample_page "a/b.html") = 1%nat.
Proof.
  apply (source_annotation_idempotent
           [Tag "html" []
              [Tag "head" [] [];
               Tag "body" [] [Tag "p" [] [NavigableString PlainText "Salom"]]]]
           "a/b.html").
  - reflexivity.
  - reflexivity.
  - left. vm_compute. by eexists.
Defined.

(** C8, the counterexamples.  In the source-annotation role a page
    whose html element has no body gets no control at all, however
    often the annotator runs.  In the translated-output role nothing
    is removed: a page that went through that role once and goes
    through it again holds two links to the Russian page and two
    controls. *)
Lemma annotator_twice_not_exactly_one :
  count_matches switcher_filter
    (process_russian_html_file
       (process_russian_html_file frameset_page "index.html") "index.html") = 0%nat /\
  exists once twice : node,
    translated_page sample_page "index.html" = Returns once /\
    translated_page once "index.html" = Returns twice /\
    count_matches (alternate_filter "ru") twice = 2%nat /\
    count_matches switcher_filter twice = 2%nat.
Proof.
  split; [by vm_compute|].
  eexists _, _. split_and!; [by vm_compute|by vm_compute|by vm_compute|by vm_compute].
Qed.

(** The run of [main] on one page: the source is annotated in place
    first, the translation is made from the annotated source, and the
    translated page ends up with the link and the control of both
    roles. *)
Lemma translated_page_keeps_source_annotation :
  exists out : node,
    translated_page (process_russian_html_file sample_page "index.html") "index.html"
    = Returns out /\
    count_matches (alternate_filter "uz") out = 1%nat /\
    count_matches (alternate_filter "ru") out = 1%nat /\
    count_matches switcher_filter out = 2%nat.
Proof. eexists. split_and!; by vm_compute. Qed.

Lemma replace_in_html_overwrites_witness :
  exists soup',
    replace_in_html two_texts [[0; 0]; [0; 1; 0]]%nat [Some "bir"; None]
                    [("tip", [0%nat], "title")] [Some "maslahat"] [] []
    = Some soup' /\
    get soup' [0; 0]%nat = Some (NavigableString PlainText "bir") /\
    get soup' [0; 1; 0]%nat = Some (NavigableString PlainText "") /\
    attr_at soup' [0%nat] "title" = Some (AttrStr "maslahat").
Proof.
  destruct (replace_in_html_overwrites two_texts
              [[0; 0]; [0; 1; 0]]%nat [Some "bir"; None]
              [("tip", [0%nat], "title")] [Some "maslahat"] [] [])
    as (soup' & Hrun & Htexts & Hattrs & _).
  - apply NoDup_cons. split; [by intros ?%list_elem_of_singleton|apply NoDup_singleton].
  - intros p [->|[->|?%elem_of_nil]%elem_of_cons]%elem_of_cons; [| |done]; by eexists _, _.
  - intros old tag attr [[= -> -> ->]|?%elem_of_nil]%elem_of_cons; [|done]. by eexists _, _, _.
  - by intros old tag ?%elem_of_nil.
  - reflexivity.
  - reflexivity.
  - reflexivity.
  - exists soup'. split_and!; [done| | |].
    + destruct (Htexts 0%nat _ eq_refl) as (r & [= <-] & Hget). exact Hget.
    + destruct (Htexts 1%nat _ eq_refl) as (r & [= <-] & Hget). exact Hget.
    + destruct (Hattrs 0%nat "tip" [0%nat] "title" eq_refl) as (r & [= <-] & Hget).
      * intros [|j] old' Hj; [lia|done].
      * done.
      * exact Hget.
Defined.

(** C9, the counterexample: with a replacement sequence shorter than
    the list of units, here the two text runs extracted from
    [<p>one<b>two</b></p>] and one replacement, the second unit keeps
    its original text. *)
Lemma short_replacements_leave_unit_stale :
  extract_text_nodes two_texts = [[0; 0]; [0; 1; 0]]%nat /\
  exists soup',
    replace_in_html two_texts (extract_text_nodes two_texts) [Some "bir"] [] [] [] []
    = Some soup' /\
    get soup' [0; 1; 0]%nat = Some (NavigableString PlainText "two").
Proof. split; [by vm_compute|]. eexists. split; by vm_compute. Qed.

(** ** The glossary and the cache keys *)

Lemma prefix_append (s r : string) : String.prefix s (s +:+ r) = true.
Proof.
  induction s as [|c s IH]; simpl; [by destruct r|]. by destruct (Ascii.ascii_dec c c).
Qed.

(** The characters of a matched occurrence are passed over. *)
Lemma replace_from_skip (old new s r : string) :
  replace_from old new (String.length s) (s +:+ r) = replace_from old new 0 r.
Proof. induction s as [|c s IH]; [done|]. simpl. apply IH. Qed.

Lemma replace_from_occurrence (old new rest : string) :
  old <> "" ->
  replace_from old new 0 (old +:+ rest) = new +:+ replace_from old new 0 rest.
Proof.
  destruct old as [|a old']; [done|]. intros _.
  pose proof (prefix_append (String a old') rest) as Hp.
  simpl in Hp |- *. rewrite Hp, Nat.sub_0_r. by rewrite replace_from_skip.
Qed.

(** [str.replace], read from left to right: where the pattern occurs
    the replacement is written and the scan goes on behind the
    occurrence; elsewhere the character is kept. *)
Lemma replace_scan (old new : string) :
  old <> "" ->
  replace old new "" = "" /\
  (forall rest, replace old new (old +:+ rest) = new +:+ replace old new rest) /\
  (forall c rest, String.prefix old (String c rest) = false ->
                  replace old new (String c rest) = String c (replace old new rest)).
Proof.
  intros Hold. unfold replace. destruct old as [|a old]; [done|]. split_and!; [done| |].
  - intros rest. by apply replace_from_occurrence.
  - intros c rest Hpre. cbn [replace_from]. by rewrite Hpre.
Qed.

(** A rule of mode [exact] (or [dt]) rewrites the text with
    [str.replace] before the rules after it are applied. *)
Lemma apply_pre_glossary_exact (re_sub : regex_engine) (text source target : string)
    (glossary : list rule) :
  apply_pre_glossary re_sub text ((source, target, "exact") :: glossary)
  = apply_pre_glossary re_sub (replace source target text) glossary.
Proof. done. Qed.

Lemma all_texts_pre_glossary (re_sub : regex_engine) (soup : node) (glossary : list rule) :
  all_texts re_sub soup glossary
  = map (fun t => apply_pre_glossary re_sub t glossary) (raw_texts soup).
Proof.
  unfold all_texts, collect_texts_for_translation, raw_texts.
  rewrite !map_app, !map_map.
  rewrite (map_ext (fun '(t, _, _) => apply_pre_glossary re_sub t glossary)
             (fun x : string * path * string =>
                apply_pre_glossary re_sub (let '(t, _, _) := x in t) glossary))
    by (by intros [[t tag] a]).
  rewrite (map_ext (fun '(t, _) => apply_pre_glossary re_sub t glossary)
             (fun x : string * path =>
                apply_pre_glossary re_sub (let '(t, _) := x in t) glossary))
    by (by intros [t tag]).
  done.
Qed.

Lemma store_translations_cons (glossary : list rule) (src tgt : string)
    (pairs : list (string * string))
    (cache : gmap string string) (mapping : gmap string (option string)) :
  store_translations glossary ((src, tgt) :: pairs) cache mapping
  = store_translations glossary pairs
      (<[src := apply_post_glossary tgt glossary]> cache)
      (<[src := Some (apply_post_glossary tgt glossary)]> mapping).
Proof. done. Qed.

(** The second loop of [translate_unique] writes no key but the
    sources it is given. *)
Lemma store_translations_keys (glossary : list rule) (pairs : list (string * string))
    (cache : gmap string string) (mapping : gmap string (option string)) (key : string) :
  (store_translations glossary pairs cache mapping).1 !! key <> cache !! key ->
  key ∈ pairs.*1.
Proof.
  revert cache mapping. induction pairs as [|[src tgt] pairs IH]; intros cache mapping; [done|].
  rewrite store_translations_cons. intros Hne. destruct (decide (key = src)) as [->|Hkey]; [by left|]. right.
  eapply IH. intros Heq. apply Hne. rewrite Heq. by apply lookup_insert_ne.
Qed.

(** [translate_unique] writes no cache key but texts it was given. *)
Lemma translate_unique_cache_keys (tr : YandexTranslator) (svc : service) (fuel : nat)
    (texts : list string) (cache : gmap string string) (glossary : list rule)
    (calls : nat) (key : string) :
  (translate_unique tr svc fuel texts cache glossary calls).1.2 !! key <> cache !! key ->
  key ∈ texts.
Proof.
  unfold translate_unique.
  destruct (scan_texts_inv cache texts) as (Hdom & _ & _ & Hun).
  destruct (scan_texts cache texts) as [mapping unique]. cbn [fst snd] in *.
  destruct unique as [|t unique]; [done|].
  destruct (translate tr svc fuel (t :: unique) calls) as [[translated|e|] calls']; [|done..].
  destruct (store_translations glossary _ cache mapping) as [cache' mapping'] eqn:Hstore.
  cbn [fst snd]. intros Hne.
  assert (key ∈ (zip (t :: unique) translated).*1) as Hin.
  { apply (store_translations_keys glossary _ cache mapping). by rewrite Hstore. }
  apply list_elem_of_fmap in Hin as ([k v] & -> & Hin). apply elem_of_zip_l in Hin.
  simpl. apply Hdom. apply Hun in Hin. rewrite Hin. by eexists.
Qed.

(** [process_html_file] hands [all_texts] to [translate_unique]. *)
Lemma process_html_file_cache (re_sub : regex_engine) (tr : YandexTranslator)
    (svc : service) (fuel : nat) (soup : node) (rel_path : string)
    (glossary : list rule) (w : world) :
  cache_of (process_html_file re_sub tr svc fuel soup rel_path glossary w).2
  = (translate_unique tr svc fuel (all_texts re_sub soup glossary)
                      (cache_of w) glossary (calls_of w)).1.2.
Proof.
  unfold process_html_file, all_texts.
  destruct (collect_texts_for_translation re_sub soup glossary)
    as [[[[[nodes node_texts] attr_items] attr_texts] meta_items] meta_texts].
  destruct (translate_unique _ _ _ _ _ _ _) as [[[mapping|e|] cache'] calls']; [|done..].
  by destruct (replace_in_html _ _ _ _ _ _ _).
Qed.

(** C6: the texts [process_html_file] hands to [translate_unique] are
    the extracted texts (text runs, attribute values, meta contents)
    after [apply_pre_glossary]; the keys looked up in the cache (one
    lookup per key of the mapping) and the keys written to the cache
    are among these texts; and a rule of mode [exact] replaces, with
    [str.replace], every occurrence of its source found scanning the
    text from left to right, before the text is used as a key. *)
Theorem cache_keys_are_pre_glossary_texts (re_sub : regex_engine) (tr : YandexTranslator)
    (svc : service) (fuel : nat) (soup : node) (rel_path : string)
    (glossary : list rule) (w : world) :
  all_texts re_sub soup glossary
  = map (fun t => apply_pre_glossary re_sub t glossary) (raw_texts soup) /\
  (forall key,
     is_Some ((scan_texts (cache_of w) (all_texts re_sub soup glossary)).1 !! key) <->
     exists t, t ∈ raw_texts soup /\ key = apply_pre_glossary re_sub t glossary) /\
  (forall key,
     cache_of (process_html_file re_sub tr svc fuel soup rel_path glossary w).2 !! key
     <> cache_of w !! key ->
     exists t, t ∈ raw_texts soup /\ key = apply_pre_glossary re_sub t glossary) /\
  (forall text source target rest,
     apply_pre_glossary re_sub text ((source, target, "exact") :: rest)
     = apply_pre_glossary re_sub (replace source target text) rest) /\
  (forall source target, source <> "" ->
     replace source target "" = "" /\
     (forall rest, replace source target (source +:+ rest)
                   = target +:+ replace source target rest) /\
     (forall c rest, String.prefix source (String c rest) = false ->
                     replace source target (String c rest)
                     = String c (replace source target rest))).
Proof.
  assert (Hmem : forall key, key ∈ all_texts re_sub soup glossary <->
            exists t, t ∈ raw_texts soup /\ key = apply_pre_glossary re_sub t glossary).
  { intros key. rewrite all_texts_pre_glossary, list_elem_of_fmap.
    split; [intros (t & -> & Hin)|intros (t & Hin & ->)]; by exists t. }
  split_and!.
  - apply all_texts_pre_glossary.
  - intros key. rewrite <- Hmem.
    by destruct (scan_texts_inv (cache_of w) (all_texts re_sub soup glossary)) as (Hdom & _).
  - intros key Hne. apply Hmem. rewrite process_html_file_cache in Hne.
    by eapply translate_unique_cache_keys.
  - intros. apply apply_pre_glossary_exact.
  - intros source target. apply replace_scan.
Qed.

(** *** The post-translation glossary *)

Lemma prefix_true_append (s1 s2 : string) :
  String.prefix s1 s2 = true -> exists r, s2 = s1 +:+ r.
Proof.
  revert s2. induction s1 as [|a s1 IH]; intros s2; [by exists s2|].
  destruct s2 as [|b s2]; [done|]. simpl.
  destruct (Ascii.ascii_dec a b) as [->|]; [|done].
  intros (r & ->)%IH. by exists r.
Qed.

Lemma insert_after_each_empty (s : string) : insert_after_each "" s = s.
Proof. induction s as [|c s IH]; [done|]. simpl. by rewrite IH. Qed.

Lemma length_append (s r : string) :
  String.length (s +:+ r) = (String.length s + String.length r)%nat.
Proof. induction s as [|c s IH]; [done|]. simpl. by rewrite IH. Qed.

Lemma replace_from_same (x : string) (n : nat) (s : string) :
  x <> "" -> (String.length s <= n)%nat -> replace_from x x 0 s = s.
Proof.
  intros Hx. revert s. induction n as [|n IH]; intros s Hlen.
  - destruct s; [done|simpl in Hlen; lia].
  - destruct s as [|c s]; [done|].
    destruct (String.prefix x (String c s)) eqn:Hpre.
    + destruct (prefix_true_append _ _ Hpre) as (r & Hr). rewrite Hr.
      rewrite replace_from_occurrence by done. rewrite IH; [done|].
      apply (f_equal String.length) in Hr. rewrite length_append in Hr.
      simpl in Hlen, Hr. destruct x; [done|]. simpl in Hr. lia.
    + cbn [replace_from]. rewrite Hpre. rewrite IH; [done|]. simpl in Hlen. lia.
Qed.

(** Replacing a text by itself changes nothing. *)
Lemma replace_same (x s : string) : replace x x s = s.
Proof.
  unfold replace. destruct x as [|a x]; [apply insert_after_each_empty|].
  by apply (replace_from_same _ (String.length s)).
Qed.

(** X1: [apply_post_glossary] changes nothing: each of its rules
    replaces the target term by itself, so the function returns the
    text it was given, for every text and every glossary. *)
Lemma apply_post_glossary_id (text : string) (glossary : list rule) :
  apply_post_glossary text glossary = text.
Proof.
  unfold apply_post_glossary. revert text.
  induction glossary as [|[[source target] mode] glossary IH]; intros text; [done|].
  simpl. destruct (_ || _); [rewrite replace_same|]; apply IH.
Qed.

(** ** The batches and the requests of [translate], for any service *)

Section Greedy.
Variable tr : YandexTranslator.

Lemma build_batch_head (t x : string) (rest b r : list string) :
  build_batch tr (t :: rest) [] 0 = (x :: b, r) -> x = t.
Proof.
  intros H. apply build_batch_app in H. simpl in H. by injection H.
Qed.

(** The inner loop stops before the end of the input only on one of
    its two limits. *)
Lemma build_batch_stop (rest batch b r : list string) (chars : Z) (t : string) :
  chars = total_chars batch ->
  build_batch tr rest batch chars = (b, t :: r) ->
  batch_size tr <= Z.of_nat (length b) \/
  (b <> [] /\ max_chars tr < total_chars b + len t).
Proof.
  revert batch chars. induction rest as [|next rest IH]; intros batch chars Hc; simpl.
  - intros H. inversion H.
  - destruct (Z.of_nat (length batch) <? batch_size tr) eqn:Hn.
    + destruct ((max_chars tr <? chars + len next) && negb (bool_decide (batch = [])))
        eqn:Hfull.
      * intros [= <- <- <-]. right.
        apply andb_true_iff in Hfull as [H1 H2].
        apply Z.ltb_lt in H1. apply negb_true_iff, bool_decide_eq_false in H2.
        split; [done | lia].
      * intros H. eapply IH; [|exact H].
        subst chars. rewrite total_chars_app. unfold total_chars. simpl. lia.
    + intros [= <- <- <-]. left. apply Z.ltb_ge in Hn. lia.
Qed.

(** The inner loop takes the whole input when it fits both limits. *)
Lemma build_batch_all (rest batch : list string) (chars : Z) :
  chars = total_chars batch ->
  Z.of_nat (length (batch ++ rest)) <= batch_size tr ->
  total_chars (batch ++ rest) <= max_chars tr ->
  build_batch tr rest batch chars = (batch ++ rest, []).
Proof.
  revert batch chars. induction rest as [|next rest IH]; intros batch chars Hc Hn Hm; simpl.
  - by rewrite app_nil_r.
  - rewrite length_app in Hn. simpl in Hn.
    assert ((Z.of_nat (length batch) <? batch_size tr) = true) as -> by (apply Z.ltb_lt; lia).
    assert ((max_chars tr <? chars + len next) = false) as ->.
    { apply Z.ltb_ge. rewrite total_chars_app in Hm.
      change (total_chars (next :: rest)) with (len next + total_chars rest) in Hm.
      pose proof (total_chars_nonneg rest). lia. }
    simpl. rewrite (IH (batch ++ [next]) (chars + len next)).
    + by rewrite <- app_assoc.
    + subst chars. rewrite total_chars_app. unfold total_chars. simpl. lia.
    + rewrite <- app_assoc. simpl. rewrite length_app. simpl. lia.
    + by rewrite <- app_assoc.
Qed.

(** With no room in a batch the outer loop never comes to an end. *)
Lemma batches_no_room (fuel : nat) (t : string) (texts : list string) :
  batch_size tr <= 0 -> batches tr fuel (t :: texts) = None.
Proof.
  intros Hn. induction fuel as [|fuel IH]; [done|].
  cbn [batches]. rewrite build_batch_no_room by done. by rewrite IH.
Qed.

(** Every batch is what the inner loop builds from some non-empty
    suffix of the input, and the batches after it are those of the
    suffix it leaves. *)
Lemma batches_lookup (fuel : nat) (texts : list string) (bs : list (list string))
    (i : nat) (b : list string) :
  batches tr fuel texts = Some bs ->
  bs !! i = Some b ->
  exists fuel' t rest r,
    build_batch tr (t :: rest) [] 0 = (b, r) /\
    batches tr fuel' r = Some (drop (S i) bs).
Proof.
  revert texts bs i. induction fuel as [|fuel IH]; intros [|t rest] bs i; cbn [batches];
    try (intros [= <-]; by rewrite lookup_nil); try done.
  destruct (build_batch tr (t :: rest) [] 0) as [batch rest'] eqn:Hb.
  destruct (batches tr fuel rest') as [bs0|] eqn:Hbs; [|intros H; inversion H].
  intros [= <-]. destruct i as [|i]; simpl.
  - intros [= <-]. exists fuel, t, rest, rest'. by rewrite drop_0.
  - intros Hi. by apply (IH rest' bs0 i).
Qed.

End Greedy.

Section Requests.
Variable svc : service.

(** One retry loop makes at least one request and at most one for
    each attempt left. *)
Lemma call_with_retries_calls (batch : list string) (attempts : list nat)
    (calls : nat) (r : attempt_result) (calls' : nat) :
  call_with_retries svc batch attempts calls = (r, calls') ->
  (calls <= calls' <= calls + length attempts)%nat.
Proof.
  revert calls. induction attempts as [|attempt attempts IH]; intros calls; simpl.
  - intros [= _ <-]. lia.
  - destruct (translate_batch svc calls batch) as [[| |]|translated].
    + intros Hr. apply IH in Hr. lia.
    + case_bool_decide.
      * intros [= _ <-]. lia.
      * intros Hr. apply IH in Hr. lia.
    + intros [= _ <-]. lia.
    + intros [= _ <-]. lia.
Qed.

(** The retry loop gives up on the last of the six attempts only, and
    only for a failure that is not a rate limit. *)
Lemma call_with_retries_failed (batch : list string) (a m calls : nat) (e : exn)
    (calls' : nat) :
  (a + m = 6)%nat ->
  call_with_retries svc batch (seq a m) calls = (Failed e, calls') ->
  e = RequestException /\ calls' = (calls + m)%nat.
Proof.
  revert a calls. induction m as [|m IH]; intros a calls Ham; simpl; [done|].
  destruct (translate_batch svc calls batch) as [e'|translated] eqn:Hcall; [|done].
  destruct (translate_batch_exn svc _ _ _ Hcall) as [-> | ->].
  - intros Hr. apply IH in Hr as [-> ->]; [split; [done | lia] | lia].
  - case_bool_decide.
    + intros [= <- <-]. split; [done | lia].
    + intros Hr. apply IH in Hr as [-> ->]; [split; [done | lia] | lia].
Qed.

Lemma translate_loop_calls (tr : YandexTranslator) (fuel : nat)
    (rest results : list string) (calls : nat) (o : outcome (list string)) (calls' : nat) :
  0 < batch_size tr ->
  translate_loop tr svc fuel rest results calls = (o, calls') ->
  (calls <= calls' <= calls + 6 * length rest)%nat.
Proof.
  intros Hn. revert rest results calls.
  induction fuel as [|fuel IH]; intros [|t rest] results calls; cbn [translate_loop];
    try (intros [= _ <-]; lia).
  destruct (build_batch tr (t :: rest) [] 0) as [batch rest'] eqn:Hb.
  destruct (build_batch_progress tr _ _ _ _ Hn Hb) as [_ Hlen].
  destruct (call_with_retries svc batch (range 6) calls) as [r c1] eqn:Hr.
  apply call_with_retries_calls in Hr.
  change (length (range 6)) with 6%nat in Hr. cbn [length].
  destruct r as [translated| |e].
  - intros H. apply IH in H. lia.
  - intros H. apply IH in H. lia.
  - intros [= _ <-]. lia.
Qed.

Lemma translate_loop_raises (tr : YandexTranslator) (fuel : nat)
    (rest results : list string) (calls : nat) (e : exn) (calls' : nat) :
  translate_loop tr svc fuel rest results calls = (Raises e, calls') ->
  e = RequestException /\ (calls + 6 <= calls')%nat.
Proof.
  revert rest results calls.
  induction fuel as [|fuel IH]; intros [|t rest] results calls; cbn [translate_loop];
    try done.
  destruct (build_batch tr (t :: rest) [] 0) as [batch rest'] eqn:Hb.
  destruct (call_with_retries svc batch (range 6) calls) as [r c1] eqn:Hr.
  destruct r as [translated| |e'].
  - intros H. apply IH in H as [-> H]. apply call_with_retries_calls in Hr.
    split; [done | lia].
  - intros H. apply IH in H as [-> H]. apply call_with_retries_calls in Hr.
    split; [done | lia].
  - intros [= <- <-]. apply (call_with_retries_failed _ 0 6) in Hr as [-> ->]; [|done].
    split; [done | lia].
Qed.

End Requests.

(** X2: [translate] closes a batch before the end of the input only
    when the batch holds [batch_size] texts or the next text would
    take it over [max_chars]: of two consecutive batches, the first
    is full or has no room for the first text of the second. *)
Theorem translate_batches_greedy (tr : YandexTranslator) (fuel : nat)
    (texts : list string) (bs : list (list string)) :
  batches tr fuel texts = Some bs ->
  (forall svc calls, translate tr svc fuel texts calls = send_all svc bs [] calls) /\
  forall (i : nat) (b b' : list string) (t : string),
    bs !! i = Some b -> bs !! S i = Some (t :: b') ->
    Z.of_nat (length b) = batch_size tr \/ max_chars tr < total_chars b + len t.
Proof.
  intros Hbs. split.
  { intros svc calls. by apply translate_loop_send_all. }
  intros i b b' t Hi Hi'.
  destruct (decide (0 < batch_size tr)) as [Hn|Hn].
  - destruct (batches_lookup tr _ _ _ _ _ Hbs Hi) as (fuel' & x & rest & r & Hb & Hr).
    destruct r as [|y r].
    { destruct fuel'; simpl in Hr; injection Hr as Hr;
        rewrite <- (Nat.add_0_r (S i)), <- lookup_drop, <- Hr in Hi'; done. }
    destruct (batches_lookup tr fuel' (y :: r) (drop (S i) bs) 0 (t :: b') Hr)
      as (_ & y' & r' & r'' & Hb' & _).
    { by rewrite lookup_drop, Nat.add_0_r. }
    assert (Hy : exists f2, batches tr (S f2) (y :: r) = Some (drop (S i) bs)).
    { destruct fuel'; [done | by eexists]. }
    destruct Hy as [f2 Hy]. cbn [batches] in Hy.
    destruct (build_batch tr (y :: r) [] 0) as [c rc] eqn:Hc.
    destruct (batches tr f2 rc) as [bs2|]; [|done].
    injection Hy as Hy.
    assert (c = t :: b') as ->.
    { rewrite <- (Nat.add_0_r (S i)), <- lookup_drop, <- Hy in Hi'. by injection Hi'. }
    apply build_batch_head in Hc as ->.
    destruct (build_batch_good tr _ _ _ _ Hn Hb) as (_ & Hle & _).
    destruct (build_batch_stop tr _ _ _ _ _ _ eq_refl Hb) as [H | [_ H]]; [left; lia | by right].
  - destruct texts as [|x texts].
    + destruct fuel; simpl in Hbs; injection Hbs as <-; by rewrite lookup_nil in Hi.
    + rewrite batches_no_room in Hbs by lia. done.
Qed.

Lemma translate_batches_greedy_witness :
  (forall svc calls,
     translate {| api_key := "k"; folder_id := "f"; batch_size := 2; max_chars := 5;
                  rpm := 300 |} svc 4 ["ab"; "cd"; "efgh"; "ij"] calls
     = send_all svc [["ab"; "cd"]; ["efgh"]; ["ij"]] [] calls) /\
  forall (i : nat) (b b' : list string) (t : string),
    [["ab"; "cd"]; ["efgh"]; ["ij"]] !! i = Some b ->
    [["ab"; "cd"]; ["efgh"]; ["ij"]] !! S i = Some (t :: b') ->
    Z.of_nat (length b) = 2 \/ 5 < total_chars b + len t.
Proof.
  exact (translate_batches_greedy
           {| api_key := "k"; folder_id := "f"; batch_size := 2; max_chars := 5;
              rpm := 300 |} 4 ["ab"; "cd"; "efgh"; "ij"] _ eq_refl).
Defined.

(** X3: whatever the service answers and however the call ends,
    [translate] makes at most six requests for each text it was
    given. *)
Theorem translate_request_bound (tr : YandexTranslator) (svc : service) (fuel : nat)
    (texts : list string) (calls : nat) (o : outcome (list string)) (calls' : nat) :
  0 < batch_size tr ->
  translate tr svc fuel texts calls = (o, calls') ->
  (calls <= calls' <= calls + 6 * length texts)%nat.
Proof. intros Hn. apply translate_loop_calls, Hn. Qed.

Lemma translate_request_bound_witness :
  translate default_translator always_rate_limited 1 ["a"] 0 = (Returns [], 6%nat) /\
  (0 <= 6 <= 0 + 6 * length ["a"])%nat.
Proof.
  split; [reflexivity|].
  apply (translate_request_bound default_translator always_rate_limited 1 ["a"] 0
                                 (Returns []) 6); [done | reflexivity].
Defined.

(** X4: a rate limit never propagates out of [translate], and a
    request failure propagates only after six requests or more were
    made, whatever the service does.  Of exceptions of other kinds
    the statement says nothing. *)
Theorem translate_rate_limit_never_propagates (tr : YandexTranslator) (svc : service)
    (fuel : nat) (texts : list string) (calls : nat) (e : exn) (calls' : nat) :
  translate tr svc fuel texts calls = (Raises e, calls') ->
  e <> RateLimitError /\
  (e = RequestException -> (calls + 6 <= calls')%nat).
Proof.
  intros Hrun. apply translate_loop_raises in Hrun as [-> Hcalls]. done.
Qed.

Lemma translate_rate_limit_never_propagates_witness :
  translate default_translator unreachable 1 ["a"] 0 = (Raises RequestException, 6%nat) /\
  RequestException <> RateLimitError /\
  (RequestException = RequestException -> (0 + 6 <= 6)%nat).
Proof.
  split; [reflexivity|].
  apply (translate_rate_limit_never_propagates default_translator unreachable 1 ["a"] 0
                                               RequestException 6).
  reflexivity.
Defined.

(** X5: against a service whose every request fails without being a
    rate limit, [translate] raises on the first batch after exactly
    six requests, for any non-empty input and any limits; the texts
    after that batch are never sent. *)
Theorem translate_persistent_failure (tr : YandexTranslator) (svc : service)
    (fuel : nat) (t : string) (texts : list string) (calls : nat) :
  (forall n batch, translate_batch svc n batch = inl RequestException) ->
  translate tr svc (S fuel) (t :: texts) calls
  = (Raises RequestException, (calls + 6)%nat).
Proof.
  intros Hsvc. unfold translate. cbn [translate_loop].
  destruct (build_batch tr (t :: texts) [] 0) as [batch rest].
  by rewrite call_with_retries_unreachable.
Qed.

Lemma translate_persistent_failure_witness :
  translate default_translator (fun _ _ => Response 503 []) 3 ["a"; "b"; "c"] 2
  = (Raises RequestException, 8%nat).
Proof.
  apply (translate_persistent_failure default_translator (fun _ _ => Response 503 [])
                                      2 "a" ["b"; "c"] 2).
  reflexivity.
Defined.

(** X6: texts that fit both limits together go out as one batch, and
    when the first request is answered [translate] returns the
    answer as it came, its length unchecked, after that one
    request. *)
Theorem translate_single_request (tr : YandexTranslator) (svc : service) (fuel : nat)
    (texts : list string) (calls : nat) (answer : list string) :
  texts <> [] ->
  Z.of_nat (length texts) <= batch_size tr ->
  total_chars texts <= max_chars tr ->
  translate_batch svc calls texts = inr answer ->
  translate tr svc (S fuel) texts calls = (Returns answer, S calls).
Proof.
  intros Hne Hn Hm Hcall. unfold translate.
  destruct texts as [|t texts]; [done|]. cbn [translate_loop].
  rewrite (build_batch_all tr (t :: texts) [] 0 eq_refl Hn Hm). simpl.
  rewrite Hcall. by destruct fuel.
Qed.

Lemma translate_single_request_witness :
  translate default_translator (fun _ _ => Response 200 ["x"]) 1 ["a"; "b"] 0
  = (Returns ["x"], 1%nat).
Proof.
  apply (translate_single_request default_translator (fun _ _ => Response 200 ["x"])
                                  0 ["a"; "b"] 0 ["x"]); [done | done | done | reflexivity].
Defined.

(** ** More on [translate_unique]: the mapping and the cache *)

Lemma translate_answered (tr : YandexTranslator) (svc : service) (f : string -> string)
    (fuel : nat) (texts : list string) (calls : nat) :
  0 < batch_size tr ->
  answers_within f svc 6 ->
  (length texts <= fuel)%nat ->
  exists calls', translate tr svc fuel texts calls = (Returns (map f texts), calls').
Proof.
  intros Hn Hsvc Hfuel.
  destruct (batches_total tr fuel texts Hn Hfuel) as (bs & Hbs & Hcat & _).
  destruct (send_all_answered svc f bs [] calls Hsvc) as [calls' Hs].
  exists calls'. unfold translate.
  by rewrite (translate_loop_send_all tr svc _ _ _ _ _ Hbs), Hs, Hcat.
Qed.

Lemma or_None_Some (x : option string) (v : string) :
  or_None x = Some v <-> x = Some v /\ v <> "".
Proof.
  destruct x as [w|]; simpl; [|split; [done | by intros [? _]]].
  case_bool_decide as Hw; split.
  - done.
  - intros [[= ->] ?]. done.
  - intros [= ->]. done.
  - intros [[= ->] _]. done.
Qed.

Lemma zip_map_self {A B : Type} (f : A -> B) (l : list A) :
  zip l (map f l) = (fun t => (t, f t)) <$> l.
Proof. induction l as [|t l IH]; simpl; [done | by rewrite IH]. Qed.

Section Store.
Variable glossary : list rule.

(** The second loop leaves the texts it does not list as they are. *)
Lemma store_translations_other (pairs : list (string * string))
    (cache : gmap string string) (mapping : gmap string (option string)) (t : string) :
  t ∉ pairs.*1 ->
  (store_translations glossary pairs cache mapping).1 !! t = cache !! t /\
  (store_translations glossary pairs cache mapping).2 !! t = mapping !! t.
Proof.
  revert cache mapping. induction pairs as [|[src tgt] pairs IH]; intros cache mapping Ht.
  - done.
  - rewrite store_translations_cons. rewrite fmap_cons in Ht.
    apply not_elem_of_cons in Ht as [Hne Ht]. simpl in Hne.
    destruct (IH (<[src := apply_post_glossary tgt glossary]> cache)
                 (<[src := Some (apply_post_glossary tgt glossary)]> mapping) Ht)
      as [-> ->].
    by rewrite !lookup_insert_ne.
Qed.

(** A text it lists ends with one of the translations listed for it,
    the same in the cache and in the mapping. *)
Lemma store_translations_written (pairs : list (string * string))
    (cache : gmap string string) (mapping : gmap string (option string)) (t : string) :
  t ∈ pairs.*1 ->
  exists tgt,
    (t, tgt) ∈ pairs /\
    (store_translations glossary pairs cache mapping).1 !! t
    = Some (apply_post_glossary tgt glossary) /\
    (store_translations glossary pairs cache mapping).2 !! t
    = Some (Some (apply_post_glossary tgt glossary)).
Proof.
  revert cache mapping. induction pairs as [|[src tgt] pairs IH]; intros cache mapping Ht.
  - by apply elem_of_nil in Ht.
  - rewrite store_translations_cons.
    destruct (decide (t ∈ pairs.*1)) as [Hin|Hout].
    + destruct (IH (<[src := apply_post_glossary tgt glossary]> cache)
                   (<[src := Some (apply_post_glossary tgt glossary)]> mapping) Hin)
        as (tgt' & Hp & Hc & Hm).
      exists tgt'. split; [by apply list_elem_of_further | done].
    + rewrite fmap_cons in Ht. apply elem_of_cons in Ht as [-> | Ht]; [|done]. simpl.
      destruct (store_translations_other pairs
                  (<[src := apply_post_glossary tgt glossary]> cache)
                  (<[src := Some (apply_post_glossary tgt glossary)]> mapping) src Hout)
        as [-> ->].
      exists tgt. rewrite !lookup_insert_eq. split; [apply list_elem_of_here | done].
Qed.

End Store.

(** What a call of [translate_unique] that returns leaves behind:
    the mapping holds the texts given and no other, a translation it
    holds is in the cache, and the cache differs from the one before
    on texts sent only. *)
Lemma translate_unique_returns (tr : YandexTranslator) (svc : service) (fuel : nat)
    (texts : list string) (cache : gmap string string) (glossary : list rule)
    (calls : nat) (mapping : gmap string (option string))
    (cache' : gmap string string) (calls' : nat) :
  translate_unique tr svc fuel texts cache glossary calls = (Returns mapping, cache', calls') ->
  (forall t, is_Some (mapping !! t) <-> t ∈ texts) /\
  (forall t v, mapping !! t = Some (Some v) -> cache' !! t = Some v) /\
  (forall t, t ∉ (scan_texts cache texts).2 ->
             cache' !! t = cache !! t /\
             (t ∈ texts -> mapping !! t = Some (or_None (cache !! t)))).
Proof.
  unfold translate_unique.
  pose proof (scan_texts_inv cache texts) as (Hdom & Hval & _ & Huniq).
  destruct (scan_texts cache texts) as [mapping0 unique]. simpl in *.
  destruct unique as [|u unique].
  - intros [= <- <- <-]. split; [done|]. split.
    + intros t v Ht. apply Hval in Ht. symmetry in Ht. by apply or_None_Some in Ht as [? _].
    + intros t _. split; [done|]. intros Ht. apply Hdom in Ht as [v Hv].
      by rewrite Hv, (Hval _ _ Hv).
  - destruct (translate tr svc fuel (u :: unique) calls) as [[translated| |] c1]; try done.
    set (pairs := zip (u :: unique) translated).
    assert (Hsub : forall t, t ∈ pairs.*1 -> t ∈ u :: unique).
    { intros t Ht. apply list_elem_of_fmap in Ht as ([t' tgt] & -> & Ht).
      by apply elem_of_zip_l in Ht. }
    destruct (store_translations glossary pairs cache mapping0) as [cache1 mapping1] eqn:Hst.
    intros [= <- <- <-].
    assert (Hother : forall t, t ∉ pairs.*1 ->
              cache1 !! t = cache !! t /\ mapping1 !! t = mapping0 !! t).
    { intros t Ht. pose proof (store_translations_other glossary pairs cache mapping0 t Ht) as H.
      by rewrite Hst in H. }
    assert (Hwritten : forall t, t ∈ pairs.*1 ->
              exists tgt, cache1 !! t = Some (apply_post_glossary tgt glossary) /\
                          mapping1 !! t = Some (Some (apply_post_glossary tgt glossary))).
    { intros t Ht.
      destruct (store_translations_written glossary pairs cache mapping0 t Ht)
        as (tgt & _ & H1 & H2).
      rewrite Hst in H1, H2. by exists tgt. }
    split; [|split].
    + intros t. destruct (decide (t ∈ pairs.*1)) as [Hin|Hout].
      * destruct (Hwritten t Hin) as (tgt & _ & ->). split; [|done].
        intros _. apply Hdom. apply Hsub, Huniq in Hin. by rewrite Hin.
      * destruct (Hother t Hout) as [_ ->]. apply Hdom.
    + intros t v Ht. destruct (decide (t ∈ pairs.*1)) as [Hin|Hout].
      * destruct (Hwritten t Hin) as (tgt & -> & Hm). rewrite Hm in Ht. by injection Ht as ->.
      * destruct (Hother t Hout) as [-> Hm]. rewrite Hm in Ht.
        apply Hval in Ht. symmetry in Ht. by apply or_None_Some in Ht as [? _].
    + intros t Ht.
      assert (Hout : t ∉ pairs.*1) by (intros Hin; by apply Ht, Hsub).
      destruct (Hother t Hout) as [-> ->]. split; [done|].
      intros Hin. apply Hdom in Hin as [v Hv]. by rewrite Hv, (Hval _ _ Hv).
Qed.

(** Against a service that answers, the call returns and the mapping
    gives every text its translation. *)
Lemma translate_unique_answered (tr : YandexTranslator) (svc : service)
    (f : string -> string) (fuel : nat) (texts : list string)
    (cache : gmap string string) (glossary : list rule) (calls : nat) :
  0 < batch_size tr ->
  answers_within f svc 6 ->
  (length texts <= fuel)%nat ->
  exists mapping cache' calls',
    translate_unique tr svc fuel texts cache glossary calls
    = (Returns mapping, cache', calls') /\
    (forall t, t ∈ texts ->
               mapping !! t = Some (Some (translation_of f cache glossary t))).
Proof.
  intros Hn Hsvc Hfuel. unfold translate_unique, translation_of.
  pose proof (scan_texts_inv cache texts) as (Hdom & Hval & Hnodup & Huniq).
  destruct (scan_texts cache texts) as [mapping0 unique]. simpl in *.
  assert (Hsub : forall t, t ∈ unique -> t ∈ texts).
  { intros t Ht. apply Hdom. apply Huniq in Ht. by rewrite Ht. }
  assert (Hmiss : forall t, t ∈ texts -> or_None (cache !! t) = None -> t ∈ unique).
  { intros t Ht Hc. apply Huniq. apply Hdom in Ht as [v Hv].
    by rewrite Hv, (Hval _ _ Hv), Hc. }
  assert (Hhit : forall t, t ∈ unique -> or_None (cache !! t) = None).
  { intros t Ht. apply Huniq in Ht. by rewrite <- (Hval _ _ Ht). }
  destruct unique as [|u unique].
  - exists mapping0, cache, calls. split; [done|].
    intros t Ht. destruct (or_None (cache !! t)) as [v|] eqn:Hc.
    + apply Hdom in Ht as [w Hw]. by rewrite Hw, (Hval _ _ Hw), Hc.
    + by apply Hmiss, elem_of_nil in Ht.
  - assert (Hlen : (length (u :: unique) <= fuel)%nat).
    { etrans; [|exact Hfuel]. apply submseteq_length, NoDup_submseteq; [done|].
      intros t Ht. by apply Hsub. }
    destruct (translate_answered tr svc f fuel (u :: unique) calls Hn Hsvc Hlen)
      as [c1 ->].
    rewrite zip_map_self.
    set (pairs := (fun t => (t, f t)) <$> (u :: unique)).
    assert (Hfst : pairs.*1 = u :: unique).
    { unfold pairs. rewrite <- list_fmap_compose. apply list_fmap_id. }
    assert (Hpairs : forall t tgt, (t, tgt) ∈ pairs -> tgt = f t).
    { intros t tgt Hp. unfold pairs in Hp.
      apply list_elem_of_fmap in Hp as (t' & [= -> ->] & _). done. }
    pose proof (store_translations_other glossary pairs cache mapping0) as Hother.
    pose proof (store_translations_written glossary pairs cache mapping0) as Hwritten.
    destruct (store_translations glossary pairs cache mapping0) as [cache1 mapping1].
    simpl in *. rewrite Hfst in Hother, Hwritten.
    exists mapping1, cache1, c1. split; [done|].
    intros t Ht. destruct (decide (t ∈ u :: unique)) as [Hin|Hout].
    + rewrite (Hhit t Hin). destruct (Hwritten t Hin) as (tgt & Hp & _ & H2).
      by apply Hpairs in Hp as ->.
    + destruct (Hother t Hout) as [_ ->].
      destruct (or_None (cache !! t)) as [v|] eqn:Hc; [|by apply Hmiss in Hc].
      apply Hdom in Ht as [w Hw']. by rewrite Hw', (Hval _ _ Hw'), Hc.
Qed.

(** X7: against a service that answers each batch within six
    attempts with the translation [f] of its texts, [translate_unique]
    returns a mapping that gives every text of the input its
    translation - the cached one when there is a non-empty one, else
    the service's after the post-glossary - and holds no other key;
    the cache gains the translations of the texts sent and is
    otherwise unchanged. *)
Theorem translate_unique_translates (tr : YandexTranslator) (svc : service)
    (f : string -> string) (fuel : nat) (texts : list string)
    (cache : gmap string string) (glossary : list rule) (calls : nat) :
  0 < batch_size tr ->
  answers_within f svc 6 ->
  (length texts <= fuel)%nat ->
  exists mapping cache' calls',
    translate_unique tr svc fuel texts cache glossary calls
    = (Returns mapping, cache', calls') /\
    (forall t, t ∈ texts ->
               mapping !! t = Some (Some (translation_of f cache glossary t))) /\
    (forall t, t ∉ texts -> mapping !! t = None /\ cache' !! t = cache !! t) /\
    (forall t, t ∈ texts -> or_None (cache !! t) = None ->
               cache' !! t = Some (apply_post_glossary (f t) glossary)) /\
    (forall t v, or_None (cache !! t) = Some v -> cache' !! t = cache !! t).
Proof.
  intros Hn Hsvc Hfuel.
  destruct (translate_unique_answered tr svc f fuel texts cache glossary calls Hn Hsvc Hfuel)
    as (mapping & cache' & calls' & Hrun & Hmap).
  destruct (translate_unique_returns _ _ _ _ _ _ _ _ _ _ Hrun) as (Hdom & Hcache & Hother).
  pose proof (scan_texts_inv cache texts) as (Hdom0 & Hval0 & _ & Huniq0).
  exists mapping, cache', calls'. split; [done|]. split; [done|]. split; [|split].
  - intros t Ht. split; [apply eq_None_not_Some; by rewrite Hdom|].
    apply Hother. intros Hin. apply Ht, Hdom0. apply Huniq0 in Hin. by rewrite Hin.
  - intros t Ht Hc. apply Hcache. rewrite (Hmap t Ht). unfold translation_of. by rewrite Hc.
  - intros t v Hc. apply Hother. intros Hin. apply Huniq0 in Hin.
    apply Hval0 in Hin. by rewrite Hc in Hin.
Qed.

Lemma translate_unique_translates_witness :
  exists mapping cache' calls',
    translate_unique default_translator (flaky (fun s => s +:+ "!")) 3 ["a"; "b"; "a"]
                     {["b" := "B"]} [] 0
    = (Returns mapping, cache', calls') /\
    mapping !! "a" = Some (Some "a!") /\
    mapping !! "b" = Some (Some "B") /\
    mapping !! "c" = None /\
    cache' !! "a" = Some "a!" /\
    cache' !! "b" = Some "B".
Proof.
  assert (Hsvc : answers_within (fun s => s +:+ "!") (flaky (fun s => s +:+ "!")) 6).
  { intros n batch. unfold translate_batch, flaky.
    destruct (Nat.even n) eqn:Hn.
    - exists 1%nat. split; [lia|]. split.
      + intros i Hi. assert (i = 0%nat) as -> by lia.
        rewrite Nat.add_0_r, Hn. by eexists.
      + by rewrite Nat.add_1_r, Nat.even_succ, <- Nat.negb_even, Hn.
    - exists 0%nat. split; [lia|]. split; [intros i Hi; lia|].
      by rewrite Nat.add_0_r, Hn. }
  destruct (translate_unique_translates default_translator (flaky (fun s => s +:+ "!"))
              (fun s => s +:+ "!") 3 ["a"; "b"; "a"] {["b" := "B"]} [] 0)
    as (mapping & cache' & calls' & Hrun & Hin & Hout & Hsent & Hkept);
    [done | exact Hsvc | simpl; lia |].
  exists mapping, cache', calls'. split; [exact Hrun|].
  split; [|split; [|split; [|split]]].
  - rewrite (Hin "a"); [done|]. apply list_elem_of_here.
  - rewrite (Hin "b"); [done|]. apply list_elem_of_further, list_elem_of_here.
  - apply Hout. intros H. by repeat (apply elem_of_cons in H as [? | H]; [done|]);
      apply elem_of_nil in H.
  - apply Hsent; [apply list_elem_of_here | done].
  - by rewrite (Hkept "b" "B").
Defined.

(** X8: a non-empty translation in the cache is final: whatever the
    service does and however the call ends, [translate_unique] leaves
    it in the cache as it is, and a call that returns gives exactly
    it for that text. *)
Theorem translate_unique_keeps_cached (tr : YandexTranslator) (svc : service)
    (fuel : nat) (texts : list string) (cache : gmap string string)
    (glossary : list rule) (calls : nat) (t v : string) :
  cache !! t = Some v ->
  v <> "" ->
  (translate_unique tr svc fuel texts cache glossary calls).1.2 !! t = Some v /\
  (forall mapping,
     (translate_unique tr svc fuel texts cache glossary calls).1.1 = Returns mapping ->
     t ∈ texts -> mapping !! t = Some (Some v)).
Proof.
  intros Hc Hv.
  assert (Hor : or_None (cache !! t) = Some v) by by apply or_None_Some.
  assert (Hout : t ∉ (scan_texts cache texts).2).
  { pose proof (scan_texts_inv cache texts) as (_ & Hval & _ & Huniq).
    intros Hin. apply Huniq in Hin. apply Hval in Hin. by rewrite Hor in Hin. }
  destruct (translate_unique tr svc fuel texts cache glossary calls)
    as [[[mapping| |] cache'] calls'] eqn:Hrun; simpl.
  - destruct (translate_unique_returns _ _ _ _ _ _ _ _ _ _ Hrun) as (_ & _ & Hother).
    destruct (Hother t Hout) as [-> Hm]. split; [done|].
    intros ? [= <-] Ht. by rewrite (Hm Ht), Hor.
  - split; [|done]. revert Hrun. unfold translate_unique.
    destruct (scan_texts cache texts) as [m0 [|u unique]]; [done|].
    destruct (translate tr svc fuel (u :: unique) calls) as [[?| |] ?];
      [destruct (store_translations _ _ _ _) | |]; by intros [= <- <-].
  - split; [|done]. revert Hrun. unfold translate_unique.
    destruct (scan_texts cache texts) as [m0 [|u unique]]; [done|].
    destruct (translate tr svc fuel (u :: unique) calls) as [[?| |] ?];
      [destruct (store_translations _ _ _ _) | |]; by intros [= <-].
Qed.

Lemma translate_unique_keeps_cached_witness :
  (translate_unique default_translator unreachable 1 ["a"; "b"] {["b" := "B"]} [] 0).1.2
    !! "b" = Some "B" /\
  (forall mapping,
     (translate_unique default_translator unreachable 1 ["a"; "b"] {["b" := "B"]} [] 0).1.1
     = Returns mapping ->
     "b" ∈ ["a"; "b"] -> mapping !! "b" = Some (Some "B")).
Proof.
  apply (translate_unique_keeps_cached default_translator unreachable 1 ["a"; "b"]
                                       {["b" := "B"]} [] 0 "b" "B"); done.
Defined.

(** X9: once a call of [translate_unique] has returned a non-empty
    translation for each of its texts, a later call on the same texts
    with the cache it left makes no request at all, whatever the
    service, and returns the same mapping. *)
Theorem translate_unique_second_run (tr : YandexTranslator) (svc : service) (fuel : nat)
    (texts : list string) (cache : gmap string string) (glossary : list rule)
    (calls : nat) (mapping : gmap string (option string))
    (cache' : gmap string string) (calls' : nat) :
  translate_unique tr svc fuel texts cache glossary calls = (Returns mapping, cache', calls') ->
  (forall t, t ∈ texts -> exists v, mapping !! t = Some (Some v) /\ v <> "") ->
  forall (tr2 : YandexTranslator) (svc2 : service) (fuel2 calls2 : nat),
    translate_unique tr2 svc2 fuel2 texts cache' glossary calls2
    = (Returns mapping, cache', calls2).
Proof.
  intros Hrun Hfull tr2 svc2 fuel2 calls2.
  destruct (translate_unique_returns _ _ _ _ _ _ _ _ _ _ Hrun) as (Hdom & Hcache & _).
  unfold translate_unique.
  pose proof (scan_texts_inv cache' texts) as (Hdom2 & Hval2 & _ & Huniq2).
  destruct (scan_texts cache' texts) as [mapping2 unique2]. simpl in *.
  assert (Hsame : forall t, t ∈ texts -> mapping2 !! t = mapping !! t).
  { intros t Ht. destruct (Hfull t Ht) as (v & Hm & Hv). rewrite Hm.
    apply Hdom2 in Ht as [w Hw]. rewrite Hw, (Hval2 _ _ Hw), (Hcache _ _ Hm).
    f_equal. by apply or_None_Some. }
  destruct unique2 as [|u unique2].
  - f_equal. f_equal. f_equal. apply map_eq. intros t.
    destruct (decide (t ∈ texts)) as [Hin|Hout]; [by apply Hsame|].
    transitivity (@None (option string)); [|symmetry];
      apply eq_None_not_Some; by rewrite ?Hdom, ?Hdom2.
  - exfalso. assert (Hu : mapping2 !! u = Some None) by apply Huniq2, list_elem_of_here.
    assert (Hin : u ∈ texts) by (apply Hdom2; by rewrite Hu).
    destruct (Hfull u Hin) as (v & Hm & _). rewrite (Hsame u Hin), Hm in Hu. done.
Qed.

Lemma translate_unique_second_run_witness :
  translate_unique default_translator (reliable (fun s => s +:+ "!")) 1 ["a"; "b"]
                   {["b" := "B"]} [] 0
  = (Returns {["a" := Some "a!"; "b" := Some "B"]}, {["a" := "a!"; "b" := "B"]}, 1%nat) /\
  translate_unique default_translator unreachable 0 ["a"; "b"]
                   {["a" := "a!"; "b" := "B"]} [] 5
  = (Returns {["a" := Some "a!"; "b" := Some "B"]}, {["a" := "a!"; "b" := "B"]}, 5%nat).
Proof.
  split; [reflexivity|].
  apply (translate_unique_second_run default_translator (reliable (fun s => s +:+ "!"))
                                     1 ["a"; "b"] {["b" := "B"]} [] 0 _ _ 1%nat).
  - reflexivity.
  - intros t Ht. apply elem_of_cons in Ht as [-> | Ht]; [by exists "a!"|].
    apply elem_of_cons in Ht as [-> | Ht]; [by exists "B"|].
    by apply elem_of_nil in Ht.
Defined.

(** X10: the mapping of a call of [translate_unique] that returns has
    the texts given as its keys, no more and no fewer; so for texts
    among those, the fallback of [replace_texts] to the text itself
    is never taken: every replacement is the entry of the mapping. *)
Theorem translate_unique_mapping_keys (tr : YandexTranslator) (svc : service)
    (fuel : nat) (texts : list string) (cache : gmap string string)
    (glossary : list rule) (calls : nat) (mapping : gmap string (option string))
    (cache' : gmap string string) (calls' : nat) :
  translate_unique tr svc fuel texts cache glossary calls = (Returns mapping, cache', calls') ->
  (forall t, is_Some (mapping !! t) <-> t ∈ texts) /\
  (forall node_texts, node_texts ⊆ texts ->
     Forall2 (fun t r => mapping !! t = Some r)
             node_texts (replace_texts node_texts mapping)).
Proof.
  intros Hrun.
  destruct (translate_unique_returns _ _ _ _ _ _ _ _ _ _ Hrun) as (Hdom & _ & _).
  split; [done|]. intros node_texts Hsub. unfold replace_texts.
  induction node_texts as [|t node_texts IH]; simpl; [constructor|].
  constructor.
  - destruct (proj2 (Hdom t)) as [r ->]; [apply Hsub, list_elem_of_here | done].
  - apply IH. intros x Hx. by apply Hsub, list_elem_of_further.
Qed.

Lemma translate_unique_mapping_keys_witness :
  (forall t, is_Some (({["a" := None]} : gmap string (option string)) !! t) <-> t ∈ ["a"]) /\
  (forall node_texts, node_texts ⊆ ["a"] ->
     Forall2 (fun t r => ({["a" := None]} : gmap string (option string)) !! t = Some r)
             node_texts (replace_texts node_texts {["a" := None]})).
Proof.
  apply (translate_unique_mapping_keys default_translator always_rate_limited 1 ["a"]
                                       ∅ [] 0 _ ∅ 6%nat).
  reflexivity.
Defined.

(** X11: [translate_unique] pairs the texts it sent with the
    translations [translate] returned by position, without comparing
    their numbers: the i-th text sent gets the i-th translation
    returned, whichever text that was the translation of, and a text
    beyond the end of a short answer gets none: it stays [None] in
    the mapping and is not cached. *)
Theorem translate_unique_pairs_by_position (tr : YandexTranslator) (svc : service)
    (fuel : nat) (texts : list string) (cache : gmap string string)
    (glossary : list rule) (calls : nat) (translated : list string) (calls' : nat) :
  (scan_texts cache texts).2 <> [] ->
  translate tr svc fuel (scan_texts cache texts).2 calls = (Returns translated, calls') ->
  exists mapping cache',
    translate_unique tr svc fuel texts cache glossary calls
    = (Returns mapping, cache', calls') /\
    forall (i : nat) (t : string),
      (scan_texts cache texts).2 !! i = Some t ->
      match translated !! i with
      | Some tgt =>
          mapping !! t = Some (Some (apply_post_glossary tgt glossary)) /\
          cache' !! t = Some (apply_post_glossary tgt glossary)
      | None => mapping !! t = Some None /\ cache' !! t = cache !! t
      end.
Proof.
  unfold translate_unique.
  pose proof (scan_texts_inv cache texts) as (_ & _ & Hnodup & Huniq).
  destruct (scan_texts cache texts) as [mapping0 unique]. simpl in *.
  intros Hne Hrun. destruct unique as [|u unique]; [done|]. rewrite Hrun.
  set (pairs := zip (u :: unique) translated).
  pose proof (store_translations_other glossary pairs cache mapping0) as Hother.
  pose proof (store_translations_written glossary pairs cache mapping0) as Hwritten.
  destruct (store_translations glossary pairs cache mapping0) as [cache1 mapping1].
  cbn [fst snd] in Hother, Hwritten. exists mapping1, cache1. split; [done|].
  intros i t Hi.
  assert (Hpos : forall tgt, (t, tgt) ∈ pairs -> translated !! i = Some tgt).
  { intros tgt Hin. apply list_elem_of_lookup in Hin as [j Hj].
    unfold pairs in Hj. apply lookup_zip_Some in Hj as [Hj Htgt].
    by rewrite (NoDup_lookup _ _ _ _ Hnodup Hi Hj). }
  destruct (translated !! i) as [tgt|] eqn:Htgt.
  - destruct (Hwritten t) as (tgt' & Hin & Hc & Hm).
    { apply list_elem_of_fmap. exists (t, tgt). split; [done|].
      apply list_elem_of_lookup. exists i. unfold pairs. by apply lookup_zip_Some. }
    apply Hpos in Hin. injection Hin as <-. done.
  - destruct (Hother t) as [-> ->].
    + intros Hin. apply list_elem_of_fmap in Hin as ([t' tgt] & -> & Hin).
      by apply Hpos in Hin.
    + split; [|done]. apply Huniq. by apply list_elem_of_lookup_2 in Hi.
Qed.

Lemma translate_unique_pairs_by_position_witness :
  exists mapping cache',
    translate_unique {| api_key := "k"; folder_id := "f"; batch_size := 1;
                        max_chars := 9000; rpm := 300 |}
                     (fun n texts => if (n <? 6)%nat then Response 429 []
                                     else Response 200 (map (fun s => s +:+ "!") texts))
                     2 ["a"; "b"] ∅ [] 0
    = (Returns mapping, cache', 7%nat) /\
    mapping !! "a" = Some (Some "b!") /\ cache' !! "a" = Some "b!" /\
    mapping !! "b" = Some None /\ cache' !! "b" = None.
Proof.
  destruct (translate_unique_pairs_by_position
              {| api_key := "k"; folder_id := "f"; batch_size := 1;
                 max_chars := 9000; rpm := 300 |}
              (fun n texts => if (n <? 6)%nat then Response 429 []
                              else Response 200 (map (fun s => s +:+ "!") texts))
              2 ["a"; "b"] ∅ [] 0 ["b!"] 7)
    as (mapping & cache' & Hrun & Hpos); [done | reflexivity |].
  exists mapping, cache'. split; [exact Hrun|].
  pose proof (Hpos 0%nat "a" eq_refl) as [Ha Ha'].
  pose proof (Hpos 1%nat "b" eq_refl) as [Hb Hb'].
  done.
Defined.

(** ** More on the extractor: attribute values and meta descriptions *)

Lemma elem_of_flat_map {A B : Type} (g : A -> list B) (l : list A) (y : B) :
  y ∈ flat_map g l <-> exists x, x ∈ l /\ y ∈ g x.
Proof.
  rewrite list_elem_of_In, in_flat_map. split.
  - intros (x & Hx & Hy). exists x. by rewrite !list_elem_of_In.
  - intros (x & Hx & Hy). exists x. by rewrite <- !list_elem_of_In.
Qed.

(** What [find_all] lists: the tags below the node that match. *)
Lemma find_all_elem (q : tag_filter) (n : node) (p : path) :
  p ∈ find_all q n <-> p <> [] /\ exists m, get n p = Some m /\ matches q m = true.
Proof.
  unfold find_all. rewrite list_elem_of_fmap. split.
  - intros ([p' m] & -> & Hin). apply list_elem_of_filter in Hin as [Hm Hin].
    apply descendants_get in Hin as [Hne Hget]. simpl in *.
    split; [done|]. exists m. split; [done|]. by destruct (matches q m).
  - intros (Hne & m & Hget & Hm). exists (p, m). split; [done|].
    apply list_elem_of_filter. split; [simpl; by rewrite Hm|].
    by apply descendants_get.
Qed.

(** An attribute item carries the value the attribute has in the soup. *)
Lemma extract_attr_texts_elem (soup : node) (val : string) (tag : path) (attr : string) :
  (val, tag, attr) ∈ extract_attr_texts soup <->
  tag <> [] /\ attr ∈ TRANSLATE_ATTRS /\
  exists name attrs contents,
    get soup tag = Some (Tag name attrs contents) /\
    (lower name ∉ EXCLUDED_TAGS) /\
    get_attr attr attrs = Some (AttrStr val) /\
    strip val <> "".
Proof.
  unfold extract_attr_texts. rewrite elem_of_flat_map. split.
  - intros (tag0 & Htag & Hin). apply find_all_elem in Htag as (Hne & m & Hget & _).
    rewrite Hget in Hin. destruct m as [|name attrs contents]; [by apply elem_of_nil in Hin|].
    case_bool_decide as Hex; [by apply elem_of_nil in Hin|].
    apply elem_of_flat_map in Hin as (attr0 & Hattr & Hin).
    destruct (get_attr attr0 attrs) as [[val0|]|] eqn:Hval;
      try by apply elem_of_nil in Hin.
    case_bool_decide as Hstrip; [|by apply elem_of_nil in Hin].
    apply list_elem_of_singleton in Hin as [= -> -> ->].
    split; [done|]. split; [done|]. by exists name, attrs, contents.
  - intros (Hne & Hattr & name & attrs & contents & Hget & Hex & Hval & Hstrip).
    exists tag. split.
    + apply find_all_elem. split; [done|]. by exists (Tag name attrs contents).
    + rewrite Hget, bool_decide_eq_false_2 by done.
      apply elem_of_flat_map. exists attr. split; [done|].
      rewrite Hval, bool_decide_eq_true_2 by done. by apply list_elem_of_singleton.
Qed.

(** What the inner loop lists for one selector. *)
Lemma meta_descriptions_by_elem (soup : node) (a v content : string) (tag : path) :
  (content, tag) ∈ meta_descriptions_by soup a v <->
  tag <> [] /\
  exists attrs contents,
    get soup tag = Some (Tag "meta" attrs contents) /\
    attr_is v (get_attr a attrs) = true /\
    get_attr "content" attrs = Some (AttrStr content) /\
    strip content <> "".
Proof.
  unfold meta_descriptions_by. rewrite elem_of_flat_map. split.
  - intros (tag0 & Htag & Hin).
    apply find_all_elem in Htag as (Hne & m & Hget & Hm).
    rewrite Hget in Hin. destruct m as [|name attrs contents]; [done|].
    simpl in Hin, Hm. unfold meta_filter in Hm.
    apply andb_true_iff in Hm as [Hname Hattr]. apply bool_decide_eq_true in Hname as ->.
    destruct (get_attr "content" attrs) as [[c|]|] eqn:Hc; try by apply elem_of_nil in Hin.
    destruct (negb (bool_decide (c = "")) && bool_decide (strip c <> "")) eqn:Hok;
      [|by apply elem_of_nil in Hin].
    apply list_elem_of_singleton in Hin as [= -> ->].
    apply andb_true_iff in Hok as [_ Hstrip]. apply bool_decide_eq_true in Hstrip.
    split; [done|]. by exists attrs, contents.
  - intros (Hne & attrs & contents & Hget & Hsel & Hc & Hstrip).
    exists tag. split.
    + apply find_all_elem. split; [done|]. exists (Tag "meta" attrs contents).
      split; [done|]. simpl. unfold meta_filter. by rewrite Hsel.
    + rewrite Hget. simpl. rewrite Hc.
      rewrite (bool_decide_eq_true_2 (strip content <> "")) by done.
      rewrite bool_decide_eq_false_2; [by apply list_elem_of_singleton|].
      intros ->. by apply Hstrip.
Qed.

Lemma extract_meta_descriptions_by (soup : node) :
  extract_meta_descriptions soup
  = meta_descriptions_by soup "name" "description"
    ++ meta_descriptions_by soup "property" "og:description".
Proof.
  unfold extract_meta_descriptions, meta_descriptions_by. simpl. by rewrite app_nil_r.
Qed.

(** A meta item carries the [content] the tag has in the soup. *)
Lemma extract_meta_descriptions_elem (soup : node) (content : string) (tag : path) :
  (content, tag) ∈ extract_meta_descriptions soup ->
  exists attrs contents,
    get soup tag = Some (Tag "meta" attrs contents) /\
    get_attr "content" attrs = Some (AttrStr content).
Proof.
  rewrite extract_meta_descriptions_by, elem_of_app, !meta_descriptions_by_elem.
  intros [(_ & attrs & contents & Hget & _ & Hc & _) | (_ & attrs & contents & Hget & _ & Hc & _)];
    by exists attrs, contents.
Qed.

Lemma find_all_sorted (q : tag_filter) (n : node) : StronglySorted path_lt (find_all q n).
Proof.
  unfold find_all. pose proof (descendants_sorted n) as Hsorted.
  induction (descendants n) as [|[p d] l IH]; [constructor|].
  simpl in Hsorted. apply StronglySorted_cons in Hsorted as [Hall Hsorted].
  rewrite filter_cons. destruct (decide _); [|by apply IH].
  simpl. apply StronglySorted_cons. split; [|by apply IH].
  rewrite Forall_forall in Hall |- *.
  intros r ((r' & d') & -> & [_ Hin]%list_elem_of_filter)%list_elem_of_fmap.
  apply Hall, list_elem_of_fmap. by exists (r', d').
Qed.

Lemma NoDup_fmap_flat_map {A B C : Type} (h : B -> C) (g : A -> list B) (l : list A) :
  NoDup l ->
  (forall x, x ∈ l -> NoDup (h <$> g x)) ->
  (forall x y z z', x ∈ l -> y ∈ l -> z ∈ g x -> z' ∈ g y -> h z = h z' -> x = y) ->
  NoDup (h <$> flat_map g l).
Proof.
  induction l as [|x l IH]; intros Hl Hg Hh; simpl; [constructor|].
  apply NoDup_cons in Hl as [Hx Hl]. rewrite fmap_app. apply NoDup_app.
  split; [apply Hg, list_elem_of_here|]. split.
  - intros c Hc Hc'.
    apply list_elem_of_fmap in Hc as (z & -> & Hz).
    apply list_elem_of_fmap in Hc' as (z' & Heq & Hz').
    apply elem_of_flat_map in Hz' as (y & Hy & Hz').
    apply Hx. rewrite (Hh x y z z'); try done.
    + apply list_elem_of_here.
    + by apply list_elem_of_further.
  - apply IH; [done | |].
    + intros y Hy. by apply Hg, list_elem_of_further.
    + intros y y' z z' Hy Hy'. apply Hh; by apply list_elem_of_further.
Qed.

Lemma TRANSLATE_ATTRS_NoDup : NoDup TRANSLATE_ATTRS.
Proof. compute_done. Qed.

Lemma extract_attr_texts_slots (soup : node) :
  NoDup (attr_slot <$> extract_attr_texts soup).
Proof.
  unfold extract_attr_texts. apply NoDup_fmap_flat_map.
  - apply StronglySorted_path_lt_NoDup, find_all_sorted.
  - intros tag _. destruct (get soup tag) as [[|name attrs contents]|]; try constructor.
    case_bool_decide; [constructor|].
    apply NoDup_fmap_flat_map; [apply TRANSLATE_ATTRS_NoDup | |].
    + intros attr _. destruct (get_attr attr attrs) as [[val|]|]; try constructor.
      case_bool_decide; [|constructor]. apply NoDup_singleton.
    + intros a a' z z' _ _ Hz Hz'.
      destruct (get_attr a attrs) as [[val|]|]; try by apply elem_of_nil in Hz.
      destruct (get_attr a' attrs) as [[val'|]|]; try by apply elem_of_nil in Hz'.
      repeat case_bool_decide; try by apply elem_of_nil in Hz.
      all: try by apply elem_of_nil in Hz'.
      apply list_elem_of_singleton in Hz as ->. apply list_elem_of_singleton in Hz' as ->.
      by intros [= ->].
  - intros tag tag' z z' _ _ Hz Hz' Heq.
    assert (Hfst : forall t (y : string * path * string),
              y ∈ match get soup t with
                  | Some (Tag name attrs _) =>
                      if bool_decide (lower name ∈ EXCLUDED_TAGS) then []
                      else flat_map (fun attr =>
                             match get_attr attr attrs with
                             | Some (AttrStr val) =>
                                 if bool_decide (strip val <> "") then [(val, t, attr)] else []
                             | _ => []
                             end) TRANSLATE_ATTRS
                  | _ => []
                  end -> (attr_slot y).1 = t).
    { intros t y Hy. destruct (get soup t) as [[|name attrs contents]|];
        try by apply elem_of_nil in Hy.
      case_bool_decide; [by apply elem_of_nil in Hy|].
      apply elem_of_flat_map in Hy as (a & _ & Hy).
      destruct (get_attr a attrs) as [[val|]|]; try by apply elem_of_nil in Hy.
      case_bool_decide; [|by apply elem_of_nil in Hy].
      by apply list_elem_of_singleton in Hy as ->. }
    by rewrite <- (Hfst tag z Hz), <- (Hfst tag' z' Hz'), Heq.
Qed.

Lemma meta_descriptions_by_NoDup (soup : node) (a v : string) :
  NoDup (meta_descriptions_by soup a v).
Proof.
  unfold meta_descriptions_by. rewrite <- list_fmap_id. apply NoDup_fmap_flat_map.
  - apply StronglySorted_path_lt_NoDup, find_all_sorted.
  - intros tag _. rewrite list_fmap_id.
    destruct (get soup tag) as [n|]; [|constructor].
    destruct (tag_get "content" n) as [[c|]|]; try constructor.
    destruct (_ && _); [apply NoDup_singleton | constructor].
  - intros tag tag' z z' _ _ Hz Hz' Heq. simpl in Heq. subst z'.
    assert (Hsnd : forall t (y : string * path),
              y ∈ match get soup t with
                  | Some n =>
                      match tag_get "content" n with
                      | Some (AttrStr content) =>
                          if negb (bool_decide (content = ""))
                             && bool_decide (strip content <> "")
                          then [(content, t)] else []
                      | _ => []
                      end
                  | None => []
                  end -> y.2 = t).
    { intros t y Hy. destruct (get soup t) as [n|]; [|by apply elem_of_nil in Hy].
      destruct (tag_get "content" n) as [[c|]|]; try by apply elem_of_nil in Hy.
      destruct (_ && _); [|by apply elem_of_nil in Hy].
      by apply list_elem_of_singleton in Hy as ->. }
    by rewrite <- (Hsnd tag z Hz), <- (Hsnd tag' z Hz').
Qed.

(** X12: [extract_attr_texts] lists exactly the string values, not
    blank, of the four translatable attributes of the tags whose own
    name is not an excluded one - the names of the ancestors are not
    looked at, and a list value is skipped - and it lists no
    attribute of a tag twice. *)
Theorem extract_attr_texts_spec (soup : node) :
  (forall (val : string) (tag : path) (attr : string),
     (val, tag, attr) ∈ extract_attr_texts soup <->
     tag <> [] /\ attr ∈ TRANSLATE_ATTRS /\
     exists name attrs contents,
       get soup tag = Some (Tag name attrs contents) /\
       (lower name ∉ EXCLUDED_TAGS) /\
       get_attr attr attrs = Some (AttrStr val) /\
       strip val <> "") /\
  NoDup (attr_slot <$> extract_attr_texts soup).
Proof.
  split.
  - intros val tag attr. apply extract_attr_texts_elem.
  - apply extract_attr_texts_slots.
Qed.

(** X13: [extract_meta_descriptions] lists the [meta] tags whose
    [name] is [description], then those whose [property] is
    [og:description], each with its [content] when that is a string
    and not blank; a tag comes once for each of the two selectors it
    matches, so a tag that matches both is listed twice. *)
Theorem extract_meta_descriptions_spec (soup : node) :
  extract_meta_descriptions soup
  = meta_descriptions_by soup "name" "description"
    ++ meta_descriptions_by soup "property" "og:description" /\
  forall a v : string,
    NoDup (meta_descriptions_by soup a v) /\
    forall (content : string) (tag : path),
      (content, tag) ∈ meta_descriptions_by soup a v <->
      tag <> [] /\
      exists attrs contents,
        get soup tag = Some (Tag "meta" attrs contents) /\
        attr_is v (get_attr a attrs) = true /\
        get_attr "content" attrs = Some (AttrStr content) /\
        strip content <> "".
Proof.
  split; [apply extract_meta_descriptions_by|].
  intros a v. split; [apply meta_descriptions_by_NoDup|].
  intros content tag. apply meta_descriptions_by_elem.
Qed.

(** ** More on the reinsertion: round trip, and what can be raised *)

(** Writing into a string node the text it has changes nothing. *)
Lemma replace_nodes_same (pairs : list (path * option string)) (soup : node)
    (detached : list path) :
  NoDup pairs.*1 ->
  (forall p r, (p, r) ∈ pairs ->
     (p ∉ detached) /\ get soup p = Some (NavigableString PlainText (or_empty r))) ->
  replace_nodes soup detached pairs = Some soup.
Proof.
  revert detached. induction pairs as [|[p r] pairs IH]; intros detached Hnodup Hpairs.
  - done.
  - rewrite fmap_cons in Hnodup. apply NoDup_cons in Hnodup as [Hp Hnodup].
    destruct (Hpairs p r) as [Hout Hget]; [apply list_elem_of_here|].
    cbn [replace_nodes]. unfold replace_with.
    rewrite bool_decide_eq_false_2, Hget by done.
    rewrite alter_at_id; [|by intros m; rewrite Hget; intros [= <-]].
    apply IH; [done|]. intros p' r' Hin.
    destruct (Hpairs p' r') as [Hout' Hget']; [by apply list_elem_of_further|].
    split; [|done]. apply not_elem_of_cons. split; [|done].
    intros ->. apply Hp, list_elem_of_fmap. by exists (p, r').
Qed.

(** Assigning to an attribute the value it has changes nothing. *)
Lemma apply_writes_same (soup : node) (writes : list (path * string * option string)) :
  (forall tag key r, (tag, key, r) ∈ writes ->
     attr_at soup tag key = Some (AttrStr (or_empty r))) ->
  apply_writes soup writes = soup.
Proof.
  induction writes as [|[[tag key] r] writes IH]; intros Hw; [done|].
  unfold apply_writes. cbn [foldl]. rewrite alter_at_id.
  - apply IH. intros tag' key' r' Hin. by apply Hw, list_elem_of_further.
  - intros m Hm. specialize (Hw tag key r (list_elem_of_here _ _)).
    unfold attr_at in Hw. rewrite Hm in Hw. simpl in Hw.
    destruct m as [|name attrs contents]; [done|]. simpl in *.
    by rewrite set_attr_same.
Qed.

Lemma zip_fst_NoDup {A B : Type} (l : list A) (k : list B) :
  NoDup l -> NoDup (zip l k).*1.
Proof.
  revert k. induction l as [|x l IH]; intros [|y k] Hl; simpl; try constructor.
  - apply NoDup_cons in Hl as [Hx Hl]. intros Hin. apply Hx.
    apply list_elem_of_fmap in Hin as ([x' y'] & -> & Hin). by apply elem_of_zip_l in Hin.
  - apply IH. by apply NoDup_cons in Hl as [_ Hl].
Qed.

(** The reinsertion accepts what the extractor lists, whatever the
    replacements. *)
Lemma replace_in_html_extracted (soup : node)
    (node_texts attr_texts meta_texts : list (option string)) :
  is_Some (replace_in_html soup (extract_text_nodes soup) node_texts
                           (extract_attr_texts soup) attr_texts
                           (extract_meta_descriptions soup) meta_texts).
Proof.
  unfold replace_in_html.
  destruct (extract_text_nodes_refs soup) as [Hnodup Hstr].
  destruct (replace_nodes_spec (zip (extract_text_nodes soup) node_texts) soup [])
    as (soup' & -> & _).
  - by apply zip_fst_NoDup.
  - intros p Hp. apply list_elem_of_fmap in Hp as ([p' r] & -> & Hp).
    apply elem_of_zip_l in Hp. split; [apply not_elem_of_nil | by apply Hstr].
  - done.
Qed.

(** X14: with no glossary and an empty mapping the pipeline gives a
    document back as it was: [collect_texts_for_translation], then
    [replace_texts], then [replace_in_html] return the same tree,
    provided the string nodes extracted are plain text (a replaced
    node always is). *)
Theorem collect_replace_round_trip (re_sub : regex_engine) (soup : node) :
  (forall p kind text,
     p ∈ extract_text_nodes soup ->
     get soup p = Some (NavigableString kind text) -> kind = PlainText) ->
  let '(nodes, node_texts, attr_items, attr_texts, meta_items, meta_texts) :=
    collect_texts_for_translation re_sub soup [] in
  replace_in_html soup nodes (replace_texts node_texts ∅)
                  attr_items (replace_texts attr_texts ∅)
                  meta_items (replace_texts meta_texts ∅)
  = Some soup.
Proof.
  intros Hplain. unfold collect_texts_for_translation, replace_in_html, replace_texts.
  rewrite !map_map.
  destruct (extract_text_nodes_refs soup) as [Hnodup Hstr].
  rewrite replace_nodes_same.
  - rewrite replace_attrs_writes, replace_metas_writes.
    rewrite (apply_writes_same soup); [rewrite apply_writes_same; [done|] |].
    + intros tag key r Hin. rewrite zip_map_self in Hin.
      unfold meta_writes in Hin.
      apply list_elem_of_fmap in Hin as ([[old tag'] r'] & Heq & Hin).
      simpl in Heq. simplify_eq.
      apply list_elem_of_fmap in Hin as ([old' tag''] & Heq & Hin).
      simpl in Heq. simplify_eq.
      apply extract_meta_descriptions_elem in Hin as (attrs & contents & Hget & Hc).
      unfold attr_at. rewrite Hget. simpl. rewrite Hc. by rewrite lookup_empty.
    + intros tag key r Hin. rewrite zip_map_self in Hin.
      unfold attr_writes in Hin.
      apply list_elem_of_fmap in Hin as ([[[old tag'] attr] r'] & Heq & Hin).
      simpl in Heq. simplify_eq.
      apply list_elem_of_fmap in Hin as ([[old' tag''] attr'] & Heq & Hin).
      simpl in Heq. simplify_eq.
      apply extract_attr_texts_elem in Hin
        as (_ & _ & name & attrs & contents & Hget & _ & Hval & _).
      unfold attr_at. rewrite Hget. simpl. rewrite Hval. by rewrite lookup_empty.
  - rewrite zip_map_self, <- list_fmap_compose. by rewrite list_fmap_id.
  - intros p r Hin. rewrite zip_map_self in Hin.
    apply list_elem_of_fmap in Hin as (p' & [= -> ->] & Hin).
    split; [apply not_elem_of_nil|]. rewrite lookup_empty. simpl.
    destruct (Hstr p' Hin) as (kind & text & Hget).
    unfold node_text. rewrite Hget. by rewrite (Hplain p' kind text Hin Hget).
Qed.

Lemma collect_replace_round_trip_witness :
  replace_in_html two_texts [[0; 0]; [0; 1; 0]]%nat [Some "one"; Some "two"]
                  [("tip", [0%nat], "title")] [Some "tip"] [] []
  = Some two_texts.
Proof.
  apply (collect_replace_round_trip no_regex two_texts).
  intros p kind text Hp. vm_compute in Hp.
  apply elem_of_cons in Hp as [-> | Hp]; [by intros [= <- _]|].
  apply elem_of_cons in Hp as [-> | Hp]; [by intros [= <- _]|].
  by apply elem_of_nil in Hp.
Defined.



(** ** More on the annotator: what it sets, creates and keeps *)

(** A change of one node that keeps the verdict of a filter on it and
    the matches below it keeps what [find_all] lists. *)
Lemma find_all_alter_at (q : tag_filter) (f : node -> node) (p : path) (n : node) :
  (forall m, get n p = Some m ->
     matches q (f m) = matches q m /\ find_all q (f m) = find_all q m) ->
  find_all q (alter_at f p n) = find_all q n.
Proof.
  revert n. induction p as [|i p IH]; intros n Hf.
  - by apply Hf.
  - destruct n as [|name attrs cs]; [done|]. cbn [alter_at].
    rewrite !find_all_Tag. generalize 0%nat. simpl in Hf.
    revert i Hf. induction cs as [|c cs IHcs]; intros i Hf k; [done|].
    destruct i as [|i]; simpl in Hf |- *.
    + rewrite !find_all_in_cons, (IH c Hf). f_equal.
      destruct p as [|j p]; [cbn [alter_at]; by destruct (Hf c eq_refl) as [-> _]|].
      by rewrite matches_alter_at_cons.
    + rewrite !find_all_in_cons. do 2 f_equal. by apply IHcs.
Qed.

Lemma find_all_set_item (q : tag_filter) (key : string) (value : attr_value)
    (p : path) (n : node) :
  keeps_match q (set_item key value) ->
  find_all q (alter_at (set_item key value) p n) = find_all q n.
Proof.
  intros Hq. apply find_all_alter_at. intros m _. split; [apply Hq|].
  by destruct m.
Qed.

Lemma find_all_append (q : tag_filter) (c : node) (p : path) (n : node) :
  count_incl q c = 0%nat ->
  find_all q (alter_at (append c) p n) = find_all q n.
Proof.
  intros Hc. apply find_all_alter_at. intros m _. split; [apply keeps_match_append|].
  destruct m as [|name attrs cs]; [done|]. simpl.
  rewrite !find_all_Tag, find_all_in_app, find_all_in_cons.
  unfold count_incl, count_matches in Hc.
  destruct (matches q c); [done|]. simpl in Hc.
  apply nil_length_inv in Hc. rewrite Hc. simpl. by rewrite app_nil_r.
Qed.

(** A node of the tree is still where it was after a child was
    appended somewhere: with the same name and attributes, and
    unchanged if it is a string. *)
Lemma get_append (c : node) (p r : path) (n m : node) :
  get n r = Some m ->
  exists m',
    get (alter_at (append c) p n) r = Some m' /\
    label m' = label m /\
    (forall kind text, m = NavigableString kind text -> m' = m).
Proof.
  intros Hget. destruct (decide (p `prefix_of` r)) as [[s ->]|Hp].
  - rewrite get_alter_at_below. rewrite get_app in Hget.
    destruct (get n p) as [m0|]; [simpl in *|done].
    destruct s as [|i s]; simpl in Hget |- *.
    + injection Hget as <-. exists (append c m0). split; [done|].
      split; [by destruct m0|]. by intros kind text ->.
    + destruct m0 as [|name attrs cs]; [done|]. simpl.
      destruct (cs !! i) as [ci|] eqn:Hi; [|done].
      rewrite (lookup_app_l_Some _ _ _ _ Hi). by exists m.
  - destruct (get_alter_at_elsewhere (append c) p r n Hp) as (g & Hg & Hlabel & Hstr).
    rewrite Hg, Hget. exists (g m). split; [done|]. split; [done|].
    by intros kind text ->.
Qed.

Lemma tag_get_label (key : string) (m m' : node) :
  label m' = label m -> tag_get key m' = tag_get key m.
Proof. destruct m, m'; simpl; try done. by intros [= _ ->]. Qed.

Lemma attr_at_append (c : node) (p r : path) (n : node) (key : string) :
  is_Some (get n r) ->
  attr_at (alter_at (append c) p n) r key = attr_at n r key.
Proof.
  intros [m Hm]. destruct (get_append c p r n m Hm) as (m' & Hget & Hlabel & _).
  unfold attr_at. rewrite Hget, Hm. simpl. by apply tag_get_label.
Qed.
Lemma html_stage_lang (contents : list node) :
  let soup := BeautifulSoup contents in
  exists attrs cs,
    find (by_name "html") (html_stage soup).1 = Some (html_stage soup).2 /\
    get (html_stage soup).1 (html_stage soup).2 = Some (Tag "html" attrs cs) /\
    get_attr "lang" attrs = find (by_name "html") soup ≫= fun h => attr_at soup h "lang".
Proof.
  intros soup. unfold html_stage.
  destruct (find (by_name "html") soup) as [h|] eqn:Hfind.
  - destruct (find_by_name _ _ _ Hfind) as (attrs & cs & Hget). exists attrs, cs.
    split; [done|]. split; [done|]. simpl. unfold attr_at. by rewrite Hget.
  - destruct (create_html_find contents) as (Hf & cs & Hget). by exists [], cs.
Qed.

(** The language [ensure_head] leaves on the html element. *)
Lemma ensure_head_lang (contents : list node) (is_uz_page : bool) :
  let soup := BeautifulSoup contents in
  exists html_tag hattrs hcs,
    find (by_name "html") (ensure_head soup is_uz_page).1 = Some html_tag /\
    get (ensure_head soup is_uz_page).1 html_tag = Some (Tag "html" hattrs hcs) /\
    get_attr "lang" hattrs
    = Some (if is_uz_page then AttrStr "uz"
            else or_ru (find (by_name "html") soup ≫= fun h => attr_at soup h "lang")).
Proof.
  intros soup. unfold ensure_head.
  destruct (html_stage_lang contents) as (hattrs & hcs & Hfind0 & Hhtml & Hlang0).
  fold soup in Hfind0, Hhtml, Hlang0.
  destruct (html_stage soup) as [soup0 html_tag]. cbn [fst snd] in Hfind0, Hhtml.
  rewrite Hhtml. cbn [tag_get]. rewrite Hlang0.
  set (lang := if is_uz_page then _ else _).
  set (soup1 := alter_at (set_item "lang" lang) html_tag soup0).
  assert (Hhtml1 : get soup1 html_tag = Some (Tag "html" (set_attr "lang" lang hattrs) hcs)).
  { unfold soup1. by rewrite get_alter_at_self, Hhtml. }
  assert (Hfind1 : find (by_name "html") soup1 = Some html_tag).
  { apply find_alter_at_found; [apply keeps_match_by_name_set_item|done]. }
  destruct (find (by_name "head") soup1) as [head|] eqn:Hhead; cbn [fst snd].
  - exists html_tag, (set_attr "lang" lang hattrs), hcs.
    split_and!; [done | done | apply get_set_attr].
  - exists html_tag, (set_attr "lang" lang hattrs), (Tag "head" [] [] :: hcs).
    split_and!; [| | apply get_set_attr].
    + apply find_alter_at_found; [apply keeps_match_insert_first|done].
    + by rewrite get_alter_at_self, Hhtml1.
Qed.

Lemma alternate_link_no_match (name : string) (rel_path : string) (is_uz_page : bool) :
  name <> "link" -> count_incl (by_name name) (alternate_link rel_path is_uz_page) = 0%nat.
Proof.
  intros Hne. unfold count_incl, count_matches, alternate_link. simpl.
  unfold by_name. by rewrite bool_decide_eq_false_2.
Qed.

(** X16: after [set_lang_and_hreflang] the first html element of the
    document carries a language: [uz] on a translated page; on a
    source page the language it had, or [ru] when it had none, an
    empty one, or when the element had to be created. *)
Theorem set_lang_and_hreflang_lang (contents : list node) (rel_path : string)
    (is_uz_page : bool) :
  let soup := BeautifulSoup contents in
  exists html_tag : path,
    find (by_name "html") (set_lang_and_hreflang soup rel_path is_uz_page) = Some html_tag /\
    attr_at (set_lang_and_hreflang soup rel_path is_uz_page) html_tag "lang"
    = Some (if is_uz_page then AttrStr "uz"
            else or_ru (find (by_name "html") soup ≫= fun h => attr_at soup h "lang")).
Proof.
  intros soup. rewrite set_lang_and_hreflang_ensure.
  destruct (ensure_head_lang contents is_uz_page)
    as (html_tag & hattrs & hcs & Hfind & Hget & Hlang).
  fold soup in Hfind, Hget, Hlang.
  exists html_tag. split.
  - unfold find in *. by rewrite find_all_append by by apply alternate_link_no_match.
  - rewrite attr_at_append by by rewrite Hget.
    unfold attr_at. by rewrite Hget.
Qed.

(** X17: for a document with neither an html nor a head element,
    [set_lang_and_hreflang] builds the minimal structure: the
    doctypes stay at the top, followed by one html element that
    holds a head with the alternate link and a body with everything
    else of the document, in its order. *)
Theorem set_lang_and_hreflang_creates_structure (contents : list node)
    (rel_path : string) (is_uz_page : bool) :
  find (by_name "html") (BeautifulSoup contents) = None ->
  find (by_name "head") (BeautifulSoup contents) = None ->
  set_lang_and_hreflang (BeautifulSoup contents) rel_path is_uz_page
  = BeautifulSoup
      (List.filter is_Doctype contents ++
       [Tag "html" [("lang", AttrStr (if is_uz_page then "uz" else "ru"))]
          [Tag "head" [] [alternate_link rel_path is_uz_page];
           Tag "body" [] (List.filter (fun c => negb (is_Doctype c)) contents)]]).
Proof.
  intros Hhtml Hhead. unfold set_lang_and_hreflang. rewrite Hhtml.
  unfold BeautifulSoup in *. cbn [create_html].
  set (kept := List.filter is_Doctype contents).
  set (moved := List.filter (fun c => negb (is_Doctype c)) contents).
  cbn [get]. rewrite list_lookup_middle by done. cbn [get tag_get get_attr or_ru].
  assert ((if is_uz_page then AttrStr "uz" else AttrStr "ru")
          = AttrStr (if is_uz_page then "uz" else "ru")) as -> by by destruct is_uz_page.
  set (lang := AttrStr _).
  cbn [alter_at]. rewrite alter_app_r_alt, Nat.sub_diag by done.
  cbn [alter list_alter alter_at set_item set_attr].
  assert (Hnone : find (by_name "head")
            (Tag "[document]" [] (kept ++ [Tag "html" [("lang", lang)] [Tag "body" [] moved]]))
          = None).
  { unfold find. rewrite find_all_Tag. apply find_in_None.
    apply Forall_app. split; [apply is_Doctype_no_match|].
    repeat constructor. unfold find. rewrite find_all_Tag. apply find_in_None.
    repeat constructor. unfold find. rewrite find_all_Tag. apply find_in_None.
    unfold find in Hhead. rewrite find_all_Tag in Hhead. apply find_in_None in Hhead.
    rewrite Forall_forall in Hhead |- *. intros c Hc. apply Hhead.
    apply list_elem_of_In. apply list_elem_of_In in Hc. by apply filter_In in Hc as [? _]. }
  rewrite Hnone. cbn [alter_at app].
  rewrite alter_app_r_alt, Nat.sub_diag by done.
  cbn [alter list_alter alter_at insert_first].
  rewrite alter_app_r_alt, Nat.sub_diag by done.
  by cbn [alter list_alter alter_at append app].
Qed.

Lemma set_lang_and_hreflang_creates_structure_witness :
  set_lang_and_hreflang
    (BeautifulSoup [NavigableString Doctype "html"; Tag "p" [] [NavigableString PlainText "x"]])
    "a.html" true
  = BeautifulSoup
      [NavigableString Doctype "html";
       Tag "html" [("lang", AttrStr "uz")]
         [Tag "head" [] [alternate_link "a.html" true];
          Tag "body" [] [Tag "p" [] [NavigableString PlainText "x"]]]].
Proof.
  apply (set_lang_and_hreflang_creates_structure
           [NavigableString Doctype "html"; Tag "p" [] [NavigableString PlainText "x"]]
           "a.html" true); reflexivity.
Defined.

(** X18: [inject_language_switcher] adds the switcher as the last
    child of the first body element and changes nothing else: the
    body is still the first one, every node of the document is where
    it was with its name and attributes, strings are untouched, and
    the matches of any filter grow by those in the switcher.  A
    document without a body is returned as it is. *)
Theorem inject_language_switcher_spec (soup : node) (rel_path : string)
    (is_uz_page : bool) :
  let out := inject_language_switcher soup rel_path is_uz_page in
  match find (by_name "body") soup with
  | None => out = soup
  | Some body =>
      (exists attrs cs,
         get soup body = Some (Tag "body" attrs cs) /\
         get out body
         = Some (Tag "body" attrs (cs ++ [language_switcher rel_path is_uz_page]))) /\
      find (by_name "body") out = Some body /\
      (forall r m, get soup r = Some m ->
         exists m', get out r = Some m' /\ label m' = label m /\
                    (forall kind text, m = NavigableString kind text -> m' = m)) /\
      (forall q, count_matches q out
                 = (count_matches q soup
                    + count_incl q (language_switcher rel_path is_uz_page))%nat)
  end.
Proof.
  intros out. unfold out, inject_language_switcher.
  destruct (find (by_name "body") soup) as [body|] eqn:Hfind; [|done].
  destruct (find_by_name _ _ _ Hfind) as (attrs & cs & Hget).
  split_and!.
  - exists attrs, cs. split; [done|]. by rewrite get_alter_at_self, Hget.
  - by apply find_alter_at_found; [apply keeps_match_append|].
  - intros r m Hm. by apply get_append.
  - intros q. apply count_append. by exists "body", attrs, cs.
Qed.

(** With its html and head elements in place, the annotator assigns
    one attribute and appends one link. *)
Lemma set_lang_and_hreflang_found (soup : node) (rel_path : string) (is_uz_page : bool)
    (html_tag head : path) :
  find (by_name "html") soup = Some html_tag ->
  find (by_name "head") soup = Some head ->
  set_lang_and_hreflang soup rel_path is_uz_page
  = alter_at (append (alternate_link rel_path is_uz_page)) head
      (alter_at (set_item "lang"
                   (if is_uz_page then AttrStr "uz"
                    else or_ru (attr_at soup html_tag "lang")))
                html_tag soup).
Proof.
  intros Hhtml Hhead. unfold set_lang_and_hreflang. rewrite Hhtml.
  assert (match get soup html_tag with
          | Some t => tag_get "lang" t
          | None => None
          end = attr_at soup html_tag "lang") as ->.
  { unfold attr_at. by destruct (get soup html_tag). }
  set (lang := if is_uz_page then _ else _).
  assert (find (by_name "head") (alter_at (set_item "lang" lang) html_tag soup) = Some head)
    as ->; [|done].
  unfold find in *. by rewrite find_all_set_item by apply keeps_match_by_name_set_item.
Qed.

Lemma is_Some_get_set_item (key : string) (value : attr_value) (tag p : path) (n : node) :
  is_Some (get n p) -> is_Some (get (alter_at (set_item key value) tag n) p).
Proof.
  intros [[kind text|name attrs cs] Hm].
  - by rewrite (set_item_keeps_strings key value tag n p kind text Hm).
  - destruct (set_item_keeps_tags key value tag n p) as (name' & attrs' & cs' & ->);
      [by exists name, attrs, cs | done].
Qed.

Lemma is_Some_get_append (c : node) (p r : path) (n : node) :
  is_Some (get n r) -> is_Some (get (alter_at (append c) p n) r).
Proof. intros [m Hm]. by destruct (get_append c p r n m Hm) as (m' & -> & _). Qed.

(** On a document that has its html and head elements, the two
    annotation steps leave every string where it is and every
    attribute but [lang] as it is. *)
Lemma annotate_keeps (soup : node) (rel_path : string) (is_uz_page : bool) :
  is_Some (find (by_name "html") soup) ->
  is_Some (find (by_name "head") soup) ->
  let out := inject_language_switcher
               (set_lang_and_hreflang soup rel_path is_uz_page) rel_path is_uz_page in
  (forall p kind text,
     get soup p = Some (NavigableString kind text) ->
     get out p = Some (NavigableString kind text)) /\
  (forall p key,
     is_Some (get soup p) -> key <> "lang" -> attr_at out p key = attr_at soup p key).
Proof.
  intros [html_tag Hhtml] [head Hhead] out. unfold out.
  rewrite (set_lang_and_hreflang_found soup rel_path is_uz_page html_tag head Hhtml Hhead).
  set (lang := if is_uz_page then _ else _).
  set (soup1 := alter_at (set_item "lang" lang) html_tag soup).
  set (soup2 := alter_at (append (alternate_link rel_path is_uz_page)) head soup1).
  assert (Hstr2 : forall p kind text,
            get soup p = Some (NavigableString kind text) ->
            get soup2 p = Some (NavigableString kind text)).
  { intros p kind text Hp.
    apply (set_item_keeps_strings "lang" lang html_tag) in Hp. fold soup1 in Hp.
    destruct (get_append (alternate_link rel_path is_uz_page) head p soup1 _ Hp)
      as (m' & Hget & _ & Hsame).
    unfold soup2. by rewrite Hget, (Hsame kind text eq_refl). }
  assert (Hattr2 : forall p key,
            is_Some (get soup p) -> key <> "lang" -> attr_at soup2 p key = attr_at soup p key).
  { intros p key Hp Hkey. unfold soup2.
    rewrite attr_at_append by by apply is_Some_get_set_item.
    apply attr_at_set_item_other. by intros [= _ ->]. }
  unfold inject_language_switcher.
  destruct (find (by_name "body") soup2) as [body|]; [|done].
  split.
  - intros p kind text Hp. apply Hstr2 in Hp.
    destruct (get_append (language_switcher rel_path is_uz_page) body p soup2 _ Hp)
      as (m' & Hget & _ & Hsame).
    by rewrite Hget, (Hsame kind text eq_refl).
  - intros p key Hp Hkey. rewrite attr_at_append; [by apply Hattr2|].
    by apply is_Some_get_append, is_Some_get_set_item.
Qed.

(** ** The pipeline end to end *)

Lemma replace_nodes_find_all (q : tag_filter) (pairs : list (path * option string))
    (soup : node) (detached : list path) (soup' : node) :
  replace_nodes soup detached pairs = Some soup' -> find_all q soup' = find_all q soup.
Proof.
  revert soup detached. induction pairs as [|[p r] pairs IH]; intros soup detached; simpl.
  - by intros [= <-].
  - unfold replace_with. case_bool_decide; [done|].
    destruct (get soup p) as [[kind text|]|] eqn:Hget; try done.
    intros Hrun. apply IH in Hrun. rewrite Hrun. apply find_all_alter_at.
    intros m Hm. rewrite Hget in Hm. by injection Hm as <-.
Qed.

Lemma apply_writes_cons (soup : node) (tag : path) (key : string) (r : option string)
    (writes : list (path * string * option string)) :
  apply_writes soup ((tag, key, r) :: writes)
  = apply_writes (alter_at (set_item key (AttrStr (or_empty r))) tag soup) writes.
Proof. done. Qed.

Lemma apply_writes_find_all (q : tag_filter) (soup : node)
    (writes : list (path * string * option string)) :
  (forall key value, keeps_match q (set_item key value)) ->
  find_all q (apply_writes soup writes) = find_all q soup.
Proof.
  intros Hq. revert soup. induction writes as [|[[tag key] r] writes IH]; intros soup; [done|].
  rewrite apply_writes_cons, IH. by apply find_all_set_item.
Qed.

(** When all the assignments to an attribute carry the same value,
    the attribute ends with that value. *)
Lemma apply_writes_same_value (soup : node) (writes : list (path * string * option string))
    (tag : path) (key : string) (r0 : option string) :
  tag_at soup tag ->
  (tag, key) ∈ writes.*1 ->
  (forall r, (tag, key, r) ∈ writes -> r = r0) ->
  attr_at (apply_writes soup writes) tag key = Some (AttrStr (or_empty r0)).
Proof.
  revert soup. induction writes as [|[[t k] r] writes IH]; intros soup Htag Hin Hall.
  - by apply elem_of_nil in Hin.
  - rewrite apply_writes_cons.
    destruct (decide ((tag, key) ∈ writes.*1)) as [Hlater|Hlast].
    + apply IH; [by apply set_item_keeps_tags | done |].
      intros r' Hr'. by apply Hall, list_elem_of_further.
    + rewrite fmap_cons in Hin. apply elem_of_cons in Hin as [[= <- <-]|Hin]; [|done].
      rewrite apply_writes_other.
      * rewrite attr_at_set_item by done. do 2 f_equal. f_equal.
        apply Hall, list_elem_of_here.
      * intros r' Hr'. apply Hlast, list_elem_of_fmap. by exists (tag, key, r').
Qed.

(** What the reinsertion makes of a document when every unit gets
    the replacement [h] of its own text. *)
Lemma replace_in_html_collected (soup : node) (h : string -> option string)
    (node_texts attr_texts meta_texts : list (option string)) :
  node_texts = map (fun p => h (node_text soup p)) (extract_text_nodes soup) ->
  attr_texts = map (fun '(t, _, _) => h t) (extract_attr_texts soup) ->
  meta_texts = map (fun '(t, _) => h t) (extract_meta_descriptions soup) ->
  exists soup',
    replace_in_html soup (extract_text_nodes soup) node_texts
                    (extract_attr_texts soup) attr_texts
                    (extract_meta_descriptions soup) meta_texts = Some soup' /\
    (forall q, (forall key value, keeps_match q (set_item key value)) ->
               find_all q soup' = find_all q soup) /\
    (forall p, p ∈ extract_text_nodes soup ->
       get soup' p = Some (NavigableString PlainText (or_empty (h (node_text soup p))))) /\
    (forall val tag attr, (val, tag, attr) ∈ extract_attr_texts soup ->
       attr_at soup' tag attr = Some (AttrStr (or_empty (h val)))) /\
    (forall content tag, (content, tag) ∈ extract_meta_descriptions soup ->
       attr_at soup' tag "content" = Some (AttrStr (or_empty (h content)))).
Proof.
  intros -> -> ->. unfold replace_in_html.
  destruct (extract_text_nodes_refs soup) as [Hnodup Hstr].
  rewrite !zip_map_self.
  set (npairs := (fun p => (p, h (node_text soup p))) <$> extract_text_nodes soup).
  assert (Hfst : npairs.*1 = extract_text_nodes soup).
  { unfold npairs. rewrite <- list_fmap_compose. apply list_fmap_id. }
  destruct (replace_nodes_spec npairs soup [])
    as (soup1 & Hrun & Hnodes & Htags & Hattrs & _).
  { by rewrite Hfst. }
  { intros p Hp. rewrite Hfst in Hp. split; [apply not_elem_of_nil | by apply Hstr]. }
  rewrite Hrun, replace_attrs_writes, replace_metas_writes, <- apply_writes_app.
  set (aw := attr_writes _). set (mw := meta_writes _).
  assert (Haw : forall tag key r, (tag, key, r) ∈ aw ->
            exists val, (val, tag, key) ∈ extract_attr_texts soup /\ r = h val).
  { intros tag key r Hin. unfold aw, attr_writes in Hin.
    apply list_elem_of_fmap in Hin as ([[[old tag'] attr] r'] & Heq & Hin).
    simpl in Heq. simplify_eq.
    apply list_elem_of_fmap in Hin as ([[old' tag''] attr'] & Heq & Hin).
    simpl in Heq. simplify_eq. by exists old'. }
  assert (Hmw : forall tag key r, (tag, key, r) ∈ mw ->
            key = "content" /\
            exists content, (content, tag) ∈ extract_meta_descriptions soup /\ r = h content).
  { intros tag key r Hin. unfold mw, meta_writes in Hin.
    apply list_elem_of_fmap in Hin as ([[old tag'] r'] & Heq & Hin).
    simpl in Heq. simplify_eq.
    apply list_elem_of_fmap in Hin as ([old' tag''] & Heq & Hin).
    simpl in Heq. simplify_eq. split; [done|]. by exists old'. }
  exists (apply_writes soup1 (aw ++ mw)). split; [done|]. split_and!.
  - intros q Hq. rewrite apply_writes_find_all by done.
    by apply (replace_nodes_find_all q npairs soup []).
  - intros p Hp. apply apply_writes_keeps_strings, Hnodes.
    unfold npairs. apply list_elem_of_fmap. by exists p.
  - intros val tag attr Hin.
    pose proof (extract_attr_texts_elem soup val tag attr) as [Helem _].
    destruct (Helem Hin) as (_ & Hattr & name & attrs & cs & Hget & _ & Hval & _).
    apply apply_writes_same_value.
    + apply Htags. by exists name, attrs, cs.
    + rewrite fmap_app. apply elem_of_app. left.
      apply list_elem_of_fmap. exists (tag, attr, h val). split; [done|].
      unfold aw, attr_writes. apply list_elem_of_fmap.
      exists (val, tag, attr, h val). split; [done|].
      apply list_elem_of_fmap. by exists (val, tag, attr).
    + intros r Hr. apply elem_of_app in Hr as [Hr|Hr].
      * apply Haw in Hr as (val' & Hin' & ->). f_equal.
        apply extract_attr_texts_elem in Hin'
          as (_ & _ & name' & attrs' & cs' & Hget' & _ & Hval' & _).
        rewrite Hget in Hget'. injection Hget' as <- <- <-.
        rewrite Hval in Hval'. by injection Hval' as <-.
      * apply Hmw in Hr as [-> _]. exfalso. revert Hattr. compute_done.
  - intros content tag Hin.
    destruct (extract_meta_descriptions_elem soup content tag Hin)
      as (attrs & cs & Hget & Hc).
    apply apply_writes_same_value.
    + apply Htags. by exists "meta", attrs, cs.
    + rewrite fmap_app. apply elem_of_app. right.
      apply list_elem_of_fmap. exists (tag, "content", h content). split; [done|].
      unfold mw, meta_writes. apply list_elem_of_fmap.
      exists (content, tag, h content). split; [done|].
      apply list_elem_of_fmap. by exists (content, tag).
    + intros r Hr. apply elem_of_app in Hr as [Hr|Hr].
      * apply Haw in Hr as (val' & Hin' & ->). exfalso.
        apply extract_attr_texts_elem in Hin' as (_ & Hattr & _).
        revert Hattr. compute_done.
      * apply Hmw in Hr as (_ & content' & Hin' & ->). f_equal.
        destruct (extract_meta_descriptions_elem soup content' tag Hin')
          as (attrs' & cs' & Hget' & Hc').
        rewrite Hget in Hget'. injection Hget' as <- <-.
        rewrite Hc in Hc'. by injection Hc' as <-.
Qed.

(** What [process_html_file] returns for a page with its html and
    head elements when the service answers: every unit holds the
    translation of its own text. *)
Lemma process_html_file_answered (re_sub : regex_engine) (tr : YandexTranslator)
    (svc : service) (f : string -> string) (fuel : nat) (soup : node)
    (rel_path : string) (glossary : list rule) (w : world) :
  0 < batch_size tr ->
  answers_within f svc 6 ->
  (length (all_texts re_sub soup glossary) <= fuel)%nat ->
  is_Some (find (by_name "html") soup) ->
  is_Some (find (by_name "head") soup) ->
  exists (out : node) (w' : world),
    process_html_file re_sub tr svc fuel soup rel_path glossary w = (Returns out, w') /\
    (forall p, p ∈ extract_text_nodes soup ->
       get out p
       = Some (NavigableString PlainText
                 (translation_of f (cache_of w) glossary
                    (apply_pre_glossary re_sub (node_text soup p) glossary)))) /\
    (forall val tag attr, (val, tag, attr) ∈ extract_attr_texts soup ->
       attr_at out tag attr
       = Some (AttrStr (translation_of f (cache_of w) glossary
                          (apply_pre_glossary re_sub val glossary)))) /\
    (forall content tag, (content, tag) ∈ extract_meta_descriptions soup ->
       attr_at out tag "content"
       = Some (AttrStr (translation_of f (cache_of w) glossary
                          (apply_pre_glossary re_sub content glossary)))).
Proof.
  intros Hn Hsvc Hfuel Hhtml Hhead.
  unfold process_html_file. unfold all_texts in Hfuel.
  unfold collect_texts_for_translation in *.
  set (pre := fun t => apply_pre_glossary re_sub t glossary).
  set (texts := _ ++ _ ++ _) in *.
  destruct (translate_unique_answered tr svc f fuel texts (cache_of w) glossary (calls_of w)
              Hn Hsvc Hfuel) as (mapping & cache' & calls' & Hrun & Hmap).
  rewrite Hrun.
  set (h := fun t => default (Some (pre t)) (mapping !! pre t)).
  assert (Hh : forall t, pre t ∈ texts ->
            or_empty (h t) = translation_of f (cache_of w) glossary (pre t)).
  { intros t Ht. unfold h. by rewrite (Hmap _ Ht). }
  match goal with
  | |- context [replace_in_html _ _ ?nt _ ?at' _ ?mt] =>
      destruct (replace_in_html_collected soup h nt at' mt)
        as (soup' & -> & Hfind & Hnodes & Hattrs & Hmetas)
  end.
  { unfold replace_texts. by rewrite map_map. }
  { unfold replace_texts. rewrite map_map. apply map_ext. by intros [[t tag] a]. }
  { unfold replace_texts. rewrite map_map. apply map_ext. by intros [t tag]. }
  destruct (annotate_keeps soup' rel_path true) as [Hstr Hkeep].
  { unfold find in *. by rewrite Hfind by (intros; apply keeps_match_by_name_set_item). }
  { unfold find in *. by rewrite Hfind by (intros; apply keeps_match_by_name_set_item). }
  eexists _, _. split; [done|]. split_and!.
  - intros p Hp. erewrite Hstr; [|by apply Hnodes]. rewrite Hh; [done|].
    unfold texts. apply elem_of_app. left. apply list_elem_of_fmap. by exists p.
  - intros val tag attr Hin. rewrite Hkeep.
    + rewrite (Hattrs _ _ _ Hin), Hh; [done|].
      unfold texts. apply elem_of_app. right. apply elem_of_app. left.
      apply list_elem_of_fmap. by exists (val, tag, attr).
    + specialize (Hattrs _ _ _ Hin). unfold attr_at in Hattrs.
      by destruct (get soup' tag).
    + apply extract_attr_texts_elem in Hin as (_ & Hattr & _).
      intros ->. revert Hattr. compute_done.
  - intros content tag Hin. rewrite Hkeep; [| |done].
    + rewrite (Hmetas _ _ Hin), Hh; [done|].
      unfold texts. apply elem_of_app. right. apply elem_of_app. right.
      apply list_elem_of_fmap. by exists (content, tag).
    + specialize (Hmetas _ _ Hin). unfold attr_at in Hmetas.
      by destruct (get soup' tag).
Qed.

(** X19: a page with its html and head elements, processed against a
    service that answers each batch within six attempts with the
    translation [f] of its texts: [process_html_file] returns, and in
    the page it returns every extracted text node, every extracted
    attribute and every extracted meta description holds the
    translation of its own text after the pre-glossary - the cached
    one, or the service's after the post-glossary - at the place
    where the text was. *)
Theorem process_html_file_translates (re_sub : regex_engine) (tr : YandexTranslator)
    (svc : service) (f : string -> string) (fuel : nat) (soup : node)
    (rel_path : string) (glossary : list rule) (w : world) :
  0 < batch_size tr ->
  answers_within f svc 6 ->
  (length (all_texts re_sub soup glossary) <= fuel)%nat ->
  is_Some (find (by_name "html") soup) ->
  is_Some (find (by_name "head") soup) ->
  exists (out : node) (w' : world),
    process_html_file re_sub tr svc fuel soup rel_path glossary w = (Returns out, w') /\
    (forall p, p ∈ extract_text_nodes soup ->
       get out p
       = Some (NavigableString PlainText
                 (translation_of f (cache_of w) glossary
                    (apply_pre_glossary re_sub (node_text soup p) glossary)))) /\
    (forall val tag attr, (val, tag, attr) ∈ extract_attr_texts soup ->
       attr_at out tag attr
       = Some (AttrStr (translation_of f (cache_of w) glossary
                          (apply_pre_glossary re_sub val glossary)))) /\
    (forall content tag, (content, tag) ∈ extract_meta_descriptions soup ->
       attr_at out tag "content"
       = Some (AttrStr (translation_of f (cache_of w) glossary
                          (apply_pre_glossary re_sub content glossary)))).
Proof. apply process_html_file_answered. Qed.


Lemma process_html_file_translates_witness :
  exists (out : node) (w' : world),
    process_html_file no_regex default_translator (reliable (fun s => s +:+ "!")) 5
                      sample_page "index.html" [] fresh_world = (Returns out, w') /\
    get out [0; 1; 0; 0]%nat = Some (NavigableString PlainText "Salom!").
Proof.
  destruct (process_html_file_translates no_regex default_translator
              (reliable (fun s => s +:+ "!")) (fun s => s +:+ "!") 5
              sample_page "index.html" [] fresh_world)
    as (out & w' & Hrun & Hnodes & _).
  - done.
  - apply reliable_answers.
  - vm_compute. lia.
  - eexists. reflexivity.
  - eexists. reflexivity.
  - exists out, w'. split; [exact Hrun|].
    rewrite (Hnodes [0; 1; 0; 0]%nat); [reflexivity|].
    vm_compute. apply list_elem_of_here.
Defined.

(** X20: a doctype declaration at the top of the page is one of the
    text units: it is not a comment and its parent is the document,
    so its text, when not blank, is sent for translation, and in the
    page that is returned the node at its place is a plain string
    with the translation - no longer a doctype. *)
Theorem process_html_file_doctype_becomes_text (re_sub : regex_engine)
    (tr : YandexTranslator) (svc : service) (f : string -> string) (fuel : nat)
    (contents : list node) (rel_path : string) (glossary : list rule) (w : world)
    (i : nat) (text : string) :
  let soup := BeautifulSoup contents in
  0 < batch_size tr ->
  answers_within f svc 6 ->
  (length (all_texts re_sub soup glossary) <= fuel)%nat ->
  is_Some (find (by_name "html") soup) ->
  is_Some (find (by_name "head") soup) ->
  contents !! i = Some (NavigableString Doctype text) ->
  strip text <> "" ->
  [i] ∈ extract_text_nodes soup /\
  exists (out : node) (w' : world),
    process_html_file re_sub tr svc fuel soup rel_path glossary w = (Returns out, w') /\
    get out [i]
    = Some (NavigableString PlainText
              (translation_of f (cache_of w) glossary
                 (apply_pre_glossary re_sub text glossary))).
Proof.
  intros soup Hn Hsvc Hfuel Hhtml Hhead Hi Hstrip.
  assert (Hin : [i] ∈ extract_text_nodes soup).
  { apply extract_text_nodes_elem. exists Doctype, text, "[document]", [], contents.
    simpl. rewrite Hi. split_and!; try done. compute_done. }
  split; [done|].
  destruct (process_html_file_answered re_sub tr svc f fuel soup rel_path glossary w
              Hn Hsvc Hfuel Hhtml Hhead) as (out & w' & Hrun & Hnodes & _).
  exists out, w'. split; [done|]. rewrite (Hnodes _ Hin).
  unfold node_text. simpl. by rewrite Hi.
Qed.

Lemma process_html_file_doctype_becomes_text_witness :
  [0%nat] ∈ extract_text_nodes
    (BeautifulSoup [NavigableString Doctype "html";
                    Tag "html" [] [Tag "head" [] []; Tag "body" [] []]]) /\
  exists (out : node) (w' : world),
    process_html_file no_regex default_translator (reliable (fun s => s)) 5
      (BeautifulSoup [NavigableString Doctype "html";
                      Tag "html" [] [Tag "head" [] []; Tag "body" [] []]])
      "index.html" [] fresh_world = (Returns out, w') /\
    get out [0%nat] = Some (NavigableString PlainText "html").
Proof.
  apply (process_html_file_doctype_becomes_text no_regex default_translator
           (reliable (fun s => s)) (fun s => s) 5
           [NavigableString Doctype "html";
            Tag "html" [] [Tag "head" [] []; Tag "body" [] []]]
           "index.html" [] fresh_world 0 "html").
  - done.
  - apply reliable_answers.
  - vm_compute. lia.
  - eexists. reflexivity.
  - eexists. reflexivity.
  - reflexivity.
  - by vm_compute.
Defined.

(** ** More on the glossary *)

Lemma replace_from_absent (old new s : string) :
  contains old s = false -> replace_from old new 0 s = s.
Proof.
  induction s as [|c s IH]; [done|]. cbn [contains replace_from].
  intros [Hp Hs]%orb_false_iff. rewrite Hp. by rewrite IH.
Qed.

Lemma replace_absent (old new s : string) :
  old <> "" -> contains old s = false -> replace old new s = s.
Proof.
  intros Hold Hs. destruct old as [|a old]; [done|]. by apply replace_from_absent.
Qed.

(** X21: [apply_pre_glossary] returns the text as it is when no rule
    has anything to do on it: a [dt] or [exact] rule whose non-empty
    source does not occur in the text, a [regex] rule whose pattern is
    rejected or whose substitution leaves the text as it is, and a
    rule of any other mode, which is skipped. *)
Theorem apply_pre_glossary_idle (re_sub : regex_engine) (text : string)
    (glossary : list rule) :
  (forall source target mode, (source, target, mode) ∈ glossary ->
     ((mode = "dt" \/ mode = "exact") /\ source <> "" /\ contains source text = false) \/
     (mode = "regex" /\ (re_sub source target text = None \/
                         re_sub source target text = Some text)) \/
     (mode <> "dt" /\ mode <> "exact" /\ mode <> "regex")) ->
  apply_pre_glossary re_sub text glossary = text.
Proof.
  unfold apply_pre_glossary.
  induction glossary as [|[[source target] mode] glossary IH]; intros Hidle; [done|].
  cbn [foldl].
  assert ((if bool_decide (mode = "dt") || bool_decide (mode = "exact")
           then replace source target text
           else if bool_decide (mode = "regex")
                then match re_sub source target text with
                     | Some text' => text'
                     | None => text
                     end
                else text) = text) as ->.
  { destruct (Hidle source target mode (list_elem_of_here _ _))
      as [([-> | ->] & Hsrc & Hocc) | [(-> & [Hre | Hre]) | (Hdt & Hexact & Hregex)]].
    - by apply replace_absent.
    - by apply replace_absent.
    - by rewrite Hre.
    - by rewrite Hre.
    - by rewrite !bool_decide_eq_false_2. }
  apply IH. intros s t m Hin. by apply Hidle, list_elem_of_further.
Qed.

Lemma apply_pre_glossary_idle_witness :
  apply_pre_glossary no_regex "gips"
    [("Knauf", "KNAUF", "exact"); ("g.ps", "x", "regex"); ("gips", "x", "note")]
  = "gips".
Proof.
  apply apply_pre_glossary_idle. intros source target mode Hin.
  apply elem_of_cons in Hin as [[= -> -> ->] | Hin]; [left; split_and!; [by right | done | done]|].
  apply elem_of_cons in Hin as [[= -> -> ->] | Hin]; [right; left; split; [done | by left]|].
  apply list_elem_of_singleton in Hin as [= -> -> ->]. right. right. by split_and!.
Defined.

(** ** [load_env] *)

Section LoadEnv.
Variable accepts : putenv_check.

Lemma load_env_lines_cons (line : string) (lines : list string)
    (environ : gmap string string) :
  load_env_lines accepts (line :: lines) environ
  = match env_definition line with
    | None => load_env_lines accepts lines environ
    | Some (k, v) =>
        match environ !! k with
        | Some _ => load_env_lines accepts lines environ
        | None =>
            if accepts k v then load_env_lines accepts lines (<[k := v]> environ)
            else (environ, false)
        end
    end.
Proof.
  cbn [load_env_lines]. unfold env_definition.
  destruct (bool_decide (line = "") || String.prefix "#" (strip line)); [done|].
  by destruct (split_first "=" line) as [[k v]|].
Qed.

Lemma load_env_lines_keeps (lines : list string) (environ : gmap string string)
    (k v : string) :
  environ !! k = Some v -> (load_env_lines accepts lines environ).1 !! k = Some v.
Proof.
  revert environ. induction lines as [|line lines IH]; intros environ Hk; [done|].
  rewrite load_env_lines_cons.
  destruct (env_definition line) as [[k' v']|]; [|by apply IH].
  destruct (environ !! k') eqn:Hk'; [by apply IH|].
  destruct (accepts k' v'); [|done].
  apply IH. rewrite lookup_insert_ne; [done|]. intros ->. by rewrite Hk in Hk'.
Qed.

(** X22: [load_env] never changes a variable that is set: whatever
    the files hold, and also when an assignment raises half way, a
    variable of the environment before the call has the same value
    after it. *)
Theorem load_env_keeps_environment (candidates : list (option (list string)))
    (environ : gmap string string) (k v : string) :
  environ !! k = Some v -> (load_env accepts candidates environ).1 !! k = Some v.
Proof.
  intros Hk. induction candidates as [|[lines|] candidates IH]; [done | | done].
  cbn [load_env]. by apply load_env_lines_keeps.
Qed.

(** X23: in the file [load_env] reads - the first candidate that is
    a file, the later ones are not opened - the first definition of
    a name wins: when the loop comes to its end, a name that was not
    set before has the value of the first line that defines it,
    whatever later lines say. *)
Theorem load_env_first_definition (candidates : list (option (list string)))
    (lines : list string) (environ environ' : gmap string string)
    (i j : nat) (line k v : string) :
  candidates !! j = Some (Some lines) ->
  (forall j', (j' < j)%nat -> candidates !! j' = Some None) ->
  load_env accepts candidates environ = (environ', true) ->
  environ !! k = None ->
  lines !! i = Some line ->
  env_definition line = Some (k, v) ->
  (forall i' line', (i' < i)%nat -> lines !! i' = Some line' ->
                    forall v', env_definition line' <> Some (k, v')) ->
  environ' !! k = Some v.
Proof.
  intros Hj Hbefore. revert j Hj Hbefore.
  induction candidates as [|c candidates IH]; intros j Hj Hbefore; [by destruct j|].
  destruct j as [|j].
  - injection Hj as ->. cbn [load_env]. clear IH Hbefore.
    revert environ i. induction lines as [|l lines IH]; intros environ i Hrun Hk Hi Hdef Hfirst;
      [by destruct i|].
    rewrite load_env_lines_cons in Hrun. destruct i as [|i].
    + injection Hi as ->. rewrite Hdef, Hk in Hrun.
      destruct (accepts k v); [|done].
      rewrite <- (load_env_lines_keeps lines (<[k := v]> environ) k v);
        [by rewrite Hrun | apply lookup_insert_eq].
    + assert (Hl : forall v', env_definition l <> Some (k, v')).
      { apply (Hfirst 0%nat); [lia | done]. }
      assert (Hrest : forall i' line', (i' < i)%nat -> lines !! i' = Some line' ->
                forall v', env_definition line' <> Some (k, v')).
      { intros i' line' Hi' Hline'. apply (Hfirst (S i')); [lia | done]. }
      destruct (env_definition l) as [[k' v']|]; [|by apply (IH environ i)].
      destruct (environ !! k') eqn:Hk'; [by apply (IH environ i)|].
      destruct (accepts k' v'); [|done].
      apply (IH (<[k' := v']> environ) i); try done.
      rewrite lookup_insert_ne; [done|]. intros ->. by apply (Hl v').
  - assert (c = None) as ->.
    { specialize (Hbefore 0%nat (Nat.lt_0_succ j)). by injection Hbefore. }
    cbn [load_env]. apply (IH j); [done|].
    intros j' Hj'. apply (Hbefore (S j')). lia.
Qed.

End LoadEnv.

Lemma load_env_keeps_environment_witness :
  (load_env (fun _ _ => true) [None; Some ["YANDEX_API_KEY=from-file"; "B=2"]]
            {["YANDEX_API_KEY" := "from-shell"]}).1 !! "YANDEX_API_KEY"
  = Some "from-shell".
Proof.
  apply (load_env_keeps_environment (fun _ _ => true)
           [None; Some ["YANDEX_API_KEY=from-file"; "B=2"]]
           {["YANDEX_API_KEY" := "from-shell"]} "YANDEX_API_KEY" "from-shell").
  reflexivity.
Defined.

Lemma load_env_first_definition_witness :
  exists environ',
    load_env (fun _ _ => true)
             [None; Some ["# keys"; " A = 1 "; "A=2"]; Some ["A=3"]] ∅ = (environ', true) /\
    environ' !! "A" = Some "1".
Proof.
  eexists. split; [reflexivity|].
  apply (load_env_first_definition (fun _ _ => true)
           [None; Some ["# keys"; " A = 1 "; "A=2"]; Some ["A=3"]]
           ["# keys"; " A = 1 "; "A=2"] ∅ _ 1 1 " A = 1 " "A" "1").
  - reflexivity.
  - intros j' Hj'. assert (j' = 0%nat) as -> by lia. reflexivity.
  - reflexivity.
  - reflexivity.
  - reflexivity.
  - reflexivity.
  - intros i' line' Hi'. assert (i' = 0%nat) as -> by lia.
    intros [= <-] v'. discriminate.
Defined.

(** ** The doctype line and the serialised page *)

Lemma append_cons (x : ascii) (a b : string) : String x a +:+ b = String x (a +:+ b).
Proof. done. Qed.

Lemma append_assoc (a b c : string) : (a +:+ b) +:+ c = a +:+ (b +:+ c).
Proof. induction a as [|x a IH]; [done|]. by rewrite !append_cons, IH. Qed.

Lemma append_nil_r (a : string) : a +:+ "" = a.
Proof. induction a as [|x a IH]; [done|]. by rewrite append_cons, IH. Qed.

Lemma rev_app_acc (s acc : string) : String.rev_app s acc = String.rev s +:+ acc.
Proof.
  unfold String.rev. revert acc. induction s as [|c s IH]; intros acc; [done|].
  cbn [String.rev_app]. rewrite (IH (String c "")), IH. by rewrite append_assoc.
Qed.

Lemma rev_append (a b : string) : String.rev (a +:+ b) = String.rev b +:+ String.rev a.
Proof.
  induction a as [|c a IH].
  - by rewrite append_nil_r.
  - rewrite append_cons. unfold String.rev at 1 3. cbn [String.rev_app].
    rewrite !rev_app_acc, IH. by rewrite append_assoc.
Qed.

Lemma lstrip_before_nonspace (a b : string) (c : ascii) :
  isspace c = false -> lstrip (a +:+ String c b) = lstrip a +:+ String c b.
Proof.
  intros Hc. induction a as [|x a IH].
  - simpl. by rewrite Hc.
  - rewrite append_cons. simpl. destruct (isspace x); [done|]. by rewrite append_cons.
Qed.

(** [rstrip] keeps a leading character that is not a space. *)
Lemma rstrip_cons_nonspace (c : ascii) (s : string) :
  isspace c = false -> rstrip (String c s) = String c (rstrip s).
Proof.
  intros Hc. unfold rstrip. unfold String.rev at 2. cbn [String.rev_app].
  rewrite rev_app_acc, lstrip_before_nonspace by done.
  by rewrite rev_append.
Qed.

Lemma lstrip_spaces (ws s : string) : lstrip ws = "" -> lstrip (ws +:+ s) = lstrip s.
Proof.
  induction ws as [|c ws IH]; [done|]. rewrite append_cons. simpl.
  by destruct (isspace c).
Qed.

Lemma lower_char_nonspace (c : ascii) :
  isspace c = true -> lower_char c = c.
Proof.
  destruct c as [[] [] [] [] [] [] [] []]; by vm_compute.
Qed.

(** A prefix without spaces survives [rstrip], and what is left
    starts with a character that is not a space. *)
Lemma prefix_lower_rstrip (p s : string) :
  Forall (fun c => isspace c = false) (String.list_ascii_of_string p) ->
  String.prefix p (lower s) = true ->
  String.prefix p (lower (rstrip s)) = true /\
  (p <> "" -> exists c r, rstrip s = String c r /\ isspace c = false).
Proof.
  revert s. induction p as [|x p IH]; intros s Hp Hpre;
    [split; [by destruct (lower (rstrip s)) | by intros []]|].
  destruct s as [|c s]; [done|]. simpl in Hpre, Hp.
  apply Forall_cons in Hp as [Hx Hp].
  destruct (ascii_dec x (lower_char c)) as [->|]; [|done].
  assert (Hc : isspace c = false).
  { destruct (isspace c) eqn:Hc; [|done]. by rewrite (lower_char_nonspace c Hc), Hc in Hx. }
  rewrite rstrip_cons_nonspace by done. simpl.
  destruct (ascii_dec (lower_char c) (lower_char c)); [|done].
  split; [by apply IH | by eauto].
Qed.

Lemma lower_append (a b : string) : lower (a +:+ b) = lower a +:+ lower b.
Proof. induction a as [|c a IH]; [done|]. rewrite append_cons. simpl. by rewrite IH. Qed.

Lemma prefix_append_l (p a b : string) :
  String.prefix p a = true -> String.prefix p (a +:+ b) = true.
Proof.
  intros (r & ->)%prefix_true_append. rewrite append_assoc. apply prefix_append.
Qed.

Lemma first_doctype_Some (lines : list string) (d : string) :
  first_doctype lines = Some d ->
  exists line, line ∈ lines /\ d = strip line /\
               String.prefix "<!doctype" (lower (lstrip line)) = true.
Proof.
  induction lines as [|line lines IH]; [done|]. cbn [first_doctype].
  destruct (String.prefix "<!doctype" (lower (lstrip line))) eqn:Hpre.
  - intros [= <-]. exists line. split; [apply list_elem_of_here | done].
  - intros (l & Hl & Hd)%IH. exists l. split; [by apply list_elem_of_further | done].
Qed.

(** X24: when one of the first three lines of the source starts a
    doctype, the page that is written starts with one too: after the
    fix-ups of the serialised page, what is left of it after leading
    white space starts, in lower case, with the doctype opening. *)
Theorem fix_out_html_doctype (lines : list string) (d out_html : string) :
  orig_doctype lines = Some d ->
  String.prefix "<!doctype" (lower (lstrip (fix_out_html (Some d) out_html))) = true.
Proof.
  unfold orig_doctype. intros (line & _ & -> & Hpre)%first_doctype_Some.
  destruct (prefix_lower_rstrip "<!doctype" (lstrip line)) as [Hd Hfirst];
    [by repeat constructor | done |].
  destruct Hfirst as (c & r & Hr & Hc); [done|].
  unfold fix_out_html, strip.
  set (out := if String.prefix "html<html" (lstrip out_html) then _ else _).
  destruct (String.prefix "<!doctype" (lower (lstrip out))) eqn:Hout.
  - by rewrite andb_false_r.
  - assert (Hne : rstrip (lstrip line) <> "") by by rewrite Hr.
    rewrite bool_decide_eq_false_2 by done. cbn [negb andb].
    rewrite Hr, append_cons. cbn [lstrip]. rewrite Hc.
    rewrite <- append_cons, <- Hr, lower_append. by apply prefix_append_l.
Qed.

Lemma fix_out_html_doctype_witness :
  String.prefix "<!doctype"
    (lower (lstrip (fix_out_html (Some "<!DOCTYPE html>") "<html><body></body></html>")))
  = true.
Proof.
  apply (fix_out_html_doctype ["  <!DOCTYPE html> "; "<html>"]). reflexivity.
Defined.

Lemma replace_first_leading_html (ws rest : string) :
  lstrip ws = "" ->
  replace_first "html<" "<" (ws +:+ "html<html" +:+ rest) = ws +:+ "<html" +:+ rest.
Proof.
  unfold replace_first. induction ws as [|c ws IH]; intros Hws; [done|].
  simpl in Hws. destruct (isspace c) eqn:Hc; [|done].
  rewrite !(append_cons c ws). cbn [replace_first_from].
  assert (String.prefix "html<" (String c (ws +:+ "html<html" +:+ rest)) = false) as ->.
  { cbn [String.prefix]. destruct (ascii_dec "h" c) as [<-|]; [by vm_compute in Hc | done]. }
  by rewrite IH.
Qed.

(** X25: the leading [html] that the serialiser may leave before the
    html element is removed, and only it: a page that starts, after
    white space, with [html<html] goes on as the same page without
    these four characters would, and with no doctype to restore that
    page is the result. *)
Theorem fix_out_html_leading_html (orig : option string) (ws rest : string) :
  lstrip ws = "" ->
  fix_out_html orig (ws +:+ "html<html" +:+ rest)
  = fix_out_html orig (ws +:+ "<html" +:+ rest) /\
  fix_out_html None (ws +:+ "<html" +:+ rest) = ws +:+ "<html" +:+ rest.
Proof.
  intros Hws. unfold fix_out_html.
  rewrite (lstrip_spaces ws ("html<html" +:+ rest)) by done.
  rewrite !(lstrip_spaces ws ("<html" +:+ rest)) by done.
  change (lstrip ("html<html" +:+ rest)) with ("html<html" +:+ rest).
  change (lstrip ("<html" +:+ rest)) with ("<html" +:+ rest).
  rewrite prefix_append, replace_first_leading_html by done.
  by change (String.prefix "html<html" ("<html" +:+ rest)) with false.
Qed.

Lemma fix_out_html_leading_html_witness :
  fix_out_html (Some "<!DOCTYPE html>") (newline +:+ "html<html" +:+ "></html>")
  = fix_out_html (Some "<!DOCTYPE html>") (newline +:+ "<html" +:+ "></html>") /\
  fix_out_html None (newline +:+ "<html" +:+ "></html>") = newline +:+ "<html" +:+ "></html>".
Proof.
  apply (fix_out_html_leading_html (Some "<!DOCTYPE html>") newline "></html>").
  reflexivity.
Defined.

(** ** Requests that are not made *)

Lemma send_all_first_attempt (svc : service) (bs : list (list string))
    (results : list string) (calls : nat) :
  (forall n batch, exists answer, translate_batch svc n batch = inr answer) ->
  exists results', send_all svc bs results calls = (Returns results', (calls + length bs)%nat).
Proof.
  intros Hsvc. revert results calls.
  induction bs as [|b bs IH]; intros results calls.
  - exists results. simpl. by rewrite Nat.add_0_r.
  - cbn [send_all]. unfold range. cbn [seq call_with_retries].
    destruct (Hsvc calls b) as [answer ->].
    destruct (IH (results ++ answer) (S calls)) as [results' ->].
    exists results'. f_equal. simpl. lia.
Qed.

(** X26: against a service that answers every request, [translate]
    with a positive [batch_size] returns after exactly one request
    for each batch of the partition it builds. *)
Theorem translate_one_request_per_batch (tr : YandexTranslator) (svc : service)
    (fuel : nat) (texts : list string) (calls : nat) :
  0 < batch_size tr ->
  (length texts <= fuel)%nat ->
  (forall n batch, exists answer, translate_batch svc n batch = inr answer) ->
  exists (bs : list (list string)) (results : list string),
    batches tr fuel texts = Some bs /\
    concat bs = texts /\
    translate tr svc fuel texts calls = (Returns results, (calls + length bs)%nat).
Proof.
  intros Hn Hfuel Hsvc.
  destruct (batches_total tr fuel texts Hn Hfuel) as (bs & Hbs & Hcat & _).
  destruct (send_all_first_attempt svc bs [] calls Hsvc) as [results Hsend].
  exists bs, results. split; [done|]. split; [done|]. unfold translate.
  by rewrite (translate_loop_send_all tr svc _ _ _ _ _ Hbs).
Qed.

Lemma translate_one_request_per_batch_witness :
  exists (bs : list (list string)) (results : list string),
    batches {| api_key := "k"; folder_id := "f"; batch_size := 2; max_chars := 5;
               rpm := 300 |} 4 ["ab"; "cd"; "efgh"; "ij"] = Some bs /\
    concat bs = ["ab"; "cd"; "efgh"; "ij"] /\
    translate {| api_key := "k"; folder_id := "f"; batch_size := 2; max_chars := 5;
                 rpm := 300 |} (reliable (fun s => s)) 4 ["ab"; "cd"; "efgh"; "ij"] 10
    = (Returns results, (10 + length bs)%nat).
Proof.
  apply (translate_one_request_per_batch
           {| api_key := "k"; folder_id := "f"; batch_size := 2; max_chars := 5;
              rpm := 300 |} (reliable (fun s => s)) 4 ["ab"; "cd"; "efgh"; "ij"] 10).
  - done.
  - simpl. lia.
  - intros n batch. by eexists.
Defined.

(** With a non-empty translation in the cache for each of its texts,
    [translate_unique] makes no request and gives each text the
    cached translation. *)
Lemma translate_unique_cached (tr : YandexTranslator) (svc : service) (fuel : nat)
    (texts : list string) (cache : gmap string string) (glossary : list rule)
    (calls : nat) :
  (forall t, t ∈ texts -> exists v, cache !! t = Some v /\ v <> "") ->
  exists mapping,
    translate_unique tr svc fuel texts cache glossary calls = (Returns mapping, cache, calls) /\
    forall t, t ∈ texts -> mapping !! t = Some (cache !! t).
Proof.
  intros Hfull. unfold translate_unique.
  pose proof (scan_texts_inv cache texts) as (Hdom & Hval & _ & Huniq).
  destruct (scan_texts cache texts) as [mapping unique]. simpl in *.
  assert (Hhit : forall t, t ∈ texts -> mapping !! t = Some (cache !! t)).
  { intros t Ht. destruct (Hfull t Ht) as (v & Hc & Hv).
    apply Hdom in Ht as [w Hw]. rewrite Hw, (Hval _ _ Hw), Hc. f_equal.
    by apply or_None_Some. }
  destruct unique as [|u unique]; [by exists mapping|]. exfalso.
  assert (Hu : mapping !! u = Some None) by apply Huniq, list_elem_of_here.
  assert (Hin : u ∈ texts) by (apply Hdom; by rewrite Hu).
  destruct (Hfull u Hin) as (v & Hc & _). by rewrite (Hhit u Hin), Hc in Hu.
Qed.

(** X27: a page that was processed against a service that answers
    (each batch within six attempts, no translation empty) is
    reproduced from the cache: processing the same page again with
    the cache and the request count the first run left makes no
    request, whatever the service and the limits are then, and
    returns the same page. *)
Theorem process_html_file_rerun (re_sub : regex_engine) (tr : YandexTranslator)
    (svc : service) (f : string -> string) (fuel : nat) (soup : node)
    (rel_path : string) (glossary : list rule) (w : world) :
  0 < batch_size tr ->
  answers_within f svc 6 ->
  (length (all_texts re_sub soup glossary) <= fuel)%nat ->
  (forall t, apply_post_glossary (f t) glossary <> "") ->
  exists (out : node) (w' : world),
    process_html_file re_sub tr svc fuel soup rel_path glossary w = (Returns out, w') /\
    forall (tr2 : YandexTranslator) (svc2 : service) (fuel2 : nat),
      process_html_file re_sub tr2 svc2 fuel2 soup rel_path glossary w' = (Returns out, w').
Proof.
  intros Hn Hsvc Hfuel Hf.
  unfold process_html_file. unfold all_texts in Hfuel.
  unfold collect_texts_for_translation in *.
  set (node_texts := map _ (extract_text_nodes soup)) in *.
  set (attr_texts := map _ (extract_attr_texts soup)) in *.
  set (meta_texts := map _ (extract_meta_descriptions soup)) in *.
  set (texts := node_texts ++ attr_texts ++ meta_texts) in *.
  destruct (translate_unique_answered tr svc f fuel texts (cache_of w) glossary (calls_of w)
              Hn Hsvc Hfuel) as (mapping & cache' & calls' & Hrun & Hmap).
  rewrite Hrun.
  destruct (translate_unique_returns _ _ _ _ _ _ _ _ _ _ Hrun) as (_ & Hcache & _).
  destruct (replace_in_html_extracted soup (replace_texts node_texts mapping)
              (replace_texts attr_texts mapping) (replace_texts meta_texts mapping))
    as [soup' Hrep].
  rewrite Hrep. eexists _, _. split; [done|].
  intros tr2 svc2 fuel2. cbn [cache_of calls_of].
  destruct (translate_unique_cached tr2 svc2 fuel2 texts cache' glossary calls')
    as (mapping2 & -> & Hmap2).
  { intros t Ht. specialize (Hmap t Ht). exists (translation_of f (cache_of w) glossary t).
    split; [by apply Hcache|]. unfold translation_of.
    destruct (or_None (cache_of w !! t)) as [v|] eqn:Hv; [|done].
    by apply or_None_Some in Hv as [_ ?]. }
  assert (Hsame : forall l, l ⊆ texts -> replace_texts l mapping2 = replace_texts l mapping).
  { intros l Hl. unfold replace_texts. apply map_ext_in. intros t Ht.
    apply list_elem_of_In, Hl in Ht.
    by rewrite (Hmap2 t Ht), (Hmap t Ht), (Hcache _ _ (Hmap t Ht)). }
  rewrite !Hsame, Hrep; [done | | |]; unfold texts; intros t Ht;
    repeat (apply elem_of_app; (by left) || right); done.
Qed.

Lemma process_html_file_rerun_witness :
  exists (out : node) (w' : world),
    process_html_file no_regex default_translator (reliable (fun s => s +:+ "!")) 5
                      sample_page "index.html" [] fresh_world = (Returns out, w') /\
    forall (tr2 : YandexTranslator) (svc2 : service) (fuel2 : nat),
      process_html_file no_regex tr2 svc2 fuel2 sample_page "index.html" [] w'
      = (Returns out, w').
Proof.
  apply (process_html_file_rerun no_regex default_translator
           (reliable (fun s => s +:+ "!")) (fun s => s +:+ "!") 5
           sample_page "index.html" [] fresh_world).
  - done.
  - apply reliable_answers.
  - vm_compute. lia.
  - intros t. simpl. by destruct t.
Defined.
